(** * Vectorized hash joiner and span-latch manager

    A shallow embedding of [pkg/sql/colexec/hashjoiner.go] (the hash
    join operator of package [colexec]) and of the latch manager of
    package [spanlatch] that follows it in the same source file, with
    the properties the specification states about them. *)

From stdpp Require Import base option list gmap strings functions.

Local Open Scope Z_scope.

(** ** Fixed-width integers *)

Definition uint16 (z : Z) : Z := z `mod` 2 ^ 16.
Definition uint32 (z : Z) : Z := z `mod` 2 ^ 32.
Definition uint64 (z : Z) : Z := z `mod` 2 ^ 64.

(** ** Collaborators of the latch manager that live in other packages *)

Module hlc.

(** Modelled from the spec: [hlc.Timestamp] with its methods [IsEmpty]
    and [Less] (package [util/hlc] is not among the sources).  The
    spec calls it a hybrid-logical clock value with a distinguished
    empty value; a clock reading is a wall time and a logical counter,
    neither of them negative, compared lexicographically, and the zero
    value [hlc.Timestamp{}] is the empty timestamp. *)
Record Timestamp : Type := { WallTime : N; Logical : N }.

Definition zero : Timestamp := {| WallTime := 0; Logical := 0 |}.

Definition IsEmpty (t : Timestamp) : bool :=
  ((WallTime t =? 0) && (Logical t =? 0))%N.

Definition Less (t s : Timestamp) : bool :=
  ((WallTime t <? WallTime s)
   || ((WallTime t =? WallTime s) && (Logical t <? Logical s)))%N.

#[global] Instance Timestamp_eq_dec : EqDecision Timestamp.
Proof. solve_decision. Defined.

End hlc.

Module roachpb.

(** Modelled from the spec: [roachpb.Span], an interval [[start, end)]
    over an ordered key domain (package [roachpb] is not among the
    sources).  Keys are byte strings in their lexicographic order. *)
Record Span : Type := { Key : string; EndKey : string }.

Definition Overlaps (a b : Span) : bool :=
  String.ltb (Key a) (EndKey b) && String.ltb (Key b) (EndKey a).

#[global] Instance Span_eq_dec : EqDecision Span.
Proof. solve_decision. Defined.

End roachpb.

Module spanset.

(** Modelled from the spec: the two enumerations of package [spanset]
    (not among the sources).  The loops [for s := SpanScope(0); s <
    NumSpanScope; s++] and [for a := SpanAccess(0); a < NumSpanAccess;
    a++] visit the values in the order of [allScopes] and
    [allAccesses]. *)
Inductive SpanAccess : Type := SpanReadOnly | SpanReadWrite.
Inductive SpanScope : Type := SpanGlobal | SpanLocal.

Definition allAccesses : list SpanAccess := [SpanReadOnly; SpanReadWrite].
Definition allScopes : list SpanScope := [SpanGlobal; SpanLocal].

#[global] Instance SpanAccess_eq_dec : EqDecision SpanAccess.
Proof. solve_decision. Defined.
#[global] Instance SpanScope_eq_dec : EqDecision SpanScope.
Proof. solve_decision. Defined.

(** Modelled from the spec: a [SpanSet] holds the declared spans of
    every access and scope; [GetSpans] reads one of the four lists. *)
Record SpanSet : Type :=
  { spans : SpanAccess -> SpanScope -> list roachpb.Span }.

Definition GetSpans (ss : SpanSet) (a : SpanAccess) (s : SpanScope)
  : list roachpb.Span := spans ss a s.

End spanset.

(** ** Package spanlatch *)

Module spanlatch.
Import hlc roachpb spanset.

(** A pointer to a [signal]: the address of the [done] field of the
    [Guard] it lives in. *)
Definition sigptr : Type := N.

(** [latch]: the [next] and [prev] pointers thread the read set; they
    are represented by the position of the latch in the [latchList]
    below. *)
Record latch : Type :=
  { id : Z; span : Span; ts : Timestamp; done : sigptr }.

#[global] Instance latch_eq_dec : EqDecision latch.
Proof. solve_decision. Defined.

Definition zeroLatch : latch :=
  {| id := 0; span := {| Key := ""; EndKey := "" |}; ts := hlc.zero; done := 0%N |}.

(** *** The read set

    Modelled from the spec: [latchList], the doubly-linked list of
    latches kept per scope (its file is not among the sources). *)
Definition latchList : Type := list latch.

Definition len (ll : latchList) : nat := length ll.
Definition front (ll : latchList) : option latch := head ll.
Definition pushBack (ll : latchList) (la : latch) : latchList := ll ++ [la].

Fixpoint remove (ll : latchList) (la : latch) : latchList :=
  match ll with
  | [] => []
  | x :: rest => if decide (x = la) then rest else x :: remove rest la
  end.

(** [la.next != nil] holds exactly while the latch is linked into a
    list, and the only list a latch is ever linked into is the read
    set of its own scope (see [insertLocked]). *)
Definition inReadSet (ll : latchList) (la : latch) : bool :=
  bool_decide (la ∈ ll).

(** *** The interval tree

    Modelled from the spec: [btree], a black-box ordered map of
    latches with overlap iteration and copy-on-write [Clone] (its file
    is not among the sources).  Entries are ordered by start key, end
    key and latch id; a clone is a value of its own, so later updates
    of the original are not seen through it. *)
Abbreviation btreeKey := (string * string * Z)%type.
Definition keyOf (la : latch) : btreeKey :=
  (Key (span la), EndKey (span la), id la).

Abbreviation btree := (gmap btreeKey latch).

Definition Set_ (t : btree) (la : latch) : btree := <[keyOf la := la]> t.
Definition Delete (t : btree) (la : latch) : btree := delete (keyOf la) t.
Definition Clone (t : btree) : btree := t.
Definition emptyTree : btree := ∅.

(** The latches an iterator visits between [FirstOverlap search] and
    the end of [NextOverlap]. *)
Definition overlapping (t : btree) (search : latch) : list latch :=
  filter (fun la => Overlaps (span la) (span search) = true)
         (snd <$> map_to_list t).

(** *** Signals

    Modelled from the spec: [signal], a one-shot broadcast that stays
    fired once fired (its file is not among the sources).  The heap
    records which signals have fired, and the next free address for a
    [Guard]. *)
Record heap : Type := { nextAddr : N; fired : gset sigptr }.

Definition signaled (h : heap) (p : sigptr) : bool := bool_decide (p ∈ fired h).
Definition signal (h : heap) (p : sigptr) : heap :=
  {| nextAddr := nextAddr h; fired := {[p]} ∪ fired h |}.

(** *** Guard *)

(** [latchesPtrs] and [latchesLens] together are the packed form of
    [[NumSpanScope][NumSpanAccess][]latch]; [gdone] is the address of
    the guard's [done] signal. *)
Record Guard : Type :=
  { gdone : sigptr;
    glatches : SpanScope -> SpanAccess -> list latch }.

Definition latches (lg : Guard) (s : SpanScope) (a : SpanAccess) : list latch :=
  glatches lg s a.

Definition setLatches (lg : Guard) (s : SpanScope) (a : SpanAccess)
    (ls : list latch) : Guard :=
  {| gdone := gdone lg;
     glatches := <[s := <[a := ls]> (glatches lg s)]> (glatches lg) |}.

Definition newGuardAt (p : sigptr) : Guard :=
  {| gdone := p; glatches := fun _ _ => [] |}.

(** [allocGuardAndLatches]: one allocation holds the guard and an
    array of 1, 2, 4 or 8 latches, or the guard and a slice of their
    own.  The guard gets the next free address. *)
Definition allocGuardAndLatches (h : heap) (nLatches : nat)
  : heap * Guard * list latch :=
  let h' := {| nextAddr := N.succ (nextAddr h); fired := fired h |} in
  let g := newGuardAt (nextAddr h) in
  if (nLatches <=? 1)%nat then (h', g, take nLatches (replicate 1 zeroLatch))
  else if (nLatches <=? 2)%nat then (h', g, take nLatches (replicate 2 zeroLatch))
  else if (nLatches <=? 4)%nat then (h', g, take nLatches (replicate 4 zeroLatch))
  else if (nLatches <=? 8)%nat then (h', g, take nLatches (replicate 8 zeroLatch))
  else (h', g, replicate nLatches zeroLatch).

(** *** Interference of timestamps *)

Definition ignoreFn : Type := Timestamp -> Timestamp -> bool.

Definition ignoreLater : ignoreFn :=
  fun ts other => negb (IsEmpty ts) && Less ts other.
Definition ignoreEarlier : ignoreFn :=
  fun ts other => negb (IsEmpty other) && Less other ts.
Definition ignoreNothing : ignoreFn := fun ts other => false.

Definition ifGlobal (ts : Timestamp) (s : SpanScope) : Timestamp :=
  match s with
  | SpanGlobal => ts
  | SpanLocal => hlc.zero
  end.

(** *** newGuard *)

(** The first pair of loops of [newGuard]. *)
Definition countLatches (ss : SpanSet) : nat :=
  foldl (fun n s =>
           foldl (fun n a => (n + length (GetSpans ss a s))%nat) n allAccesses)
        0%nat allScopes.

(** The body of the loop over [ssLatches]: the latch at index [i]
    takes the span [ss[i]]. *)
Definition initLatch (g : Guard) (ts : Timestamp) (s : SpanScope)
    (la : latch) (sp : Span) : latch :=
  {| id := id la; span := sp; ts := ifGlobal ts s; done := gdone g |}.

(** One round of the inner loop of [newGuard], for scope [s] and
    access [a]: the state is the guard and the latches not yet handed
    out.  [None] is a slice expression out of range. *)
Definition newGuardStep (ss : SpanSet) (ts : Timestamp) (s : SpanScope)
    (a : SpanAccess) (st : Guard * list latch) : option (Guard * list latch) :=
  let '(g, ls) := st in
  let sps := GetSpans ss a s in
  let n := length sps in
  if (n =? 0)%nat then Some (g, ls)
  else if (length ls <? n)%nat then None
  else
    let ssLatches := zip_with (initLatch g ts s) (take n ls) sps in
    Some (setLatches g s a ssLatches, drop n ls).

Definition newGuardLoop (ss : SpanSet) (ts : Timestamp)
    (st : Guard * list latch) : option (Guard * list latch) :=
  foldl (fun acc s =>
           foldl (fun acc a => acc ≫= newGuardStep ss ts s a) acc allAccesses)
        (Some st) allScopes.

(** [newGuard]: [None] stands for a panic. *)
Definition newGuard (h : heap) (ss : SpanSet) (ts : Timestamp)
  : option (heap * Guard) :=
  let nLatches := countLatches ss in
  let '(h', guard, ls) := allocGuardAndLatches h nLatches in
  match newGuardLoop ss ts (guard, ls) with
  | None => None
  | Some (guard', rest) =>
      if (length rest =? 0)%nat then Some (h', guard')
      else None (* panic("alloc too large") *)
  end.

(** *** Manager *)

Record scopedManager : Type :=
  { readSet : latchList;
    trees : SpanAccess -> btree }.

(** [mu] is [true] while the mutex is held. *)
Record Manager : Type :=
  { mu : bool;
    idAlloc : Z;
    scopes : SpanScope -> scopedManager }.

Definition zeroManager : Manager :=
  {| mu := false; idAlloc := 0;
     scopes := fun _ => {| readSet := []; trees := fun _ => emptyTree |} |}.

Definition setScope (m : Manager) (s : SpanScope) (sm : scopedManager) : Manager :=
  {| mu := mu m; idAlloc := idAlloc m; scopes := <[s := sm]> (scopes m) |}.

Definition Lock (m : Manager) : Manager :=
  {| mu := true; idAlloc := idAlloc m; scopes := scopes m |}.
Definition Unlock (m : Manager) : Manager :=
  {| mu := false; idAlloc := idAlloc m; scopes := scopes m |}.

Record snapshot : Type :=
  { snapTrees : SpanScope -> SpanAccess -> btree }.

Definition zeroSnapshot : snapshot :=
  {| snapTrees := fun _ _ => emptyTree |}.

Definition setSnapTree (sn : snapshot) (s : SpanScope) (a : SpanAccess)
    (t : btree) : snapshot :=
  {| snapTrees := <[s := <[a := t]> (snapTrees sn s)]> (snapTrees sn) |}.

(** [snapshot.close] resets every tree of the snapshot. *)
Definition close (sn : snapshot) : snapshot := zeroSnapshot.

(** [flushReadSetLocked]: the loop runs while the read set is not
    empty; every round unlinks its front, so [len] rounds are enough. *)
Fixpoint flushLoop (rounds : nat) (sm : scopedManager) : scopedManager :=
  match rounds with
  | O => sm
  | S rounds' =>
      match front (readSet sm) with
      | None => sm
      | Some la =>
          flushLoop rounds'
            {| readSet := remove (readSet sm) la;
               trees := <[SpanReadOnly := Set_ (trees sm SpanReadOnly) la]> (trees sm) |}
      end
  end.

Definition flushReadSetLocked (sm : scopedManager) : scopedManager :=
  flushLoop (len (readSet sm)) sm.

(** The body of the loop of [snapshotLocked] for scope [s]. *)
Definition snapshotScope (ss : SpanSet) (st : Manager * snapshot)
    (s : SpanScope) : Manager * snapshot :=
  let '(m, snap) := st in
  let sm := scopes m s in
  let reading := (0 <? length (GetSpans ss SpanReadOnly s))%nat in
  let writing := (0 <? length (GetSpans ss SpanReadWrite s))%nat in
  let '(sm1, snap1) :=
    if writing then
      let sm' := flushReadSetLocked sm in
      (sm', setSnapTree snap s SpanReadOnly (Clone (trees sm' SpanReadOnly)))
    else (sm, snap) in
  let snap2 :=
    if writing || reading then
      setSnapTree snap1 s SpanReadWrite (Clone (trees sm1 SpanReadWrite))
    else snap1 in
  (setScope m s sm1, snap2).

Definition snapshotLocked (m : Manager) (ss : SpanSet) : Manager * snapshot :=
  foldl (snapshotScope ss) (m, zeroSnapshot) allScopes.

Definition nextID (m : Manager) : Manager * Z :=
  let n := uint64 (idAlloc m + 1) in
  ({| mu := mu m; idAlloc := n; scopes := scopes m |}, n).

Definition setID (la : latch) (i : Z) : latch :=
  {| id := i; span := span la; ts := ts la; done := done la |}.

(** The body of the innermost loop of [insertLocked]: the latch gets
    its id and is linked in.  The second component collects the
    latches of the guard as they are after the assignment. *)
Definition insertLatch (s : SpanScope) (a : SpanAccess)
    (st : Manager * list latch) (la : latch) : Manager * list latch :=
  let '(m, seen) := st in
  let '(m1, i) := nextID m in
  let la' := setID la i in
  let sm := scopes m1 s in
  let sm' :=
    match a with
    | SpanReadOnly =>
        {| readSet := pushBack (readSet sm) la'; trees := trees sm |}
    | SpanReadWrite =>
        {| readSet := readSet sm;
           trees := <[SpanReadWrite := Set_ (trees sm SpanReadWrite) la']> (trees sm) |}
    end in
  (setScope m1 s sm', seen ++ [la']).

Definition insertAccess (s : SpanScope) (st : Manager * Guard)
    (a : SpanAccess) : Manager * Guard :=
  let '(m, lg) := st in
  let '(m', ls') := foldl (insertLatch s a) (m, []) (latches lg s a) in
  (m', setLatches lg s a ls').

Definition insertLocked (m : Manager) (lg : Guard) : Manager * Guard :=
  foldl (fun st s => foldl (insertAccess s) st allAccesses) (m, lg) allScopes.

(** [sequence]: [None] is the panic of [newGuard]. *)
Definition sequence (h : heap) (m : Manager) (ss : SpanSet) (ts : Timestamp)
  : option (heap * Manager * Guard * snapshot) :=
  match newGuard h ss ts with
  | None => None
  | Some (h', lg) =>
      let m1 := Lock m in
      let '(m2, snap) := snapshotLocked m1 ss in
      let '(m3, lg') := insertLocked m2 lg in
      let m4 := Unlock m3 in
      Some (h', m4, lg', snap)
  end.

(** *** Waiting *)

(** The errors a context can report. *)
Inductive error : Type := Canceled | DeadlineExceeded.

(** What the goroutine cannot decide: which case of the [select] in
    [iterAndWait] is taken for a latch that is waited on ([true]: the
    latch's signal fires, [false]: the context is done first), and the
    error the context then reports. *)
Record env : Type :=
  { latchFirst : sigptr -> bool;
    ctxErr : error }.

(** The state of a wait: the heap, and the latches whose channel the
    goroutine has blocked on so far, the latest first. *)
Record waitState : Type := { wheap : heap; blockedOn : list latch }.

(** The loop of [iterAndWait] over the latches the iterator visits. *)
Fixpoint iterLoop (e : env) (ts : Timestamp) (ignore : ignoreFn)
    (visit : list latch) (st : waitState) : waitState * option error :=
  match visit with
  | [] => (st, None)
  | la :: rest =>
      if signaled (wheap st) (done la) then iterLoop e ts ignore rest st
      else if ignore ts (spanlatch.ts la) then iterLoop e ts ignore rest st
      else
        let st' := {| wheap := wheap st; blockedOn := la :: blockedOn st |} in
        if latchFirst e (done la) then
          iterLoop e ts ignore rest
            {| wheap := signal (wheap st') (done la); blockedOn := blockedOn st' |}
        else (st', Some (ctxErr e))
  end.

Definition iterAndWait (e : env) (it : btree) (search : latch)
    (ts : Timestamp) (ignore : ignoreFn) (st : waitState)
  : waitState * option error :=
  iterLoop e ts ignore (overlapping it search) st.

(** The body of the loop of [wait] over the latches of one scope and
    access; [tr] is the snapshot of that scope. *)
Definition waitLatch (e : env) (ts : Timestamp) (tr : SpanAccess -> btree)
    (a : SpanAccess) (la : latch) (st : waitState) : waitState * option error :=
  match a with
  | SpanReadOnly =>
      iterAndWait e (tr SpanReadWrite) la ts ignoreLater st
  | SpanReadWrite =>
      match iterAndWait e (tr SpanReadWrite) la ts ignoreNothing st with
      | (st', Some err) => (st', Some err)
      | (st', None) => iterAndWait e (tr SpanReadOnly) la ts ignoreEarlier st'
      end
  end.

(** A loop that returns at the first error. *)
Fixpoint forEach {A : Type} (body : A -> waitState -> waitState * option error)
    (l : list A) (st : waitState) : waitState * option error :=
  match l with
  | [] => (st, None)
  | x :: rest =>
      match body x st with
      | (st', Some err) => (st', Some err)
      | (st', None) => forEach body rest st'
      end
  end.

Definition wait (e : env) (lg : Guard) (ts : Timestamp) (snap : snapshot)
    (st : waitState) : waitState * option error :=
  forEach (fun s =>
    forEach (fun a =>
      forEach (waitLatch e ts (snapTrees snap s) a) (latches lg s a))
      allAccesses)
    allScopes st.

(** *** Release *)

Definition removeLatch (s : SpanScope) (a : SpanAccess) (m : Manager)
    (la : latch) : Manager :=
  let sm := scopes m s in
  let sm' :=
    if inReadSet (readSet sm) la then
      {| readSet := remove (readSet sm) la; trees := trees sm |}
    else
      {| readSet := readSet sm; trees := <[a := Delete (trees sm a) la]> (trees sm) |} in
  setScope m s sm'.

Definition removeLocked (m : Manager) (lg : Guard) : Manager :=
  foldl (fun m s =>
           foldl (fun m a => foldl (removeLatch s a) m (latches lg s a))
                 m allAccesses)
        m allScopes.

Definition Release (h : heap) (m : Manager) (lg : Guard) : heap * Manager :=
  let h' := signal h (gdone lg) in
  (h', Unlock (removeLocked (Lock m) lg)).

(** *** Acquire *)

(** The result of [Acquire]: a guard or nil, and an error or nil. *)
Definition acquired : Type := option Guard * option error.

(** [Acquire].  The manager is shared: [others] is what the critical
    sections of other goroutines have made of it by the time the wait
    is over.  [None] is the panic of [newGuard]; the last component is
    the list of latches the call blocked on. *)
Definition Acquire (e : env) (others : Manager -> Manager) (h : heap)
    (m : Manager) (ss : SpanSet) (ts : Timestamp)
  : option (heap * Manager * acquired * list latch) :=
  match sequence h m ss ts with
  | None => None
  | Some (h1, m1, lg, snap) =>
      let '(st, err) := wait e lg ts snap {| wheap := h1; blockedOn := [] |} in
      match err with
      | Some er =>
          let '(h2, m2) := Release (wheap st) (others m1) lg in
          Some (h2, m2, (None, Some er), blockedOn st)
      | None => Some (wheap st, others m1, (Some lg, None), blockedOn st)
      end
  end.

(** *** Vocabulary of the properties below *)

(** The latch [newGuard] prepares for a span of scope [s]. *)
Definition preparedLatch (p : sigptr) (ts : Timestamp) (s : SpanScope)
    (sp : Span) : latch :=
  {| id := 0; span := sp; ts := ifGlobal ts s; done := p |}.

(** [waitedFor ign visit st st' err]: going from [st] to [st'] with
    result [err], the goroutine blocked only on latches of [visit]
    that were not yet signaled and that [ign] does not ignore; the only
    signals that fired meanwhile are those of latches it blocked on;
    and if there was no error, every latch of [visit] that [ign] does
    not ignore has been released. *)
Definition waitedFor (ign : latch -> bool) (visit : list latch)
    (st st' : waitState) (err : option error) : Prop :=
  exists new,
    blockedOn st' = new ++ blockedOn st
    /\ Forall (fun w => w ∈ visit
                        /\ signaled (wheap st) (done w) = false
                        /\ ign w = false) new
    /\ fired (wheap st) ⊆ fired (wheap st')
    /\ (forall p, p ∈ fired (wheap st') ->
                  p ∈ fired (wheap st) \/ exists w, w ∈ new /\ done w = p)
    /\ (err = None ->
        forall w, w ∈ visit -> ign w = false -> done w ∈ fired (wheap st')).

(** [onlyUnsignaled st st']: going from [st] to [st'], the goroutine
    blocked only on latches whose signal had not fired in [st], and no
    signal was lost. *)
Definition onlyUnsignaled (st st' : waitState) : Prop :=
  exists new,
    blockedOn st' = new ++ blockedOn st
    /\ Forall (fun w => signaled (wheap st) (done w) = false) new
    /\ fired (wheap st) ⊆ fired (wheap st').

(** The read-only tree of a scope once its read set has been flushed
    into it. *)
Definition flushed (sm : scopedManager) : btree :=
  foldl Set_ (trees sm SpanReadOnly) (readSet sm).

(** The latches of a slice after [insertLocked] has numbered them,
    when the counter stood at [start] before the first of them. *)
Definition assignIDs (start : Z) (ls : list latch) : list latch :=
  imap (fun i la => setID la (uint64 (start + Z.of_nat i + 1))) ls.

(** The number of spans declared for the scopes and accesses that the
    loops visit before scope [s] and access [a]. *)
Definition latchesBefore (ss : SpanSet) (s : SpanScope) (a : SpanAccess) : nat :=
  match s, a with
  | SpanGlobal, SpanReadOnly => 0
  | SpanGlobal, SpanReadWrite => length (GetSpans ss SpanReadOnly SpanGlobal)
  | SpanLocal, SpanReadOnly =>
      length (GetSpans ss SpanReadOnly SpanGlobal)
      + length (GetSpans ss SpanReadWrite SpanGlobal)
  | SpanLocal, SpanReadWrite =>
      length (GetSpans ss SpanReadOnly SpanGlobal)
      + length (GetSpans ss SpanReadWrite SpanGlobal)
      + length (GetSpans ss SpanReadOnly SpanLocal)
  end%nat.

(** The values of a [uint64]. *)
Definition inRange64 (x : Z) : Prop := 0 <= x < 2 ^ 64.

(** Every latch the manager holds was numbered by the manager: its id
    is positive and at most [idAlloc], and a tree files it under its
    own key. *)
Definition idsBounded (m : Manager) : Prop :=
  forall s,
    (forall la, la ∈ readSet (scopes m s) -> 0 < id la <= idAlloc m)
    /\ (forall a k la, trees (scopes m s) a !! k = Some la ->
                       k = keyOf la /\ 0 < id la <= idAlloc m).

(** A latch of the guard is linked at most once: the read set of a
    scope has no latch twice, and a latch of the guard that is in the
    read set is not in the tree of its access as well. *)
Definition linkedOnce (m : Manager) (lg : Guard) : Prop :=
  forall s,
    NoDup (readSet (scopes m s))
    /\ (forall a la, la ∈ latches lg s a -> la ∈ readSet (scopes m s) ->
                     trees (scopes m s) a !! keyOf la = None).

(** The latches of a guard with their scope and access, in the order
    in which the loops over scopes and accesses visit them. *)
Definition guardLatches (lg : Guard) : list (SpanScope * SpanAccess * latch) :=
  s ← allScopes; a ← allAccesses; (fun la => (s, a, la)) <$> latches lg s a.

(** The latch is linked neither into the read set of scope [s] nor
    into the tree of access [a] of that scope. *)
Definition unlinked (m : Manager) (s : SpanScope) (a : SpanAccess)
    (la : latch) : Prop :=
  (la ∉ readSet (scopes m s)) /\ trees (scopes m s) a !! keyOf la = None.

(** [m'] holds no latch that [m] does not hold. *)
Definition shrinks (m m' : Manager) : Prop :=
  forall s,
    (forall x, x ∈ readSet (scopes m' s) -> x ∈ readSet (scopes m s))
    /\ (NoDup (readSet (scopes m s)) -> NoDup (readSet (scopes m' s)))
    /\ (forall a k, trees (scopes m s) a !! k = None ->
                    trees (scopes m' s) a !! k = None).

(** The manager holds the latch [w] in scope [s]: in the read set or in
    one of the two trees. *)
Definition holds (m : Manager) (s : SpanScope) (w : latch) : Prop :=
  w ∈ readSet (scopes m s) \/ exists a k, trees (scopes m s) a !! k = Some w.

(** [accounted st st']: going from [st] to [st'], no signal is lost,
    and a signal that fired meanwhile is the signal of a latch the
    goroutine blocked on meanwhile. *)
Definition accounted (st st' : waitState) : Prop :=
  exists new,
    blockedOn st' = new ++ blockedOn st
    /\ fired (wheap st) ⊆ fired (wheap st')
    /\ (forall p, p ∈ fired (wheap st') ->
                  p ∈ fired (wheap st) \/ exists w, w ∈ new /\ done w = p).

(** What the wait for the latch [la] of scope [s] and access [a] has
    seen when it is over: the signal of every overlapping latch of the
    snapshot that the timestamps do not let it ignore. *)
Definition released (snap : snapshot) (ts : Timestamp) (s : SpanScope)
    (a : SpanAccess) (la : latch) (st : waitState) : Prop :=
  match a with
  | SpanReadOnly =>
      forall w, w ∈ overlapping (snapTrees snap s SpanReadWrite) la ->
                ignoreLater ts (spanlatch.ts w) = false ->
                done w ∈ fired (wheap st)
  | SpanReadWrite =>
      (forall w, w ∈ overlapping (snapTrees snap s SpanReadWrite) la ->
                 done w ∈ fired (wheap st))
      /\ (forall w, w ∈ overlapping (snapTrees snap s SpanReadOnly) la ->
                    ignoreEarlier ts (spanlatch.ts w) = false ->
                    done w ∈ fired (wheap st))
  end.

(** [m'] holds every latch of [m] that is not in [gone]: those of the
    read sets other than the latches of [gone] of that scope, and those
    of the trees under other keys than theirs. *)
Definition keepsBut (gone : list (SpanScope * SpanAccess * latch))
    (m m' : Manager) : Prop :=
  (forall s x, x ∈ readSet (scopes m s) ->
               (forall a, (s, a, x) ∉ gone) ->
               x ∈ readSet (scopes m' s))
  /\ (forall s a k x, trees (scopes m s) a !! k = Some x ->
                      (forall la, (s, a, la) ∈ gone -> keyOf la <> k) ->
                      trees (scopes m' s) a !! k = Some x).

(** [blockedWithin V st st']: the latches the goroutine has blocked on
    going from [st] to [st'] all satisfy [V]. *)
Definition blockedWithin (V : latch -> Prop) (st st' : waitState) : Prop :=
  exists new, blockedOn st' = new ++ blockedOn st /\ Forall V new.

(** The context was done while the goroutine was blocked on a latch. *)
Definition canceledWhileBlocked (e : env) (st : waitState) (er : error) : Prop :=
  er = ctxErr e
  /\ exists w rest, blockedOn st = w :: rest /\ latchFirst e (done w) = false.

End spanlatch.

(** ** Scenarios of the latch manager

    Scenario L1 of the specification: a first acquisition writes
    [[k1, k5)] at timestamp 10 and holds its latch; a second one writes
    [[k3, k7)] at timestamp 10 and has to wait for it. *)

Module spanlatch_examples.
Import hlc roachpb spanset spanlatch.

Definition ts10 : Timestamp := {| WallTime := 10; Logical := 0 |}.
Definition ts5 : Timestamp := {| WallTime := 5; Logical := 0 |}.

Definition spanA : Span := {| Key := "k1"; EndKey := "k5" |}.
Definition spanB : Span := {| Key := "k3"; EndKey := "k7" |}.

(** A span set that declares one span, with access [a] in scope [s]. *)
Definition oneSpan (a : SpanAccess) (s : SpanScope) (sp : Span) : SpanSet :=
  {| spans := fun a' s' =>
       if decide (a' = a /\ s' = s) then [sp] else [] |}.

Definition heap0 : heap := {| nextAddr := 1; fired := ∅ |}.

(** The context is done before any latch is released. *)
Definition envCancel : env :=
  {| latchFirst := fun _ => false; ctxErr := Canceled |}.

(** Every latch that is waited on is released before the context is
    done. *)
Definition envRelease : env :=
  {| latchFirst := fun _ => true; ctxErr := Canceled |}.

(** The heap and the manager once the first acquisition of scope [s]
    has been sequenced. *)
Definition held (s : SpanScope) : heap * Manager :=
  match sequence heap0 zeroManager (oneSpan SpanReadWrite s spanA) ts10 with
  | Some (h, m, _, _) => (h, m)
  | None => (heap0, zeroManager)
  end.

End spanlatch_examples.

(** ** Collaborators of the hash joiner that live in other packages *)

(** The outcome of a call that can panic.  [OutOfFuel] is not an outcome
    of the program: it marks a run of the model that was given too few
    rounds for one of the loops whose bound the sources do not show. *)
Inductive res (A : Type) : Type :=
  | Ok (a : A)
  | Panic
  | OutOfFuel.
Arguments Ok {A} a.
Arguments Panic {A}.
Arguments OutOfFuel {A}.

#[global] Instance res_ret : MRet res := fun A a => Ok a.
#[global] Instance res_bind : MBind res := fun A B f m =>
  match m with
  | Ok a => f a
  | Panic => Panic
  | OutOfFuel => OutOfFuel
  end.

(** [l[i]]: an index out of range panics. *)
Definition getAt {A : Type} (l : list A) (i : Z) : res A :=
  if (i <? 0)%Z then Panic
  else match l !! Z.to_nat i with
       | Some x => Ok x
       | None => Panic
       end.

(** [l[i] = x]: an index out of range panics. *)
Definition setAt {A : Type} (l : list A) (i : Z) (x : A) : res (list A) :=
  if ((0 <=? i) && (i <? Z.of_nat (length l)))%Z
  then Ok (<[Z.to_nat i := x]> l)
  else Panic.

(** [l[lo:hi]]: bounds out of order or out of range panic. *)
Definition sliceOf {A : Type} (l : list A) (lo hi : nat) : res (list A) :=
  if ((lo <=? hi) && (hi <=? length l))%nat
  then Ok (take (hi - lo) (drop lo l))
  else Panic.

(** A loop over a list in a state that can panic. *)
Fixpoint forM {A S : Type} (body : S -> A -> res S) (l : list A) (st : S)
  : res S :=
  match l with
  | [] => Ok st
  | x :: rest => st' ← body st x; forM body rest st'
  end.

Module coltypes.
(** Modelled from the spec: the type of a column ([coltypes.T] is not
    among the sources); only the identity of a type matters here. *)
Definition T : Type := N.
End coltypes.

Module sqlbase.
(** Modelled from the spec: the join types.  The specification names
    the six that the hash joiner supports; the enumeration of package
    [sqlbase] (not among the sources) has the two set operations as
    well, which the hash joiner rejects. *)
Inductive JoinType : Type :=
  | JoinType_INNER
  | JoinType_LEFT_OUTER
  | JoinType_RIGHT_OUTER
  | JoinType_FULL_OUTER
  | JoinType_LEFT_SEMI
  | JoinType_LEFT_ANTI
  | JoinType_INTERSECT_ALL
  | JoinType_EXCEPT_ALL.

#[global] Instance JoinType_eq_dec : EqDecision JoinType.
Proof. solve_decision. Defined.
End sqlbase.

Module coldata.

(** Modelled from the spec: [coldata.BatchSize()], the process-wide
    bound [B] on the rows of a batch, "e.g. 1024". *)
Definition BatchSize : Z := 1024.

(** Modelled from the spec: the null bitmap of a column vector, with
    [SetNull] and [SetNulls] (package [coldata] is not among the
    sources).  A bitmap tells for every row position whether the value
    is null. *)
Definition Nulls : Type := nat -> bool.

Definition noNulls : Nulls := fun _ => false.
Definition NullAt (n : Nulls) (i : nat) : bool := n i.
Definition SetNull (n : Nulls) (i : Z) : Nulls :=
  fun j => if decide (j = Z.to_nat i) then true else n j.
Definition SetNulls (n : Nulls) : Nulls := fun _ => true.

(** Modelled from the spec: a column vector, "a dense typed array plus
    a null bitmap". *)
Record Vec : Type := { values : list Z; nulls : Nulls }.

Definition withNulls (v : Vec) (n : Nulls) : Vec :=
  {| values := values v; nulls := n |}.

(** Modelled from the spec: the arguments of [Copy].  [Sel] is the
    16-bit selection (rows of a batch), [Sel64] the 64-bit one (rows of
    the build table); the source rows are those before [SrcEndIdx]. *)
Record SliceArgs : Type :=
  { ColType : coltypes.T; Src : Vec; Sel : option (list Z); SrcEndIdx : Z }.
Record CopySliceArgs : Type :=
  { args : SliceArgs; Sel64 : option (list Z) }.

(** Modelled from the spec: a batch, "a parallel array of typed column
    vectors, a nullable selection vector of row indices, and a length". *)
Record Batch : Type :=
  { length_ : Z; colVecs : list Vec; selection : option (list Z) }.

Definition Length (b : Batch) : Z := length_ b.
Definition SetLength (b : Batch) (n : Z) : Batch :=
  {| length_ := n; colVecs := colVecs b; selection := selection b |}.
Definition ColVecs (b : Batch) : list Vec := colVecs b.
Definition ColVec (b : Batch) (i : Z) : res Vec := getAt (colVecs b) i.
Definition Selection (b : Batch) : option (list Z) := selection b.
Definition withColVecs (b : Batch) (cs : list Vec) : Batch :=
  {| length_ := length_ b; colVecs := cs; selection := selection b |}.

(** The batch an exhausted source returns. *)
Definition zeroBatch : Batch :=
  {| length_ := 0; colVecs := []; selection := None |}.

End coldata.

(** ** Package colexec: the hash joiner *)

Module colexec.
Import coldata sqlbase.

(** [hashJoinerState].  The type is an [int] in the sources; the three
    constants are its only values in use, and the [default] branch of
    [Next], which panics, is for the others. *)
Inductive hashJoinerState : Type :=
  | hjBuilding
  | hjProbing
  | hjEmittingUnmatched.

(** Modelled from the spec: an upstream [Operator] (the interface is
    not among the sources), as the batches it has yet to return.  An
    exhausted source returns a batch of length zero. *)
Definition Operator : Type := list Batch.

Definition sourceNext (o : Operator) : Batch * Operator :=
  match o with
  | [] => (zeroBatch, [])
  | b :: rest => (b, rest)
  end.

(** [hashJoinerSourceSpec].  The field [source] is a pointer to the
    input operator, which the [twoInputNode] of the joiner holds as
    well; the operator itself is kept there. *)
Record hashJoinerSourceSpec : Type :=
  { eqCols : list Z;
    outCols : list Z;
    sourceTypes : list coltypes.T;
    outer : bool }.

Record hashJoinerSpec : Type :=
  { joinType : JoinType;
    left : hashJoinerSourceSpec;
    right : hashJoinerSourceSpec;
    rightDistinct : bool }.

(** Modelled from the spec: the rows of the build side, [vals], with
    their number and their columns. *)
Record bufferedBatch : Type := { vlength : Z; vcolVecs : list Vec }.

(** Modelled from the spec: the hash table (section 3 of the
    specification; its file is not among the sources).  [htOutCols]
    is the field [outCols] of the table. *)
Record hashTable : Type :=
  { first : list Z;
    next : list Z;
    same : list Z;
    visited : list bool;
    buckets : list Z;
    groupID : list Z;
    toCheck : list Z;
    differs : list bool;
    headID : list Z;
    keys : list Vec;
    vals : bufferedBatch;
    valTypes : list coltypes.T;
    keyCols : list Z;
    htOutCols : list Z }.

Definition setSame (t : hashTable) (x : list Z) : hashTable :=
  {| first := first t; next := next t; same := x; visited := visited t;
     buckets := buckets t; groupID := groupID t; toCheck := toCheck t;
     differs := differs t; headID := headID t; keys := keys t; vals := vals t;
     valTypes := valTypes t; keyCols := keyCols t; htOutCols := htOutCols t |}.
Definition setVisited (t : hashTable) (x : list bool) : hashTable :=
  {| first := first t; next := next t; same := same t; visited := x;
     buckets := buckets t; groupID := groupID t; toCheck := toCheck t;
     differs := differs t; headID := headID t; keys := keys t; vals := vals t;
     valTypes := valTypes t; keyCols := keyCols t; htOutCols := htOutCols t |}.
Definition setGroupID (t : hashTable) (x : list Z) : hashTable :=
  {| first := first t; next := next t; same := same t; visited := visited t;
     buckets := buckets t; groupID := x; toCheck := toCheck t;
     differs := differs t; headID := headID t; keys := keys t; vals := vals t;
     valTypes := valTypes t; keyCols := keyCols t; htOutCols := htOutCols t |}.
Definition setToCheck (t : hashTable) (x : list Z) : hashTable :=
  {| first := first t; next := next t; same := same t; visited := visited t;
     buckets := buckets t; groupID := groupID t; toCheck := x;
     differs := differs t; headID := headID t; keys := keys t; vals := vals t;
     valTypes := valTypes t; keyCols := keyCols t; htOutCols := htOutCols t |}.
Definition setHeadID (t : hashTable) (x : list Z) : hashTable :=
  {| first := first t; next := next t; same := same t; visited := visited t;
     buckets := buckets t; groupID := groupID t; toCheck := toCheck t;
     differs := differs t; headID := x; keys := keys t; vals := vals t;
     valTypes := valTypes t; keyCols := keyCols t; htOutCols := htOutCols t |}.
Definition setKeys (t : hashTable) (x : list Vec) : hashTable :=
  {| first := first t; next := next t; same := same t; visited := visited t;
     buckets := buckets t; groupID := groupID t; toCheck := toCheck t;
     differs := differs t; headID := headID t; keys := x; vals := vals t;
     valTypes := valTypes t; keyCols := keyCols t; htOutCols := htOutCols t |}.

(** Modelled from the spec: [allocateVisited] (a method of the hash
    table, not among the sources): "allocate [visited[0..vals.length]]",
    zero-initialized. *)
Definition allocateVisited (t : hashTable) : hashTable :=
  setVisited t (replicate (Z.to_nat (vlength (vals t) + 1)) false).

(** What the joiner needs of the hash table, of the column vectors and
    of the allocator: methods and functions whose code is not among the
    sources and that no property below depends on.  [htBuild] is the
    method [build] of the table, which drains the source it is given. *)
Class Collaborators : Type :=
  { hashTableBucketSize : Z;
    newHashTable : Z -> list coltypes.T -> list Z -> list Z -> bool -> hashTable;
    htBuild : hashTable -> Operator -> res (hashTable * Operator);
    computeBuckets : hashTable -> Z -> option (list Z) -> res hashTable;
    lookupInitial : hashTable -> Z -> option (list Z) -> res hashTable;
    distinctCheck : hashTable -> Z -> option (list Z) -> res (hashTable * Z);
    check : hashTable -> Z -> option (list Z) -> res (hashTable * Z);
    findNext : hashTable -> Z -> res hashTable;
    Copy : Vec -> CopySliceArgs -> res Vec;
    NewMemBatch : list coltypes.T -> Batch;
    ResetInternalBatch : Batch -> Batch }.

(** [hashJoinProber].  The field [ht] is a pointer to the hash table of
    the joiner: the table is kept there, and the methods of the prober
    take it as an argument.  [pspec] and [poutputBatchSize] are the
    fields [spec] and [outputBatchSize] of the prober; a slice that is
    nil is the empty list. *)
Record hashJoinProber : Type :=
  { batch : Batch;
    poutputBatchSize : Z;
    buildIdx : list Z;
    probeIdx : list Z;
    probeRowUnmatched : list bool;
    buildRowMatched : list bool;
    pspec : hashJoinerSpec;
    prevBatch : option Batch;
    prevBatchResumeIdx : Z }.

Definition setBatch (p : hashJoinProber) (x : Batch) : hashJoinProber :=
  {| batch := x; poutputBatchSize := poutputBatchSize p; buildIdx := buildIdx p;
     probeIdx := probeIdx p; probeRowUnmatched := probeRowUnmatched p;
     buildRowMatched := buildRowMatched p; pspec := pspec p;
     prevBatch := prevBatch p; prevBatchResumeIdx := prevBatchResumeIdx p |}.
Definition setBuildIdx (p : hashJoinProber) (x : list Z) : hashJoinProber :=
  {| batch := batch p; poutputBatchSize := poutputBatchSize p; buildIdx := x;
     probeIdx := probeIdx p; probeRowUnmatched := probeRowUnmatched p;
     buildRowMatched := buildRowMatched p; pspec := pspec p;
     prevBatch := prevBatch p; prevBatchResumeIdx := prevBatchResumeIdx p |}.
Definition setProbeIdx (p : hashJoinProber) (x : list Z) : hashJoinProber :=
  {| batch := batch p; poutputBatchSize := poutputBatchSize p; buildIdx := buildIdx p;
     probeIdx := x; probeRowUnmatched := probeRowUnmatched p;
     buildRowMatched := buildRowMatched p; pspec := pspec p;
     prevBatch := prevBatch p; prevBatchResumeIdx := prevBatchResumeIdx p |}.
Definition setProbeRowUnmatched (p : hashJoinProber) (x : list bool) : hashJoinProber :=
  {| batch := batch p; poutputBatchSize := poutputBatchSize p; buildIdx := buildIdx p;
     probeIdx := probeIdx p; probeRowUnmatched := x;
     buildRowMatched := buildRowMatched p; pspec := pspec p;
     prevBatch := prevBatch p; prevBatchResumeIdx := prevBatchResumeIdx p |}.
Definition setBuildRowMatched (p : hashJoinProber) (x : list bool) : hashJoinProber :=
  {| batch := batch p; poutputBatchSize := poutputBatchSize p; buildIdx := buildIdx p;
     probeIdx := probeIdx p; probeRowUnmatched := probeRowUnmatched p;
     buildRowMatched := x; pspec := pspec p;
     prevBatch := prevBatch p; prevBatchResumeIdx := prevBatchResumeIdx p |}.
Definition setPrevBatch (p : hashJoinProber) (x : option Batch) : hashJoinProber :=
  {| batch := batch p; poutputBatchSize := poutputBatchSize p; buildIdx := buildIdx p;
     probeIdx := probeIdx p; probeRowUnmatched := probeRowUnmatched p;
     buildRowMatched := buildRowMatched p; pspec := pspec p;
     prevBatch := x; prevBatchResumeIdx := prevBatchResumeIdx p |}.
Definition setPrevBatchResumeIdx (p : hashJoinProber) (x : Z) : hashJoinProber :=
  {| batch := batch p; poutputBatchSize := poutputBatchSize p; buildIdx := buildIdx p;
     probeIdx := probeIdx p; probeRowUnmatched := probeRowUnmatched p;
     buildRowMatched := buildRowMatched p; pspec := pspec p;
     prevBatch := prevBatch p; prevBatchResumeIdx := x |}.

(** [hashJoinEqOp].  [inputOne] and [inputTwo] are the two inputs of the
    [twoInputNode], the left and the right source; [ht] and [prober] are
    nil until [Init]; [rowIdx] is [emittingUnmatchedState.rowIdx]. *)
Record hashJoinEqOp : Type :=
  { inputOne : Operator;
    inputTwo : Operator;
    spec : hashJoinerSpec;
    ht : option hashTable;
    prober : option hashJoinProber;
    runningState : hashJoinerState;
    outputBatchSize : Z;
    rowIdx : Z }.

Definition setProber (hj : hashJoinEqOp) (x : option hashJoinProber) : hashJoinEqOp :=
  {| inputOne := inputOne hj; inputTwo := inputTwo hj; spec := spec hj; ht := ht hj;
     prober := x; runningState := runningState hj;
     outputBatchSize := outputBatchSize hj; rowIdx := rowIdx hj |}.
Definition setHt (hj : hashJoinEqOp) (x : option hashTable) : hashJoinEqOp :=
  {| inputOne := inputOne hj; inputTwo := inputTwo hj; spec := spec hj; ht := x;
     prober := prober hj; runningState := runningState hj;
     outputBatchSize := outputBatchSize hj; rowIdx := rowIdx hj |}.
Definition setRunningState (hj : hashJoinEqOp) (x : hashJoinerState) : hashJoinEqOp :=
  {| inputOne := inputOne hj; inputTwo := inputTwo hj; spec := spec hj; ht := ht hj;
     prober := prober hj; runningState := x;
     outputBatchSize := outputBatchSize hj; rowIdx := rowIdx hj |}.
Definition setInputOne (hj : hashJoinEqOp) (x : Operator) : hashJoinEqOp :=
  {| inputOne := x; inputTwo := inputTwo hj; spec := spec hj; ht := ht hj;
     prober := prober hj; runningState := runningState hj;
     outputBatchSize := outputBatchSize hj; rowIdx := rowIdx hj |}.
Definition setInputTwo (hj : hashJoinEqOp) (x : Operator) : hashJoinEqOp :=
  {| inputOne := inputOne hj; inputTwo := x; spec := spec hj; ht := ht hj;
     prober := prober hj; runningState := runningState hj;
     outputBatchSize := outputBatchSize hj; rowIdx := rowIdx hj |}.
Definition setRowIdx (hj : hashJoinEqOp) (x : Z) : hashJoinEqOp :=
  {| inputOne := inputOne hj; inputTwo := inputTwo hj; spec := spec hj; ht := ht hj;
     prober := prober hj; runningState := runningState hj;
     outputBatchSize := outputBatchSize hj; rowIdx := x |}.

(** A nil pointer that is dereferenced panics. *)
Definition deref {A : Type} (x : option A) : res A :=
  match x with
  | Some a => Ok a
  | None => Panic
  end.

(** *** NewEqHashJoinerOp *)

(** The error of [NewEqHashJoinerOp]: "hash join of type %s not
    supported". *)
Inductive joinError : Type := notSupported (jt : JoinType).

(** [make([]uint32, n)] filled by [cols[i] = uint32(i)]. *)
Definition allColumns (n : nat) : list Z :=
  (fun i => uint32 (Z.of_nat i)) <$> seq 0 n.

Definition NewEqHashJoinerOp (leftSource rightSource : Operator)
    (leftEqCols rightEqCols : list Z) (leftTypes rightTypes : list coltypes.T)
    (rightDistinct : bool) (joinType : JoinType) : hashJoinEqOp + joinError :=
  let leftOutCols := allColumns (length leftTypes) in
  let rightOutCols := allColumns (length rightTypes) in
  let finish (leftOuter rightOuter rightDistinct : bool) (rightOutCols : list Z) :=
    let left :=
      {| eqCols := leftEqCols; outCols := leftOutCols;
         sourceTypes := leftTypes; outer := leftOuter |} in
    let right :=
      {| eqCols := rightEqCols; outCols := rightOutCols;
         sourceTypes := rightTypes; outer := rightOuter |} in
    let spec :=
      {| joinType := joinType; left := left; right := right;
         rightDistinct := rightDistinct |} in
    inl {| inputOne := leftSource; inputTwo := rightSource; spec := spec;
           ht := None; prober := None; runningState := hjBuilding;
           outputBatchSize := BatchSize; rowIdx := 0 |} in
  match joinType with
  | JoinType_INNER => finish false false rightDistinct rightOutCols
  | JoinType_RIGHT_OUTER => finish false true rightDistinct rightOutCols
  | JoinType_LEFT_OUTER => finish true false rightDistinct rightOutCols
  | JoinType_FULL_OUTER => finish true true rightDistinct rightOutCols
  | JoinType_LEFT_SEMI => finish false false true (take 0 rightOutCols)
  | JoinType_LEFT_ANTI => finish false false rightDistinct (take 0 rightOutCols)
  | _ => inr (notSupported joinType)
  end.

(** The join types [NewEqHashJoinerOp] accepts. *)
Definition supported (jt : JoinType) : bool :=
  match jt with
  | JoinType_INNER | JoinType_LEFT_OUTER | JoinType_RIGHT_OUTER
  | JoinType_FULL_OUTER | JoinType_LEFT_SEMI | JoinType_LEFT_ANTI => true
  | _ => false
  end.

(** The join types with an outer join on the build side, the right
    one: RIGHT OUTER and FULL OUTER. *)
Definition rightOuterJoin (jt : JoinType) : bool :=
  match jt with
  | JoinType_RIGHT_OUTER | JoinType_FULL_OUTER => true
  | _ => false
  end.

(** The join types whose output has no column of the right source. *)
Definition leftOnly (jt : JoinType) : bool :=
  match jt with
  | JoinType_LEFT_SEMI | JoinType_LEFT_ANTI => true
  | _ => false
  end.

(** The two loops of [newHashJoinProber] that gather the types of the
    output columns: those of the left source, then those of the right
    one. *)
Definition outColTypesOf (sp : hashJoinerSpec) : res (list coltypes.T) :=
  leftTypes ← forM (fun acc probeOutCol =>
                      t ← getAt (sourceTypes (left sp)) probeOutCol; Ok (acc ++ [t]))
                   (outCols (left sp)) [];
  forM (fun acc buildOutCol =>
          t ← getAt (sourceTypes (right sp)) buildOutCol; Ok (acc ++ [t]))
       (outCols (right sp)) leftTypes.

Section WithCollaborators.
Context `{Collaborators}.

(** *** Init *)

Definition newHashJoinProber (sp : hashJoinerSpec) (outputBatchSize : Z)
  : res hashJoinProber :=
  outColTypes ← outColTypesOf sp;
  Ok {| batch := NewMemBatch outColTypes;
        poutputBatchSize := outputBatchSize;
        buildIdx := replicate (Z.to_nat BatchSize) 0;
        probeIdx := replicate (Z.to_nat BatchSize) 0;
        probeRowUnmatched :=
          if outer (left sp) then replicate (Z.to_nat BatchSize) false else [];
        buildRowMatched := [];
        pspec := sp;
        prevBatch := None;
        prevBatchResumeIdx := 0 |}.

Definition Init (hj : hashJoinEqOp) : res hashJoinEqOp :=
  let t := newHashTable hashTableBucketSize (sourceTypes (right (spec hj)))
             (eqCols (right (spec hj))) (outCols (right (spec hj))) false in
  p ← newHashJoinProber (spec hj) (outputBatchSize hj);
  Ok (setRunningState (setProber (setHt hj (Some t)) (Some p)) hjBuilding).

(** *** build *)

Definition build (hj : hashJoinEqOp) : res hashJoinEqOp :=
  t ← deref (ht hj);
  '(t1, src) ← htBuild t (inputTwo hj);
  let t2 :=
    if negb (rightDistinct (spec hj)) then
      allocateVisited
        (setSame t1 (replicate (Z.to_nat (uint64 (vlength (vals t1) + 1))) 0))
    else t1 in
  p ← (if outer (right (spec hj)) then
         p ← deref (prober hj);
         Ok (Some (setBuildRowMatched p
                     (replicate (Z.to_nat (vlength (vals t2))) false)))
       else Ok (prober hj));
  Ok (setRunningState (setProber (setHt (setInputTwo hj src) (Some t2)) p) hjProbing).

(** *** Columns of the output batch *)

(** [f] applied to column [j] of the batch, in place. *)
Definition updCol (b : Batch) (j : Z) (f : Vec -> res Vec) : res Batch :=
  v ← ColVec b j;
  v' ← f v;
  cs ← setAt (colVecs b) j v';
  Ok (withColVecs b cs).

(** The loop [for outColIdx, inColIdx := range cols] that copies
    into the columns [outCols[outColIdx]], where [outCols] is the
    slice of the output columns from [offset] on. *)
Definition copyInto (b : Batch) (offset : Z) (cols : list Z)
    (mkArgs : Z -> res CopySliceArgs) : res Batch :=
  forM (fun b '(outColIdx, inColIdx) =>
          updCol b (offset + Z.of_nat outColIdx)
            (fun outCol => a ← mkArgs inColIdx; Copy outCol a))
       (imap (fun i c => (i, c)) cols) b.

(** *** emitUnmatched *)

(** The loop of [emitUnmatched] over the rows of the build table:
    at most [rows] of them are left. *)
Fixpoint unmatchedLoop (rows : nat) (limit vlen : Z) (matched : list bool)
    (st : list Z * Z * Z) : res (list Z * Z * Z) :=
  let '(bidx, nResults, rowIdx) := st in
  if ((nResults <? limit) && (rowIdx <? vlen))%Z then
    match rows with
    | O => OutOfFuel
    | S rows' =>
        m ← getAt matched rowIdx;
        st' ← (if negb m then
                 bidx' ← setAt bidx nResults rowIdx;
                 Ok (bidx', uint16 (nResults + 1))
               else Ok (bidx, nResults));
        unmatchedLoop rows' limit vlen matched (st'.1, st'.2, uint64 (rowIdx + 1))
    end
  else Ok st.

Definition emitUnmatched (hj : hashJoinEqOp) : res hashJoinEqOp :=
  p ← deref (prober hj);
  t ← deref (ht hj);
  b1 ← forM (fun b i =>
               updCol b (Z.of_nat i) (fun outCol => Ok (withNulls outCol (SetNulls (nulls outCol)))))
            (seq 0 (length (outCols (left (pspec p))))) (batch p);
  '(bidx, nResults, rowIdx') ←
    unmatchedLoop (Z.to_nat (vlength (vals t) - rowIdx hj))
      (outputBatchSize hj) (vlength (vals t)) (buildRowMatched p)
      (buildIdx p, 0, rowIdx hj);
  let offset := length (outCols (left (spec hj))) in
  _ ← sliceOf (ColVecs b1) offset (offset + length (htOutCols t));
  b2 ← copyInto b1 (Z.of_nat offset) (htOutCols t)
          (fun inColIdx =>
             valCol ← getAt (vcolVecs (vals t)) inColIdx;
             colType ← getAt (valTypes t) inColIdx;
             Ok {| args := {| ColType := colType; Src := valCol; Sel := None;
                              SrcEndIdx := nResults |};
                   Sel64 := Some bidx |});
  let p' := setBatch (setBuildIdx p bidx) (SetLength b2 nResults) in
  Ok (setRowIdx (setProber hj (Some p')) rowIdx').

(** *** Collection

    Modelled from the spec: [distinctCollect] and [collect], methods
    of the prober whose file is not among the sources (section 4.3,
    "Collection", with the specializations for LEFT SEMI and LEFT
    ANTI).  A pair [(probeIdx, buildIdx)] is emitted at the next free
    position of the two index arrays; the build row of key id [k] is
    row [k - 1] of [vals]; for a left outer join, [probeRowUnmatched]
    tells at each position whether the pair stands for a probe row
    without match. *)

(** The probe row that position [i] of the batch stands for. *)
Definition probeRow (sel : option (list Z)) (i : Z) : res Z :=
  match sel with
  | Some s => getAt s i
  | None => Ok i
  end.

Definition emit (p : hashJoinProber) (n row buildRow : Z) (unmatched : bool)
  : res hashJoinProber :=
  bidx ← setAt (buildIdx p) n buildRow;
  pidx ← setAt (probeIdx p) n row;
  let p' := setProbeIdx (setBuildIdx p bidx) pidx in
  if outer (left (pspec p)) then
    pru ← setAt (probeRowUnmatched p) n unmatched;
    Ok (setProbeRowUnmatched p' pru)
  else Ok p'.

(** LEFT ANTI: one output per probe row whose [headID] is 0. *)
Definition collectAnti (t : hashTable) (p : hashJoinProber) (batchSize : Z)
    (sel : option (list Z)) : res (hashJoinProber * Z) :=
  forM (fun '(p, n) i =>
          h ← getAt (headID t) i;
          if (h =? 0)%Z then
            row ← probeRow sel i; p' ← emit p n row 0 false; Ok (p', n + 1)
          else Ok (p, n))
       (seqZ 0 batchSize) (p, 0).

Definition distinctCollect (t : hashTable) (p : hashJoinProber)
    (batchSize : Z) (sel : option (list Z)) : res (hashJoinProber * Z) :=
  if decide (joinType (pspec p) = JoinType_LEFT_ANTI) then
    collectAnti t p batchSize sel
  else
    forM (fun '(p, n) i =>
            g ← getAt (groupID t) i;
            row ← probeRow sel i;
            if negb (g =? 0)%Z then
              p' ← emit p n row (g - 1) false; Ok (p', n + 1)
            else if outer (left (pspec p)) then
              p' ← emit p n row 0 true; Ok (p', n + 1)
            else Ok (p, n))
         (seqZ 0 batchSize) (p, 0).

(** The state of [collect]: the table (whose [headID] keeps the next
    match of the row being walked), the prober and the number of
    pairs emitted; [full] tells that the batch size was reached with
    matches left, so that the walk has to be resumed. *)
Record collecting : Type :=
  { cTable : hashTable; cProber : hashJoinProber; cResults : Z; full : bool }.

(** The walk along [same] from [currentID] for the row at position
    [i]; [room] is the number of pairs that still fit. *)
Fixpoint collectMatches (room : nat) (leftOuter : bool) (b : Batch) (i row : Z)
    (t : hashTable) (p : hashJoinProber) (n currentID : Z) (first : bool)
  : res collecting :=
  if (negb leftOuter || negb first) && (currentID =? 0)%Z then
    Ok {| cTable := t; cProber := p; cResults := n; full := false |}
  else
    match room with
    | O =>
        Ok {| cTable := t;
              cProber := setPrevBatchResumeIdx (setPrevBatch p (Some b)) i;
              cResults := n; full := true |}
    | S room' =>
        p' ← emit p n row (if (0 <? currentID)%Z then currentID - 1 else 0)
               (currentID =? 0)%Z;
        nextID ← getAt (same t) currentID;
        hd ← setAt (headID t) i nextID;
        collectMatches room' leftOuter b i row (setHeadID t hd) p' (n + 1)
          nextID false
    end.

Definition collect (t : hashTable) (p : hashJoinProber) (b : Batch)
    (batchSize : Z) (sel : option (list Z))
  : res (hashTable * hashJoinProber * Z) :=
  if decide (joinType (pspec p) = JoinType_LEFT_ANTI) then
    '(p', n) ← collectAnti t p batchSize sel; Ok (t, p', n)
  else
    c ← forM (fun c i =>
                if full c then Ok c
                else
                  currentID ← getAt (headID (cTable c)) i;
                  row ← probeRow sel i;
                  collectMatches
                    (Z.to_nat (poutputBatchSize (cProber c) - cResults c))
                    (outer (left (pspec (cProber c)))) b i row
                    (cTable c) (cProber c) (cResults c) currentID true)
             (seqZ (prevBatchResumeIdx p) (batchSize - prevBatchResumeIdx p))
             {| cTable := t; cProber := p; cResults := 0; full := false |};
    Ok (cTable c, cProber c, cResults c).

(** *** congregate *)

(** The loop that marks the build rows of the first [nResults]
    pairs as matched; with [skipUnmatched] the pairs that stand for
    an unmatched probe row are left out. *)
Definition markMatched (skipUnmatched : bool) (p : hashJoinProber)
    (nResults : Z) : res hashJoinProber :=
  forM (fun (p : hashJoinProber) (i : Z) =>
          skip ← (if skipUnmatched then getAt (probeRowUnmatched p) i
                  else Ok false);
          if (skip : bool) then Ok p
          else
            bi ← getAt (buildIdx p) i;
            brm ← setAt (buildRowMatched p) bi true;
            Ok (setBuildRowMatched p brm))
       (seqZ 0 nResults) p.

(** The inner loop over [probeRowUnmatched] that sets the null bits
    of one column. *)
Definition setUnmatchedNulls (unmatched : list bool) (n : Nulls) : Nulls :=
  foldl (fun n '(i, isNull) =>
           if (isNull : bool) then SetNull n (uint16 (Z.of_nat i)) else n)
        n (imap (fun i x => (i, x)) unmatched).

Definition congregate (t : hashTable) (p : hashJoinProber) (nResults : Z)
    (b : Batch) (batchSize : Z) : res hashJoinProber :=
  let rightColOffset := length (outCols (left (pspec p))) in
  (* If the hash table is empty, then there is nothing to copy. *)
  b1 ← (if (0 <? vlength (vals t))%Z then
          _ ← sliceOf (ColVecs (batch p)) rightColOffset
                (rightColOffset + length (htOutCols t));
          copyInto (batch p) (Z.of_nat rightColOffset) (htOutCols t)
            (fun inColIdx =>
               valCol ← getAt (vcolVecs (vals t)) inColIdx;
               colType ← getAt (valTypes t) inColIdx;
               Ok {| args := {| ColType := colType; Src := valCol; Sel := None;
                                SrcEndIdx := nResults |};
                     Sel64 := Some (buildIdx p) |})
        else Ok (batch p));
  (* Add in the nulls we needed to set for the outer join. *)
  b2 ← (if outer (left (pspec p)) then
          forM (fun b outColIdx =>
                  updCol b (Z.of_nat (outColIdx + rightColOffset))
                    (fun outCol =>
                       Ok (withNulls outCol
                             (setUnmatchedNulls (probeRowUnmatched p) (nulls outCol)))))
               (seq 0 (length (htOutCols t))) b1
        else Ok b1);
  _ ← sliceOf (ColVecs b2) 0 (length (outCols (left (pspec p))));
  b3 ← copyInto b2 0 (outCols (left (pspec p)))
          (fun inColIdx =>
             valCol ← ColVec b inColIdx;
             colType ← getAt (sourceTypes (left (pspec p))) inColIdx;
             Ok {| args := {| ColType := colType; Src := valCol;
                              Sel := Some (probeIdx p); SrcEndIdx := nResults |};
                   Sel64 := None |});
  p1 ← (if outer (right (pspec p)) then
          markMatched (outer (left (pspec p))) p nResults
        else Ok p);
  Ok (setBatch p1 (SetLength b3 nResults)).

(** *** exec *)

(** The loop [for i, colIdx := range prober.spec.left.eqCols]. *)
Definition loadKeys (t : hashTable) (eq : list Z) (b : Batch) : res hashTable :=
  forM (fun t '(i, colIdx) =>
          v ← ColVec b colIdx;
          ks ← setAt (keys t) (Z.of_nat i) v;
          Ok (setKeys t ks))
       (imap (fun i c => (i, c)) eq) t.

(** Modelled from the spec: [zeroUint64Column], a column of zeros as
    long as a batch (the variable is not among the sources).
    [copy(headID[:batchSize], zeroUint64Column)] copies as many
    elements as the shorter of the two slices has. *)
Definition zeroHeadID (hd : list Z) (batchSize : Z) : res (list Z) :=
  dst ← sliceOf hd 0 (Z.to_nat batchSize);
  let n := Nat.min (length dst) (Z.to_nat BatchSize) in
  Ok (replicate n 0 ++ drop n hd).

(** The setup of probing for LEFT ANTI. *)
Definition antiSetup (t : hashTable) (batchSize : Z) (sel : option (list Z))
  : res (hashTable * Z) :=
  t1 ← computeBuckets t batchSize sel;
  '(t2, nToCheck) ←
    forM (fun '(t, nToCheck) i =>
            bk ← getAt (buckets t) i;
            f ← getAt (first t) bk;
            if negb (f =? 0)%Z then
              g ← setAt (groupID t) i f;
              tc ← setAt (toCheck (setGroupID t g)) nToCheck i;
              Ok (setToCheck (setGroupID t g) tc, uint16 (nToCheck + 1))
            else Ok (t, nToCheck))
         (seqZ 0 batchSize) (t1, 0);
  hd ← zeroHeadID (headID t2) batchSize;
  Ok (setHeadID t2 hd, nToCheck).

(** The loops [for nToCheck > 0] of [exec], over [distinctCheck] or
    [check].  The sources do not show how many rounds they take:
    [fuel] bounds them. *)
Fixpoint checkLoop (fuel : nat)
    (chk : hashTable -> Z -> option (list Z) -> res (hashTable * Z))
    (t : hashTable) (nToCheck : Z) (sel : option (list Z)) : res hashTable :=
  if (0 <? nToCheck)%Z then
    match fuel with
    | O => OutOfFuel
    | S fuel' =>
        '(t1, nToCheck') ← chk t nToCheck sel;
        t2 ← findNext t1 nToCheck';
        checkLoop fuel' chk t2 nToCheck' sel
    end
  else Ok t.

(** The body of the loop of [exec] for a batch that is not empty,
    up to and including [congregate]. *)
Definition probeBatch (fuel : nat) (t : hashTable) (p : hashJoinProber)
    (b : Batch) (batchSize : Z) : res (hashTable * hashJoinProber) :=
  t1 ← loadKeys t (eqCols (left (pspec p))) b;
  let sel := Selection b in
  '(t2, nToCheck) ←
    match joinType (pspec p) with
    | JoinType_LEFT_ANTI => antiSetup t1 batchSize sel
    | _ => t' ← lookupInitial t1 batchSize sel; Ok (t', batchSize)
    end;
  '(t4, p4, nResults) ←
    (if rightDistinct (pspec p) then
       t3 ← checkLoop fuel distinctCheck t2 nToCheck sel;
       '(p', n) ← distinctCollect t3 p batchSize sel;
       Ok (t3, p', n)
     else
       t3 ← checkLoop fuel check t2 nToCheck sel;
       collect t3 (setPrevBatchResumeIdx p 0) b batchSize sel);
  p5 ← congregate t4 p4 nResults b batchSize;
  Ok (t4, p5).

(** The loop of [exec] over the batches of the left source. *)
Fixpoint probeLoop (fuel : nat) (src : Operator) (t : hashTable)
    (p : hashJoinProber) : res (Operator * hashTable * hashJoinProber) :=
  match src with
  | [] => Ok ([], t, p)  (* [Next] returns the zero batch: break *)
  | b :: rest =>
      let batchSize := Length b in
      if (batchSize =? 0)%Z then Ok (rest, t, p)
      else
        '(t', p') ← probeBatch fuel t p b batchSize;
        if (0 <? Length (batch p'))%Z then Ok (rest, t', p')
        else probeLoop fuel rest t' p'
  end.

Definition exec (fuel : nat) (src : Operator) (t : hashTable)
    (p : hashJoinProber) : res (Operator * hashTable * hashJoinProber) :=
  let p0 := setBatch p (SetLength (batch p) 0) in
  match prevBatch p0 with
  | Some b =>
      let p1 := setPrevBatch p0 None in
      let batchSize := Length b in
      let sel := Selection b in
      '(t', p2, nResults) ← collect t p1 b batchSize sel;
      p3 ← congregate t' p2 nResults b batchSize;
      Ok (src, t', p3)
  | None => probeLoop fuel src t p0
  end.

(** *** Next *)

(** The loop of [Next]; [rounds] bounds the number of times it goes
    round. *)
Fixpoint nextLoop (rounds fuel : nat) (hj : hashJoinEqOp)
  : res (hashJoinEqOp * Batch) :=
  match rounds with
  | O => OutOfFuel
  | S rounds' =>
      match runningState hj with
      | hjBuilding =>
          hj' ← build hj;
          nextLoop rounds' fuel hj'
      | hjProbing =>
          p ← deref (prober hj);
          t ← deref (ht hj);
          '(src, t', p') ← exec fuel (inputOne hj) t p;
          let hj' := setProber (setHt (setInputOne hj src) (Some t')) (Some p') in
          if (Length (batch p') =? 0)%Z && outer (right (spec hj')) then
            nextLoop rounds' fuel (setRunningState hj' hjEmittingUnmatched)
          else Ok (hj', batch p')
      | hjEmittingUnmatched =>
          hj' ← emitUnmatched hj;
          p ← deref (prober hj');
          Ok (hj', batch p)
      end
  end.

(** [Next].  The loop goes round at most three times: building,
    probing, emitting. *)
Definition Next (fuel : nat) (hj : hashJoinEqOp) : res (hashJoinEqOp * Batch) :=
  p ← deref (prober hj);
  let hj0 := setProber hj (Some (setBatch p (ResetInternalBatch (batch p)))) in
  nextLoop 3 fuel hj0.

End WithCollaborators.

(** *** Vocabulary of the properties below *)

(** [p'] has the specification, the output batch size and the output
    batch of [p]. *)
Definition keeps (p p' : hashJoinProber) : Prop :=
  pspec p' = pspec p
  /\ poutputBatchSize p' = poutputBatchSize p
  /\ batch p' = batch p.

(** A batch that the prober keeps for the next call has matches left:
    the join is not LEFT ANTI, the row to resume from is a row of the
    batch, and, unless the join is left outer, [headID] has a match for
    it. *)
Definition pending (t : hashTable) (p : hashJoinProber) : Prop :=
  match prevBatch p with
  | None => True
  | Some pb =>
      joinType (pspec p) <> JoinType_LEFT_ANTI
      /\ 0 <= prevBatchResumeIdx p < Length pb
      /\ (outer (left (pspec p)) = true
          \/ exists h, headID t !! Z.to_nat (prevBatchResumeIdx p) = Some h /\ h <> 0)
  end.

(** The states of the joiner between two calls of [Next]: it has been
    initialized; the prober has the specification and the output batch
    size of the joiner; the output batch size is a positive [uint16]; the
    batches the left source has yet to return are not empty and not
    longer than it; a batch kept for the next call has matches left, and
    there is none outside the probing state; and unmatched rows are
    emitted only for an outer right side, after the left source is
    exhausted. *)
Definition wfJoiner (hj : hashJoinEqOp) : Prop :=
  (exists p t,
      prober hj = Some p /\ ht hj = Some t
      /\ pspec p = spec hj
      /\ poutputBatchSize p = outputBatchSize hj
      /\ pending t p
      /\ (runningState hj <> hjProbing -> prevBatch p = None))
  /\ 0 < outputBatchSize hj < 65536
  /\ Forall (fun b => 0 < Length b <= outputBatchSize hj) (inputOne hj)
  /\ (runningState hj = hjEmittingUnmatched ->
      inputOne hj = [] /\ outer (right (spec hj)) = true).

(** The state of [collect] between two probe rows, for the batch [b] of
    [batchSize] rows and the prober [p] it began with. *)
Definition collectingInv (b : Batch) (batchSize : Z) (p : hashJoinProber)
    (c : collecting) : Prop :=
  keeps p (cProber c)
  /\ 0 <= cResults c <= poutputBatchSize p
  /\ (if full c
      then prevBatch (cProber c) = Some b
           /\ 0 <= prevBatchResumeIdx (cProber c) < batchSize
           /\ (outer (left (pspec p)) = true
               \/ exists h, headID (cTable c) !! Z.to_nat (prevBatchResumeIdx (cProber c))
                            = Some h /\ h <> 0)
           /\ cResults c = poutputBatchSize p
      else prevBatch (cProber c) = None).

(** The stream of the joiner is at its end: the left source is
    exhausted, no batch is kept for the next call, and, if the right side
    is outer, the joiner is emitting unmatched rows and has walked over
    the whole table. *)
Definition exhausted (hj : hashJoinEqOp) : Prop :=
  inputOne hj = []
  /\ exists p t,
      prober hj = Some p /\ ht hj = Some t /\ prevBatch p = None
      /\ (outer (right (spec hj)) = true ->
          runningState hj = hjEmittingUnmatched /\ vlength (vals t) <= rowIdx hj).

(** What a call of [Next] guarantees, from a joiner in the state [hj]
    to the joiner [hj'] and the batch [b]. *)
Definition nextPost (hj hj' : hashJoinEqOp) (b : Batch) : Prop :=
  0 <= Length b <= outputBatchSize hj
  /\ outputBatchSize hj' = outputBatchSize hj
  /\ (exists p', prober hj' = Some p' /\ batch p' = b)
  /\ wfJoiner hj'
  /\ (Length b = 0 -> exhausted hj')
  /\ (exhausted hj -> Length b = 0).

(** The rows of the table from [lo] up to [hi] that
    [buildRowMatched] does not mark as matched, in their order. *)
Definition unmatchedRows (matched : list bool) (lo hi : Z) : list Z :=
  filter (fun r => matched !! Z.to_nat r = Some false) (seqZ lo (hi - lo)).

(** The pair at position [i] of the index arrays marks the build row
    [r]: it names that row, and, where unmatched probe rows are to be
    skipped, it does not stand for one. *)
Definition marks (skipUnmatched : bool) (p : hashJoinProber) (i : Z) (r : nat) : Prop :=
  buildIdx p !! Z.to_nat i = Some (Z.of_nat r)
  /\ (skipUnmatched = true -> probeRowUnmatched p !! Z.to_nat i = Some false).

(** The order of the states of the joiner. *)
Definition stateRank (s : hashJoinerState) : nat :=
  match s with
  | hjBuilding => 0
  | hjProbing => 1
  | hjEmittingUnmatched => 2
  end.

(** From [hj] to [hj'] the joiner has not gone back to an earlier
    state and is not building; it is emitting unmatched rows only if it
    was before or the right side is outer; its specification and output
    batch size are the same; the right source is the same unless [hj] was
    building; and the left source and the table are the same if [hj] was
    emitting. *)
Definition forward (hj hj' : hashJoinEqOp) : Prop :=
  (stateRank (runningState hj) <= stateRank (runningState hj'))%nat
  /\ runningState hj' <> hjBuilding
  /\ (runningState hj' = hjEmittingUnmatched ->
      runningState hj = hjEmittingUnmatched \/ outer (right (spec hj)) = true)
  /\ spec hj' = spec hj
  /\ outputBatchSize hj' = outputBatchSize hj
  /\ (runningState hj <> hjBuilding -> inputTwo hj' = inputTwo hj)
  /\ (runningState hj = hjEmittingUnmatched ->
      inputOne hj' = inputOne hj /\ ht hj' = ht hj).

End colexec.

(** ** A hash table for the scenarios

    Modelled from the spec: the hash table, the copy of column vectors
    and the allocation of batches (sections 3, 4.2, 4.3 and 6 of the
    specification; their code is not among the sources).  The properties
    of the joiner below hold for any collaborators; these are the ones
    the scenarios of the specification are run with. *)

Module reference.
Import coldata sqlbase colexec.

Definition emptyVec : Vec := {| values := []; nulls := noNulls |}.

(** [NewMemBatch]: one column per type, with room for a full batch. *)
Definition refNewMemBatch (types : list coltypes.T) : Batch :=
  {| length_ := 0;
     colVecs := (fun _ => {| values := replicate (Z.to_nat BatchSize) 0;
                             nulls := noNulls |}) <$> types;
     selection := None |}.

(** [ResetInternalBatch]: no selection, no nulls. *)
Definition refResetInternalBatch (b : Batch) : Batch :=
  {| length_ := length_ b;
     colVecs := (fun v => withNulls v noNulls) <$> colVecs b;
     selection := None |}.

(** [Copy]: a gather copy of the source rows that the selection names
    into the rows [0 .. SrcEndIdx-1] of the destination; without
    selection, a slice copy.  A null source row makes the destination
    row null. *)
Definition refCopy (dst : Vec) (a : CopySliceArgs) : res Vec :=
  let sel := match Sel64 a with
             | Some s => Some s
             | None => Sel (args a)
             end in
  forM (fun (d : Vec) (i : Z) =>
          j ← probeRow sel i;
          x ← getAt (values (Src (args a))) j;
          if NullAt (nulls (Src (args a))) (Z.to_nat j)
          then Ok (withNulls d (SetNull (nulls d) i))
          else vs ← setAt (values d) i x;
               Ok {| values := vs; nulls := nulls d |})
       (seqZ 0 (SrcEndIdx (args a))) dst.

Definition bucketCount : Z := 16.

(** A deterministic hash of a key tuple, reduced to the bucket count. *)
Definition hashTuple (key : list Z) : Z :=
  foldl (fun h v => (h * 31 + v) `mod` bucketCount) 0 key.

(** The key tuple of row [r] of the columns [cols]; [None] if one of
    its values is null, which never matches. *)
Definition tupleAt (cols : list Vec) (r : Z) : res (option (list Z)) :=
  forM (fun (acc : option (list Z)) (v : Vec) =>
          x ← getAt (values v) r;
          if NullAt (nulls v) (Z.to_nat r) then Ok None
          else Ok ((fun l => l ++ [x]) <$> acc))
       cols (Some []).

Definition refNewHashTable (bucketSize : Z) (types : list coltypes.T)
    (eqCols outCols : list Z) (allowNullEquality : bool) : hashTable :=
  {| first := replicate (Z.to_nat bucketSize) 0;
     next := [0];
     same := [];
     visited := [];
     buckets := replicate (Z.to_nat BatchSize) 0;
     groupID := replicate (Z.to_nat BatchSize) 0;
     toCheck := replicate (Z.to_nat BatchSize) 0;
     differs := replicate (Z.to_nat BatchSize) false;
     headID := replicate (Z.to_nat BatchSize) 0;
     keys := replicate (length eqCols) emptyVec;
     vals := {| vlength := 0; vcolVecs := replicate (length types) emptyVec |};
     valTypes := types;
     keyCols := eqCols;
     htOutCols := outCols |}.

Definition setVals (t : hashTable) (x : bufferedBatch) : hashTable :=
  {| first := first t; next := next t; same := same t; visited := visited t;
     buckets := buckets t; groupID := groupID t; toCheck := toCheck t;
     differs := differs t; headID := headID t; keys := keys t; vals := x;
     valTypes := valTypes t; keyCols := keyCols t; htOutCols := htOutCols t |}.
Definition setFirstNext (t : hashTable) (f n : list Z) : hashTable :=
  {| first := f; next := n; same := same t; visited := visited t;
     buckets := buckets t; groupID := groupID t; toCheck := toCheck t;
     differs := differs t; headID := headID t; keys := keys t; vals := vals t;
     valTypes := valTypes t; keyCols := keyCols t; htOutCols := htOutCols t |}.
Definition setBuckets (t : hashTable) (x : list Z) : hashTable :=
  {| first := first t; next := next t; same := same t; visited := visited t;
     buckets := x; groupID := groupID t; toCheck := toCheck t;
     differs := differs t; headID := headID t; keys := keys t; vals := vals t;
     valTypes := valTypes t; keyCols := keyCols t; htOutCols := htOutCols t |}.

(** Step 1 of the build phase: the rows of a batch are appended to
    [vals]. *)
Definition appendBatch (v : bufferedBatch) (b : Batch) : res bufferedBatch :=
  cols ← forM (fun (acc : list Vec) '(c, (dst, src)) =>
                 rows ← forM (fun (d : Vec) (i : Z) =>
                                j ← probeRow (Selection b) i;
                                x ← getAt (values src) j;
                                Ok {| values := values d ++ [x];
                                      nulls := if NullAt (nulls src) (Z.to_nat j)
                                               then SetNull (nulls d)
                                                      (Z.of_nat (length (values d)))
                                               else nulls d |})
                             (seqZ 0 (Length b)) dst;
                 Ok (acc ++ [rows]))
              (imap (fun c x => (c, x)) (zip (vcolVecs v) (ColVecs b))) [];
  Ok {| vlength := vlength v + Length b; vcolVecs := cols |}.

Fixpoint drain (v : bufferedBatch) (src : Operator) : res (bufferedBatch * Operator) :=
  match src with
  | [] => Ok (v, [])
  | b :: rest =>
      if (Length b =? 0)%Z then Ok (v, rest)
      else v' ← appendBatch v b; drain v' rest
  end.

(** The key columns of the build table. *)
Definition keyVecs (t : hashTable) : res (list Vec) :=
  forM (fun acc c => v ← getAt (vcolVecs (vals t)) c; Ok (acc ++ [v])) (keyCols t) [].

(** Step 2 of the build phase: "for each build row r with equality
    tuple E, set [next[r] = first[bucket(E)]]; [first[bucket(E)] = r+1]",
    the chain link of row [r] being kept under its key id [r+1]. *)
Definition refBuild (t : hashTable) (src : Operator) : res (hashTable * Operator) :=
  '(v, src') ← drain (vals t) src;
  let t1 := setVals t v in
  kv ← keyVecs t1;
  '(f, n) ← forM (fun '(f, n) r =>
                    tup ← tupleAt kv r;
                    match tup with
                    | None => Ok (f, n ++ [0])
                    | Some key =>
                        old ← getAt f (hashTuple key);
                        f' ← setAt f (hashTuple key) (r + 1);
                        Ok (f', n ++ [old])
                    end)
                 (seqZ 0 (vlength v)) (first t1, [0]);
  Ok (setFirstNext t1 f n, src').

Definition refComputeBuckets (t : hashTable) (batchSize : Z)
    (sel : option (list Z)) : res hashTable :=
  bk ← forM (fun bk i =>
               row ← probeRow sel i;
               tup ← tupleAt (keys t) row;
               setAt bk i (hashTuple (default [] tup)))
            (seqZ 0 batchSize) (buckets t);
  Ok (setBuckets t bk).

Definition refLookupInitial (t : hashTable) (batchSize : Z)
    (sel : option (list Z)) : res hashTable :=
  t1 ← refComputeBuckets t batchSize sel;
  forM (fun t i =>
          bk ← getAt (buckets t) i;
          f ← getAt (first t) bk;
          g ← setAt (groupID t) i f;
          h ← setAt (headID t) i 0;
          tc ← setAt (toCheck t) i i;
          Ok (setToCheck (setHeadID (setGroupID t g) h) tc))
       (seqZ 0 batchSize) t1.

(** Whether the probe row at position [i] and the build row of key id
    [keyID] have the same equality tuple. *)
Definition sameKey (t : hashTable) (sel : option (list Z)) (i keyID : Z) : res bool :=
  row ← probeRow sel i;
  probe ← tupleAt (keys t) row;
  kv ← keyVecs t;
  build ← tupleAt kv (keyID - 1);
  Ok (match probe, build with
      | Some a, Some b => bool_decide (a = b)
      | _, _ => false
      end).

(** [distinctCheck]: an entry of [toCheck] whose chain has ended is
    dropped; on a match the key id is recorded in [headID] and the entry
    is dropped; on a mismatch the entry is retained. *)
Definition refDistinctCheck (t : hashTable) (nToCheck : Z)
    (sel : option (list Z)) : res (hashTable * Z) :=
  forM (fun '(t, nDiffers) k =>
          i ← getAt (toCheck t) k;
          g ← getAt (groupID t) i;
          if (g =? 0)%Z then Ok (t, nDiffers)
          else
            eq ← sameKey t sel i g;
            if (eq : bool) then
              h ← setAt (headID t) i g; Ok (setHeadID t h, nDiffers)
            else
              tc ← setAt (toCheck t) nDiffers i; Ok (setToCheck t tc, nDiffers + 1))
       (seqZ 0 nToCheck) (t, 0).

(** [check]: as [distinctCheck], but a match whose key id has not been
    visited is threaded into the [same] chain of the first match and the
    entry is retained, so that the whole bucket chain is walked. *)
Definition refCheck (t : hashTable) (nToCheck : Z)
    (sel : option (list Z)) : res (hashTable * Z) :=
  forM (fun '(t, nDiffers) k =>
          i ← getAt (toCheck t) k;
          g ← getAt (groupID t) i;
          if (g =? 0)%Z then Ok (t, nDiffers)
          else
            eq ← sameKey t sel i g;
            '(t1, again) ←
              (if (eq : bool) then
                 h0 ← getAt (headID t) i;
                 h ← setAt (headID t) i (if (h0 =? 0)%Z then g else h0);
                 let firstID := if (h0 =? 0)%Z then g else h0 in
                 vis ← getAt (visited t) g;
                 if (vis : bool) then Ok (setHeadID t h, false)
                 else
                   v' ← setAt (visited t) g true;
                   sm ← (if (firstID =? g)%Z then Ok (same t)
                         else
                           nxt ← getAt (same t) firstID;
                           s1 ← setAt (same t) g nxt;
                           setAt s1 firstID g);
                   Ok (setSame (setVisited (setHeadID t h) v') sm, true)
               else Ok (t, true));
            if (again : bool) then
              tc ← setAt (toCheck t1) nDiffers i; Ok (setToCheck t1 tc, nDiffers + 1)
            else Ok (t1, nDiffers))
       (seqZ 0 nToCheck) (t, 0).

Definition refFindNext (t : hashTable) (nToCheck : Z) : res hashTable :=
  forM (fun t k =>
          i ← getAt (toCheck t) k;
          g ← getAt (groupID t) i;
          n ← getAt (next t) g;
          g' ← setAt (groupID t) i n;
          Ok (setGroupID t g'))
       (seqZ 0 nToCheck) t.

#[global] Instance refCollaborators : Collaborators :=
  {| hashTableBucketSize := bucketCount;
     newHashTable := refNewHashTable;
     htBuild := refBuild;
     computeBuckets := refComputeBuckets;
     lookupInitial := refLookupInitial;
     distinctCheck := refDistinctCheck;
     check := refCheck;
     findNext := refFindNext;
     Copy := refCopy;
     NewMemBatch := refNewMemBatch;
     ResetInternalBatch := refResetInternalBatch |}.

End reference.

(** ** Scenarios of the hash joiner

    The end-to-end scenarios of the specification, run with the
    collaborators of [reference].  Text values are written as numbers:
    ['a'] is 97, ['x'] is 120. *)

Module colexec_examples.
Import coldata sqlbase colexec reference.

(** A batch without selection whose columns hold the given values. *)
Definition batchOf (cols : list (list Z)) : Batch :=
  {| length_ := Z.of_nat (length (default [] (head cols)));
     colVecs := (fun vs => {| values := vs; nulls := noNulls |}) <$> cols;
     selection := None |}.

(** The columns of a batch, cut at its length; a null is [None]. *)
Definition columnsOf (b : Batch) : list (list (option Z)) :=
  (fun v => imap (fun i x => if NullAt (nulls v) i then None else Some x)
                 (take (Z.to_nat (Length b)) (values v))) <$> ColVecs b.

(** The joiner of two sources with two columns each, joined on their
    first column, after [Init]. *)
Definition joiner (l r : Operator) (rd : bool) (jt : JoinType) : res hashJoinEqOp :=
  match NewEqHashJoinerOp l r [0] [0] [1%N; 2%N] [1%N; 2%N] rd jt with
  | inl op => Init op
  | inr _ => Panic
  end.

(** The first [calls] batches that [Next] returns, as columns.  [limit],
    if given, replaces the output batch size, as the tests of the joiner
    do. *)
Fixpoint outputs (calls : nat) (hj : hashJoinEqOp) : res (list (list (list (option Z)))) :=
  match calls with
  | O => Ok []
  | S calls' =>
      '(hj', b) ← Next 100 hj;
      rest ← outputs calls' hj';
      Ok (columnsOf b :: rest)
  end.

Definition withOutputBatchSize (n : Z) (hj : hashJoinEqOp) : hashJoinEqOp :=
  {| inputOne := inputOne hj; inputTwo := inputTwo hj; spec := spec hj; ht := ht hj;
     prober := (fun p => {| batch := batch p; poutputBatchSize := n;
                            buildIdx := buildIdx p; probeIdx := probeIdx p;
                            probeRowUnmatched := probeRowUnmatched p;
                            buildRowMatched := buildRowMatched p; pspec := pspec p;
                            prevBatch := prevBatch p;
                            prevBatchResumeIdx := prevBatchResumeIdx p |}) <$> prober hj;
     runningState := runningState hj; outputBatchSize := n; rowIdx := rowIdx hj |}.

(** S2 and S6: the left source of the left outer joins. *)
Definition leftS2 : Operator := [batchOf [[1; 2]; [97; 98]]].
Definition rightS2 : Operator := [batchOf [[2]; [120]]].
Definition leftS6 : Operator := [batchOf [[1]; [97]]].

(** S3 and S4: a build side that is not distinct. *)
Definition leftS3 : Operator := [batchOf [[1]; [97]]].
Definition rightS3 : Operator := [batchOf [[1; 1; 2]; [120; 121; 122]]].
Definition rightS4 : Operator := [batchOf [[1; 1; 1]; [120; 121; 122]]].

(** The joiner of scenario S3 after [Init]: a right outer join whose
    build side has three rows. *)
Definition joinerS3 : hashJoinEqOp :=
  match joiner leftS3 rightS3 false JoinType_RIGHT_OUTER with
  | Ok hj => hj
  | _ => withOutputBatchSize 0
           {| inputOne := []; inputTwo := []; spec :=
                {| joinType := JoinType_INNER;
                   left := {| eqCols := []; outCols := []; sourceTypes := []; outer := false |};
                   right := {| eqCols := []; outCols := []; sourceTypes := []; outer := false |};
                   rightDistinct := false |};
              ht := None; prober := None; runningState := hjBuilding;
              outputBatchSize := 0; rowIdx := 0 |}
  end.

(** The same joiner after the first call of [Next], which builds the
    table and returns the two joined rows: it is in the probing state
    and its left source is exhausted. *)
Definition probedS3 : hashJoinEqOp :=
  match Next 100 joinerS3 with
  | Ok (hj, _) => hj
  | _ => joinerS3
  end.

(** S6: the left outer join with an empty build side, after [Init]. *)
Definition joinerS6 : hashJoinEqOp :=
  match joiner leftS6 [] false JoinType_LEFT_OUTER with
  | Ok hj => hj
  | _ => joinerS3
  end.

Definition batchS6 : Batch := (sourceNext leftS6).1.

Definition batchS3 : Batch := (sourceNext leftS3).1.

(** S4: the inner join whose output is split, with an output batch
    size of 2, after [Init]. *)
Definition joinerS4 : hashJoinEqOp :=
  match joiner leftS3 rightS4 false JoinType_INNER with
  | Ok hj => withOutputBatchSize 2 hj
  | _ => joinerS3
  end.

(** The steps of [Next] and [exec] on a joiner that has been
    initialized, for the batch [b] of the left source, up to the call of
    [congregate]: the table, the prober and the number of results that
    [collect] hands to it. *)
Definition collected (hj0 : hashJoinEqOp) (b : Batch)
  : res (hashTable * hashJoinProber * Z) :=
  hj ← build hj0;
  p ← deref (prober hj);
  t ← deref (ht hj);
  t1 ← loadKeys t (eqCols (left (pspec p))) b;
  t2 ← lookupInitial t1 (Length b) (Selection b);
  t3 ← checkLoop 100 check t2 (Length b) (Selection b);
  collect t3 (setPrevBatchResumeIdx p 0) b (Length b) (Selection b).

Definition collectedS6 : res (hashTable * hashJoinProber * Z) :=
  collected joinerS6 batchS6.

End colexec_examples.

(** ** Properties of the latch manager *)

Module spanlatch_facts.
Import hlc roachpb spanset spanlatch.

(** *** newGuard *)

Lemma countLatches_sum ss :
  countLatches ss =
    (length (GetSpans ss SpanReadOnly SpanGlobal)
     + length (GetSpans ss SpanReadWrite SpanGlobal)
     + length (GetSpans ss SpanReadOnly SpanLocal)
     + length (GetSpans ss SpanReadWrite SpanLocal))%nat.
Proof. unfold countLatches. simpl. lia. Qed.

Lemma allocGuardAndLatches_spec h n :
  allocGuardAndLatches h n =
    ({| nextAddr := N.succ (nextAddr h); fired := fired h |},
     newGuardAt (nextAddr h), replicate n zeroLatch).
Proof.
  unfold allocGuardAndLatches.
  repeat case_match; try reflexivity;
    match goal with
    | H : (n <=? _)%nat = true |- _ => apply Nat.leb_le in H
    end;
    rewrite take_replicate; do 3 f_equal; lia.
Qed.

Lemma newGuardStep_spec ss ts s a g k :
  latches g s a = [] ->
  exists g',
    newGuardStep ss ts s a
      (g, replicate (length (GetSpans ss a s) + k) zeroLatch)
    = Some (g', replicate k zeroLatch)
    /\ gdone g' = gdone g
    /\ latches g' s a = preparedLatch (gdone g) ts s <$> GetSpans ss a s
    /\ (forall s' a', (s', a') <> (s, a) -> latches g' s' a' = latches g s' a').
Proof.
  intros Hnil. unfold newGuardStep.
  set (sps := GetSpans ss a s).
  destruct (length sps =? 0)%nat eqn:Hz.
  - apply Nat.eqb_eq in Hz. exists g. rewrite Hz. simpl.
    repeat split; auto.
    rewrite Hnil. destruct sps; [reflexivity | discriminate].
  - apply Nat.eqb_neq in Hz.
    rewrite length_replicate.
    destruct (length sps + k <? length sps)%nat eqn:Hlt.
    { apply Nat.ltb_lt in Hlt. lia. }
    rewrite take_replicate, drop_replicate.
    replace (length sps + k - length sps)%nat with k by lia.
    rewrite Nat.min_l by lia.
    assert (Hzip : zip_with (initLatch g ts s) (replicate (length sps) zeroLatch) sps
                   = preparedLatch (gdone g) ts s <$> sps).
    { clear. induction sps as [| sp l IH]; simpl; [reflexivity |].
      f_equal. exact IH. }
    rewrite Hzip.
    eexists. split; [reflexivity |].
    split; [reflexivity |].
    split.
    + unfold latches, setLatches. simpl.
      rewrite !fn_lookup_insert. reflexivity.
    + intros s' a' Hne. unfold latches, setLatches. simpl.
      destruct (decide (s' = s)) as [-> |Hs].
      * rewrite fn_lookup_insert.
        rewrite fn_lookup_insert_ne; [reflexivity | congruence].
      * rewrite fn_lookup_insert_ne by congruence. reflexivity.
Qed.

Lemma newGuardLoop_spec ss ts h :
  exists lg,
    newGuardLoop ss ts (newGuardAt (nextAddr h), replicate (countLatches ss) zeroLatch)
    = Some (lg, [])
    /\ gdone lg = nextAddr h
    /\ forall s a, latches lg s a = preparedLatch (nextAddr h) ts s <$> GetSpans ss a s.
Proof.
  rewrite countLatches_sum. unfold newGuardLoop, allScopes, allAccesses.
  cbn [foldl mbind option_bind].
  set (g0 := newGuardAt (nextAddr h)).
  destruct (newGuardStep_spec ss ts SpanGlobal SpanReadOnly g0
              (length (GetSpans ss SpanReadWrite SpanGlobal)
               + (length (GetSpans ss SpanReadOnly SpanLocal)
                  + (length (GetSpans ss SpanReadWrite SpanLocal) + 0)))%nat)
    as (g1 & E1 & D1 & L1 & O1); [reflexivity |].
  destruct (newGuardStep_spec ss ts SpanGlobal SpanReadWrite g1
              (length (GetSpans ss SpanReadOnly SpanLocal)
               + (length (GetSpans ss SpanReadWrite SpanLocal) + 0))%nat)
    as (g2 & E2 & D2 & L2 & O2); [rewrite O1 by congruence; reflexivity |].
  destruct (newGuardStep_spec ss ts SpanLocal SpanReadOnly g2
              (length (GetSpans ss SpanReadWrite SpanLocal) + 0)%nat)
    as (g3 & E3 & D3 & L3 & O3);
    [rewrite O2, O1 by congruence; reflexivity |].
  destruct (newGuardStep_spec ss ts SpanLocal SpanReadWrite g3 0%nat)
    as (g4 & E4 & D4 & L4 & O4);
    [rewrite O3, O2, O1 by congruence; reflexivity |].
  exists g4.
  match goal with
  | |- context [replicate ?n zeroLatch] =>
      replace n with
        (length (GetSpans ss SpanReadOnly SpanGlobal)
         + (length (GetSpans ss SpanReadWrite SpanGlobal)
            + (length (GetSpans ss SpanReadOnly SpanLocal)
               + (length (GetSpans ss SpanReadWrite SpanLocal) + 0))))%nat by lia
  end.
  rewrite E1. cbn [mbind option_bind].
  rewrite E2. cbn [mbind option_bind].
  rewrite E3. cbn [mbind option_bind].
  rewrite E4.
  assert (Hd : gdone g4 = nextAddr h) by (rewrite D4, D3, D2, D1; reflexivity).
  split; [reflexivity |]. split; [exact Hd |].
  intros [] [].
  - rewrite O4, O3, O2, L1 by congruence. reflexivity.
  - rewrite O4, O3, L2, D1 by congruence. reflexivity.
  - rewrite O4, L3, D2, D1 by congruence. reflexivity.
  - rewrite L4, D3, D2, D1. reflexivity.
Qed.

(** [newGuard] always returns: the guard sits at the next free
    address and holds one prepared latch per declared span. *)
Lemma newGuard_spec h ss ts :
  exists lg,
    newGuard h ss ts
    = Some ({| nextAddr := N.succ (nextAddr h); fired := fired h |}, lg)
    /\ gdone lg = nextAddr h
    /\ forall s a, latches lg s a = preparedLatch (nextAddr h) ts s <$> GetSpans ss a s.
Proof.
  destruct (newGuardLoop_spec ss ts h) as (lg & E & D & L).
  exists lg. unfold newGuard. rewrite allocGuardAndLatches_spec, E. simpl.
  auto.
Qed.

(** C10.  For every span set, [newGuard] allocates exactly one latch
    per declared span, summed over the scopes and accesses; the loop
    hands out all of them, so the slice left at the end is empty and
    the panic "alloc too large" is never reached; and in the guard
    returned, every latch points to the guard's own [done] signal and
    there is one latch for each declared span. *)
Theorem newGuard_alloc_exact (h : heap) (ss : SpanSet) (ts : Timestamp) :
  let nLatches := countLatches ss in
  let '(h', guard, ls) := allocGuardAndLatches h nLatches in
  nLatches = (length (GetSpans ss SpanReadOnly SpanGlobal)
              + length (GetSpans ss SpanReadWrite SpanGlobal)
              + length (GetSpans ss SpanReadOnly SpanLocal)
              + length (GetSpans ss SpanReadWrite SpanLocal))%nat
  /\ length ls = nLatches
  /\ exists lg,
       newGuardLoop ss ts (guard, ls) = Some (lg, [])
       /\ newGuard h ss ts = Some (h', lg)
       /\ gdone lg = gdone guard
       /\ (forall s a, length (latches lg s a) = length (GetSpans ss a s))
       /\ (forall s a, span <$> latches lg s a = GetSpans ss a s)
       /\ (forall s a la, la ∈ latches lg s a -> done la = gdone lg).
Proof.
  cbv zeta. rewrite allocGuardAndLatches_spec.
  split; [apply countLatches_sum |].
  split; [apply length_replicate |].
  destruct (newGuardLoop_spec ss ts h) as (lg & E & D & L).
  exists lg. split; [exact E |].
  split; [unfold newGuard; rewrite allocGuardAndLatches_spec, E; reflexivity |].
  split; [exact D |].
  split; [intros s a; rewrite L; apply length_fmap |].
  split.
  - intros s a. rewrite L, <- list_fmap_compose.
    induction (GetSpans ss a s) as [| sp l IH]; simpl; [reflexivity |].
    f_equal. exact IH.
  - intros s a la Hin. rewrite L in Hin.
    apply list_elem_of_fmap in Hin as (sp & -> & _). rewrite D. reflexivity.
Qed.

(** *** Waiting *)

(** What one run of the loop of [iterAndWait] does: the latches it
    blocks on are visited latches that were neither signaled when the
    run began nor ignored; no signal is lost; a signal that fired
    during the run is the signal of a latch blocked on; and a run that
    ends without error has seen the signal of every visited latch that
    is not ignored. *)
Lemma iterLoop_spec e ts ignore visit st :
  exists new,
    blockedOn (iterLoop e ts ignore visit st).1 = new ++ blockedOn st
    /\ Forall (fun w => w ∈ visit
                        /\ signaled (wheap st) (done w) = false
                        /\ ignore ts (spanlatch.ts w) = false) new
    /\ fired (wheap st) ⊆ fired (wheap (iterLoop e ts ignore visit st).1)
    /\ (forall p, p ∈ fired (wheap (iterLoop e ts ignore visit st).1) ->
                  p ∈ fired (wheap st) \/ exists w, w ∈ new /\ done w = p)
    /\ ((iterLoop e ts ignore visit st).2 = None ->
        forall w, w ∈ visit -> ignore ts (spanlatch.ts w) = false ->
                  done w ∈ fired (wheap (iterLoop e ts ignore visit st).1)).
Proof.
  revert st. induction visit as [| la rest IH]; intros st.
  - exists []. simpl.
    split; [reflexivity |]. split; [constructor |].
    split; [reflexivity |]. split; [intros p Hp; by left |].
    intros _ w Hw. inversion Hw.
  - simpl. destruct (signaled (wheap st) (done la)) eqn:Hsig.
    { destruct (IH st) as (new & Hb & Hall & Hmono & Honly & Hdone).
      exists new.
      split; [exact Hb |].
      split.
      { eapply Forall_impl; [| exact Hall]. intros w (? & ? & ?).
        split; [by right | by split]. }
      split; [exact Hmono |]. split; [exact Honly |].
      intros Hnone w Hw Hign.
      apply elem_of_cons in Hw as [-> | Hw]; [| by apply Hdone].
      apply Hmono. unfold signaled in Hsig.
      by apply bool_decide_eq_true in Hsig. }
    destruct (ignore ts (spanlatch.ts la)) eqn:Hig.
    { destruct (IH st) as (new & Hb & Hall & Hmono & Honly & Hdone).
      exists new.
      split; [exact Hb |].
      split.
      { eapply Forall_impl; [| exact Hall]. intros w (? & ? & ?).
        split; [by right | by split]. }
      split; [exact Hmono |]. split; [exact Honly |].
      intros Hnone w Hw Hign.
      apply elem_of_cons in Hw as [-> | Hw]; [congruence | by apply Hdone]. }
    destruct (latchFirst e (done la)) eqn:Hsel.
    + set (st1 := {| wheap := signal (wheap st) (done la);
                     blockedOn := la :: blockedOn st |}).
      destruct (IH st1) as (new & Hb & Hall & Hmono & Honly & Hdone).
      exists (new ++ [la]). simpl in *.
      split; [rewrite Hb, <- app_assoc; reflexivity |].
      split.
      { apply Forall_app. split.
        - eapply Forall_impl; [| exact Hall]. intros w (Hw & Hs & Hi).
          split; [by right |]. split; [| exact Hi].
          unfold signaled in *. apply bool_decide_eq_false.
          apply bool_decide_eq_false in Hs. set_solver.
        - apply Forall_singleton. split; [by left | by split]. }
      split; [set_solver |].
      split.
      { intros p Hp. apply Honly in Hp as [Hp | (w & Hw & <-)].
        - apply elem_of_union in Hp as [Hp | Hp]; [| by left].
          apply elem_of_singleton in Hp as ->.
          right. exists la. split; [set_solver | reflexivity].
        - right. exists w. split; [set_solver | reflexivity]. }
      intros Hnone w Hw Hign.
      apply elem_of_cons in Hw as [-> | Hw]; [| by apply Hdone].
      apply Hmono. set_solver.
    + exists [la]. simpl.
      split; [reflexivity |].
      split; [apply Forall_singleton; split; [by left | by split] |].
      split; [reflexivity |].
      split; [intros p Hp; by left |].
      discriminate.
Qed.

Lemma iterAndWait_waitedFor e it search ts ignore st :
  waitedFor (fun w => ignore ts (spanlatch.ts w)) (overlapping it search) st
    (iterAndWait e it search ts ignore st).1
    (iterAndWait e it search ts ignore st).2.
Proof. unfold iterAndWait, waitedFor. apply iterLoop_spec. Qed.

Lemma waitedFor_ext ign ign' visit st st' err :
  (forall w, w ∈ visit -> ign w = ign' w) ->
  waitedFor ign visit st st' err -> waitedFor ign' visit st st' err.
Proof.
  intros Hext (new & Hb & Hall & Hmono & Honly & Hdone).
  exists new. split; [exact Hb |].
  split.
  { eapply Forall_impl; [| exact Hall]. intros w (Hw & Hs & Hi).
    split; [exact Hw |]. split; [exact Hs |]. rewrite <- Hext; auto. }
  split; [exact Hmono |]. split; [exact Honly |].
  intros Hnone w Hw Hi. apply Hdone; auto. rewrite Hext; auto.
Qed.

Lemma overlapping_lookup t search w :
  w ∈ overlapping t search -> exists k, t !! k = Some w.
Proof.
  unfold overlapping. intros Hin.
  apply list_elem_of_filter in Hin as [_ Hin].
  apply list_elem_of_fmap in Hin as ([k v] & -> & Hin).
  exists k. by apply elem_of_map_to_list.
Qed.

Lemma ignoreLater_iff ts other :
  ignoreLater ts other = true <-> IsEmpty ts = false /\ Less ts other = true.
Proof.
  unfold ignoreLater. rewrite andb_true_iff, negb_true_iff. reflexivity.
Qed.

Lemma ignoreEarlier_iff ts other :
  ignoreEarlier ts other = true <-> IsEmpty other = false /\ Less other ts = true.
Proof.
  unfold ignoreEarlier. rewrite andb_true_iff, negb_true_iff. reflexivity.
Qed.

(** No timestamp is less than the empty one. *)
Lemma Less_zero ts : Less ts hlc.zero = false.
Proof.
  unfold Less. simpl.
  destruct (N.ltb_spec (WallTime ts) 0); [lia |].
  destruct (N.ltb_spec (Logical ts) 0); [lia |].
  simpl. apply andb_false_r.
Qed.

Lemma ignoreLater_zero ts : ignoreLater ts hlc.zero = false.
Proof. unfold ignoreLater. rewrite Less_zero. apply andb_false_r. Qed.

Lemma ignoreEarlier_zero ts : ignoreEarlier ts hlc.zero = false.
Proof. reflexivity. Qed.

Lemma onlyUnsignaled_refl st : onlyUnsignaled st st.
Proof. exists []. split; [reflexivity |]. split; [constructor | reflexivity]. Qed.

Lemma onlyUnsignaled_trans st1 st2 st3 :
  onlyUnsignaled st1 st2 -> onlyUnsignaled st2 st3 -> onlyUnsignaled st1 st3.
Proof.
  intros (n1 & B1 & F1 & M1) (n2 & B2 & F2 & M2).
  exists (n2 ++ n1). split; [rewrite B2, B1, app_assoc; reflexivity |].
  split; [| set_solver].
  apply Forall_app. split; [| exact F1].
  eapply Forall_impl; [| exact F2]. intros w Hs. unfold signaled in *.
  apply bool_decide_eq_false. apply bool_decide_eq_false in Hs. set_solver.
Qed.

Lemma waitedFor_onlyUnsignaled ign visit st st' err :
  waitedFor ign visit st st' err -> onlyUnsignaled st st'.
Proof.
  intros (new & Hb & Hall & Hmono & _). exists new.
  split; [exact Hb |]. split; [| exact Hmono].
  eapply Forall_impl; [| exact Hall]. intros w (_ & Hs & _). exact Hs.
Qed.

Lemma forEach_onlyUnsignaled {A} (body : A -> waitState -> waitState * option error) l :
  (forall x st, x ∈ l -> onlyUnsignaled st (body x st).1) ->
  forall st, onlyUnsignaled st (forEach body l st).1.
Proof.
  induction l as [| x rest IH]; intros Hbody st; simpl.
  - apply onlyUnsignaled_refl.
  - pose proof (Hbody x st ltac:(by left)) as Hx.
    destruct (body x st) as [st' [err |]]; simpl in *; [exact Hx |].
    eapply onlyUnsignaled_trans; [exact Hx |].
    apply IH. intros y st0 Hy. apply Hbody. by right.
Qed.

Lemma waitLatch_onlyUnsignaled e ts tr a la st :
  onlyUnsignaled st (waitLatch e ts tr a la st).1.
Proof.
  destruct a; simpl.
  - eapply waitedFor_onlyUnsignaled, iterAndWait_waitedFor.
  - pose proof (iterAndWait_waitedFor e (tr SpanReadWrite) la ts ignoreNothing st) as H1.
    apply waitedFor_onlyUnsignaled in H1.
    destruct (iterAndWait e (tr SpanReadWrite) la ts ignoreNothing st)
      as [st1 [err |]]; simpl in *; [exact H1 |].
    eapply onlyUnsignaled_trans; [exact H1 |].
    eapply waitedFor_onlyUnsignaled, iterAndWait_waitedFor.
Qed.

Lemma wait_onlyUnsignaled e lg ts snap st :
  onlyUnsignaled st (wait e lg ts snap st).1.
Proof.
  unfold wait. apply forEach_onlyUnsignaled. intros s st1 _.
  apply forEach_onlyUnsignaled. intros a st2 _.
  apply forEach_onlyUnsignaled. intros la st3 _.
  apply waitLatch_onlyUnsignaled.
Qed.

Lemma iterLoop_all_signaled e ts ignore visit st :
  (forall w, w ∈ visit -> signaled (wheap st) (done w) = true) ->
  iterLoop e ts ignore visit st = (st, None).
Proof.
  induction visit as [| la rest IH]; intros Hall; simpl; [reflexivity |].
  rewrite (Hall la) by (by left). apply IH. intros w Hw. apply Hall. by right.
Qed.

(** C9.  A waiter never blocks on a latch whose [done] signal has
    already fired.  Every latch [iterAndWait] blocks on is a latch the
    iterator visits whose signal had not fired; if all overlapping
    latches of the snapshot are already signaled, [iterAndWait] returns
    at once, without error and without having blocked; and in the whole
    of [wait] every latch blocked on was not yet signaled when the wait
    began. *)
Theorem iterAndWait_skips_signaled :
  (forall e it search ts ignore st,
      exists new,
        blockedOn (iterAndWait e it search ts ignore st).1 = new ++ blockedOn st
        /\ Forall (fun w => w ∈ overlapping it search
                            /\ signaled (wheap st) (done w) = false) new)
  /\ (forall e it search ts ignore st,
         (forall w, w ∈ overlapping it search ->
                    signaled (wheap st) (done w) = true) ->
         iterAndWait e it search ts ignore st = (st, None))
  /\ (forall e lg ts snap st,
         exists new,
           blockedOn (wait e lg ts snap st).1 = new ++ blockedOn st
           /\ Forall (fun w => signaled (wheap st) (done w) = false) new).
Proof.
  split; [| split].
  - intros e it search ts ignore st.
    destruct (iterAndWait_waitedFor e it search ts ignore st)
      as (new & Hb & Hall & _).
    exists new. split; [exact Hb |].
    eapply Forall_impl; [| exact Hall]. intros w (Hw & Hs & _). by split.
  - intros e it search ts ignore st Hall.
    unfold iterAndWait. by apply iterLoop_all_signaled.
  - intros e lg ts snap st.
    destruct (wait_onlyUnsignaled e lg ts snap st) as (new & Hb & Hall & _).
    exists new. by split.
Qed.

Lemma waitLatch_write_spec e ts tr la st :
  let r1 := iterAndWait e (tr SpanReadWrite) la ts ignoreNothing st in
  let r := waitLatch e ts tr SpanReadWrite la st in
  waitedFor (fun _ => false) (overlapping (tr SpanReadWrite) la) st r1.1 r1.2
  /\ match r1.2 with
     | Some _ => r = r1
     | None =>
         waitedFor (fun w => negb (IsEmpty (spanlatch.ts w)) && Less (spanlatch.ts w) ts)
           (overlapping (tr SpanReadOnly) la) r1.1 r.1 r.2
     end.
Proof.
  cbv zeta. split.
  - apply (iterAndWait_waitedFor e (tr SpanReadWrite) la ts ignoreNothing st).
  - unfold waitLatch.
    destruct (iterAndWait e (tr SpanReadWrite) la ts ignoreNothing st)
      as [st1 [err |]]; simpl; [reflexivity |].
    apply (iterAndWait_waitedFor e (tr SpanReadOnly) la ts ignoreEarlier st1).
Qed.

(** C1.  Timestamps filter interference in the Global scope only.
    [ignoreLater ts other] holds iff [ts] is not empty and [ts < other];
    [ignoreEarlier ts other] holds iff [other] is not empty and
    [other < ts]; [ignoreNothing] never holds.  A read latch waits on
    the overlapping write latches of the snapshot except those that
    [ignoreLater] ignores; a write latch waits on all overlapping write
    latches, and then on the overlapping read latches except those that
    [ignoreEarlier] ignores.  A latch of the Local scope is given the
    empty timestamp, and in a scope whose latches all carry the empty
    timestamp nothing is ignored, whatever the timestamp of the
    acquisition: reads wait on all overlapping writes, writes on all
    overlapping writes and reads. *)
Theorem timestamp_interference :
  (forall ts other,
      ignoreLater ts other = true <-> IsEmpty ts = false /\ Less ts other = true)
  /\ (forall ts other,
         ignoreEarlier ts other = true <-> IsEmpty other = false /\ Less other ts = true)
  /\ (forall ts other, ignoreNothing ts other = false)
  /\ (forall ts,
         ifGlobal ts SpanGlobal = ts
         /\ ifGlobal ts SpanLocal = hlc.zero
         /\ IsEmpty (ifGlobal ts SpanLocal) = true)
  /\ (forall e ts tr la st,
         let r := waitLatch e ts tr SpanReadOnly la st in
         waitedFor (fun w => negb (IsEmpty ts) && Less ts (spanlatch.ts w))
           (overlapping (tr SpanReadWrite) la) st r.1 r.2)
  /\ (forall e ts tr la st,
         let r1 := iterAndWait e (tr SpanReadWrite) la ts ignoreNothing st in
         let r := waitLatch e ts tr SpanReadWrite la st in
         waitedFor (fun _ => false) (overlapping (tr SpanReadWrite) la) st r1.1 r1.2
         /\ match r1.2 with
            | Some _ => r = r1
            | None =>
                waitedFor
                  (fun w => negb (IsEmpty (spanlatch.ts w)) && Less (spanlatch.ts w) ts)
                  (overlapping (tr SpanReadOnly) la) r1.1 r.1 r.2
            end)
  /\ (forall h ss ts h' lg a la,
         newGuard h ss ts = Some (h', lg) ->
         la ∈ latches lg SpanLocal a -> spanlatch.ts la = hlc.zero)
  /\ (forall e ts (tr : SpanAccess -> btree) la st,
         (forall a k w, tr a !! k = Some w -> spanlatch.ts w = hlc.zero) ->
         (let r := waitLatch e ts tr SpanReadOnly la st in
          waitedFor (fun _ => false) (overlapping (tr SpanReadWrite) la) st r.1 r.2)
         /\ (let r1 := iterAndWait e (tr SpanReadWrite) la ts ignoreNothing st in
             let r := waitLatch e ts tr SpanReadWrite la st in
             waitedFor (fun _ => false) (overlapping (tr SpanReadWrite) la) st r1.1 r1.2
             /\ match r1.2 with
                | Some _ => r = r1
                | None =>
                    waitedFor (fun _ => false)
                      (overlapping (tr SpanReadOnly) la) r1.1 r.1 r.2
                end)).
Proof.
  split; [exact ignoreLater_iff |].
  split; [exact ignoreEarlier_iff |].
  split; [reflexivity |].
  split; [intros ts; repeat split |].
  split.
  { intros e ts tr la st.
    apply (iterAndWait_waitedFor e (tr SpanReadWrite) la ts ignoreLater st). }
  split; [exact waitLatch_write_spec |].
  split.
  { intros h ss ts h' lg a la Hnew Hin.
    destruct (newGuard_spec h ss ts) as (lg0 & E & _ & L).
    rewrite E in Hnew. injection Hnew as _ <-.
    rewrite L in Hin. apply list_elem_of_fmap in Hin as (sp & -> & _).
    reflexivity. }
  intros e ts tr la st Hzero. split.
  - cbv zeta. eapply waitedFor_ext;
      [| apply (iterAndWait_waitedFor e (tr SpanReadWrite) la ts ignoreLater st)].
    intros w Hw. apply overlapping_lookup in Hw as [k Hk].
    cbv beta. rewrite (Hzero _ _ _ Hk). apply ignoreLater_zero.
  - pose proof (waitLatch_write_spec e ts tr la st) as Hw. cbv zeta in *.
    destruct Hw as [H1 H2]. split; [exact H1 |].
    destruct (iterAndWait e (tr SpanReadWrite) la ts ignoreNothing st).2;
      [exact H2 |].
    eapply waitedFor_ext; [| exact H2].
    intros w Hw. apply overlapping_lookup in Hw as [k Hk].
    cbv beta. rewrite (Hzero _ _ _ Hk). reflexivity.
Qed.

(** *** The critical section of sequence *)

Lemma flushLoop_spec rs t :
  let sm' := flushLoop (length rs) {| readSet := rs; trees := t |} in
  readSet sm' = []
  /\ trees sm' SpanReadOnly = foldl Set_ (t SpanReadOnly) rs
  /\ trees sm' SpanReadWrite = t SpanReadWrite.
Proof.
  cbv zeta. revert t. induction rs as [| x rest IH]; intros t; simpl.
  - auto.
  - destruct (decide (x = x)); [| congruence].
    destruct (IH (<[SpanReadOnly := Set_ (t SpanReadOnly) x]> t)) as (H1 & H2 & H3).
    rewrite H1, H2, H3. rewrite fn_lookup_insert.
    rewrite fn_lookup_insert_ne by discriminate. auto.
Qed.

Lemma flushReadSetLocked_spec sm :
  readSet (flushReadSetLocked sm) = []
  /\ trees (flushReadSetLocked sm) SpanReadOnly = flushed sm
  /\ trees (flushReadSetLocked sm) SpanReadWrite = trees sm SpanReadWrite.
Proof.
  unfold flushReadSetLocked, flushed, len. destruct sm as [rs t]. simpl.
  apply flushLoop_spec.
Qed.

(** What the body of the loop of [snapshotLocked] does for scope [s]. *)
Lemma snapshotScope_spec ss m snap s :
  let r := snapshotScope ss (m, snap) s in
  let sm := scopes m s in
  let reading := (0 <? length (GetSpans ss SpanReadOnly s))%nat in
  let writing := (0 <? length (GetSpans ss SpanReadWrite s))%nat in
  mu r.1 = mu m /\ idAlloc r.1 = idAlloc m
  /\ (forall s', s' <> s ->
        scopes r.1 s' = scopes m s' /\ snapTrees r.2 s' = snapTrees snap s')
  /\ readSet (scopes r.1 s) = (if writing then [] else readSet sm)
  /\ trees (scopes r.1 s) SpanReadOnly
     = (if writing then flushed sm else trees sm SpanReadOnly)
  /\ trees (scopes r.1 s) SpanReadWrite = trees sm SpanReadWrite
  /\ snapTrees r.2 s SpanReadOnly
     = (if writing then flushed sm else snapTrees snap s SpanReadOnly)
  /\ snapTrees r.2 s SpanReadWrite
     = (if writing || reading then trees sm SpanReadWrite
        else snapTrees snap s SpanReadWrite).
Proof.
  cbv zeta. unfold snapshotScope.
  destruct (flushReadSetLocked_spec (scopes m s)) as (F1 & F2 & F3).
  destruct (0 <? length (GetSpans ss SpanReadWrite s))%nat;
    destruct (0 <? length (GetSpans ss SpanReadOnly s))%nat; simpl;
    rewrite ?fn_lookup_insert;
    (split; [reflexivity |]); (split; [reflexivity |]);
    (split; [intros s' Hs'; rewrite !fn_lookup_insert_ne by congruence; auto |]);
    rewrite ?fn_lookup_insert, ?(fn_lookup_insert_ne _ SpanReadOnly SpanReadWrite)
      by discriminate;
    rewrite ?fn_lookup_insert, ?(fn_lookup_insert_ne _ SpanReadWrite SpanReadOnly)
      by discriminate;
    unfold Clone; auto 10.
Qed.

Lemma snapshotLocked_spec m ss :
  let r := snapshotLocked m ss in
  mu r.1 = mu m /\ idAlloc r.1 = idAlloc m
  /\ forall s,
       let sm := scopes m s in
       let reading := (0 <? length (GetSpans ss SpanReadOnly s))%nat in
       let writing := (0 <? length (GetSpans ss SpanReadWrite s))%nat in
       readSet (scopes r.1 s) = (if writing then [] else readSet sm)
       /\ trees (scopes r.1 s) SpanReadOnly
          = (if writing then flushed sm else trees sm SpanReadOnly)
       /\ trees (scopes r.1 s) SpanReadWrite = trees sm SpanReadWrite
       /\ snapTrees r.2 s SpanReadOnly = (if writing then flushed sm else emptyTree)
       /\ snapTrees r.2 s SpanReadWrite
          = (if writing || reading then trees sm SpanReadWrite else emptyTree).
Proof.
  cbv zeta. unfold snapshotLocked, allScopes. cbn [foldl].
  pose proof (snapshotScope_spec ss m zeroSnapshot SpanGlobal) as HG.
  destruct (snapshotScope ss (m, zeroSnapshot) SpanGlobal) as [m1 sn1].
  pose proof (snapshotScope_spec ss m1 sn1 SpanLocal) as HL.
  destruct (snapshotScope ss (m1, sn1) SpanLocal) as [m2 sn2].
  cbv zeta in HG, HL. simpl in HG, HL. simpl.
  destruct HG as (G1 & G2 & G3 & G4 & G5 & G6 & G7 & G8).
  destruct HL as (L1 & L2 & L3 & L4 & L5 & L6 & L7 & L8).
  destruct (G3 SpanLocal ltac:(discriminate)) as [GL1 GL2].
  destruct (L3 SpanGlobal ltac:(discriminate)) as [LG1 LG2].
  split; [congruence |]. split; [congruence |].
  intros [].
  - rewrite LG1, LG2, G4, G5, G6, G7, G8. auto 10.
  - rewrite L4, L5, L6, L7, L8, GL1, GL2.
    repeat (split; [reflexivity |]). reflexivity.
Qed.

Lemma uint64_succ_l x : uint64 (uint64 x + 1) = uint64 (x + 1).
Proof. unfold uint64. apply Zplus_mod_idemp_l. Qed.

Lemma uint64_add_congr x y z : uint64 x = uint64 y -> uint64 (x + z) = uint64 (y + z).
Proof.
  unfold uint64. intros H.
  rewrite <- (Zplus_mod_idemp_l x), <- (Zplus_mod_idemp_l y), H. reflexivity.
Qed.

Lemma assignIDs_congr x y ls :
  uint64 x = uint64 y -> assignIDs x ls = assignIDs y ls.
Proof.
  intros H. unfold assignIDs. apply imap_ext. intros i la _. simpl.
  f_equal. replace (x + Z.of_nat i + 1) with (x + (Z.of_nat i + 1)) by lia.
  replace (y + Z.of_nat i + 1) with (y + (Z.of_nat i + 1)) by lia.
  by apply uint64_add_congr.
Qed.

Lemma assignIDs_cons start la ls :
  assignIDs start (la :: ls)
  = setID la (uint64 (start + 1)) :: assignIDs (start + 1) ls.
Proof.
  unfold assignIDs. rewrite imap_cons. f_equal.
  - f_equal. f_equal. lia.
  - apply imap_ext. intros i x _. simpl. f_equal. f_equal. lia.
Qed.

Lemma length_assignIDs start ls : length (assignIDs start ls) = length ls.
Proof. unfold assignIDs. apply length_imap. Qed.

(** What the body of the innermost loop of [insertLocked] does. *)
Lemma insertLatch_spec s a m seen la :
  let r := insertLatch s a (m, seen) la in
  let la' := setID la (uint64 (idAlloc m + 1)) in
  mu r.1 = mu m
  /\ idAlloc r.1 = uint64 (idAlloc m + 1)
  /\ r.2 = seen ++ [la']
  /\ (forall s', s' <> s -> scopes r.1 s' = scopes m s')
  /\ readSet (scopes r.1 s)
     = readSet (scopes m s) ++ (if a is SpanReadOnly then [la'] else [])
  /\ trees (scopes r.1 s) SpanReadOnly = trees (scopes m s) SpanReadOnly
  /\ trees (scopes r.1 s) SpanReadWrite
     = (if a is SpanReadWrite
        then Set_ (trees (scopes m s) SpanReadWrite) la'
        else trees (scopes m s) SpanReadWrite).
Proof.
  cbv zeta. unfold insertLatch, nextID.
  destruct a; simpl; rewrite ?fn_lookup_insert; simpl;
    rewrite ?fn_lookup_insert, ?app_nil_r;
    repeat (split; [first [done | by intros s' Hs'; rewrite fn_lookup_insert_ne] |]);
    rewrite ?fn_lookup_insert_ne by discriminate; done.
Qed.

(** What the innermost loop of [insertLocked] does with the latches
    [ls] of scope [s] and access [a]. *)
Lemma insertLatches_spec s a ls m seen :
  let r := foldl (insertLatch s a) (m, seen) ls in
  let new := assignIDs (idAlloc m) ls in
  mu r.1 = mu m
  /\ uint64 (idAlloc r.1) = uint64 (idAlloc m + Z.of_nat (length ls))
  /\ r.2 = seen ++ new
  /\ (forall s', s' <> s -> scopes r.1 s' = scopes m s')
  /\ readSet (scopes r.1 s)
     = readSet (scopes m s) ++ (if a is SpanReadOnly then new else [])
  /\ trees (scopes r.1 s) SpanReadOnly = trees (scopes m s) SpanReadOnly
  /\ trees (scopes r.1 s) SpanReadWrite
     = (if a is SpanReadWrite
        then foldl Set_ (trees (scopes m s) SpanReadWrite) new
        else trees (scopes m s) SpanReadWrite).
Proof.
  cbv zeta. revert m seen. induction ls as [| la rest IH]; intros m seen.
  - destruct a; unfold assignIDs; simpl; rewrite ?app_nil_r, ?Z.add_0_r;
      repeat (split; [done |]); done.
  - cbn [foldl]. rewrite assignIDs_cons.
    pose proof (insertLatch_spec s a m seen la) as Hstep. cbv zeta in Hstep.
    destruct (insertLatch s a (m, seen) la) as [m1 seen1]. simpl in Hstep.
    destruct Hstep as (S1 & S2 & S3 & S4 & S5 & S6 & S7).
    destruct (IH m1 seen1) as (I1 & I2 & I3 & I4 & I5 & I6 & I7).
    assert (Hid : uint64 (idAlloc m1) = uint64 (idAlloc m + 1)).
    { rewrite S2. unfold uint64. apply Zmod_mod. }
    rewrite (assignIDs_congr _ (idAlloc m + 1)) in I3, I5, I7 by exact Hid.
    split; [congruence |].
    split.
    { rewrite I2. rewrite (uint64_add_congr _ _ _ Hid). f_equal.
      simpl length. lia. }
    split; [rewrite I3, S3, <- app_assoc; reflexivity |].
    split; [intros s' Hs'; rewrite (I4 s' Hs'); auto |].
    rewrite I5, I6, I7, S5, S6, S7.
    destruct a; simpl; rewrite <- ?app_assoc, ?app_nil_r; auto.
Qed.

Lemma insertAccess_spec s a m lg :
  let r := insertAccess s (m, lg) a in
  let new := assignIDs (idAlloc m) (latches lg s a) in
  mu r.1 = mu m
  /\ uint64 (idAlloc r.1)
     = uint64 (idAlloc m + Z.of_nat (length (latches lg s a)))
  /\ gdone r.2 = gdone lg
  /\ latches r.2 s a = new
  /\ (forall s' a', (s', a') <> (s, a) -> latches r.2 s' a' = latches lg s' a')
  /\ (forall s', s' <> s -> scopes r.1 s' = scopes m s')
  /\ readSet (scopes r.1 s)
     = readSet (scopes m s) ++ (if a is SpanReadOnly then new else [])
  /\ trees (scopes r.1 s) SpanReadOnly = trees (scopes m s) SpanReadOnly
  /\ trees (scopes r.1 s) SpanReadWrite
     = (if a is SpanReadWrite
        then foldl Set_ (trees (scopes m s) SpanReadWrite) new
        else trees (scopes m s) SpanReadWrite).
Proof.
  cbv zeta. unfold insertAccess.
  pose proof (insertLatches_spec s a (latches lg s a) m []) as H. cbv zeta in H.
  destruct (foldl (insertLatch s a) (m, []) (latches lg s a)) as [m' ls'].
  simpl in H. destruct H as (H1 & H2 & H3 & H4 & H5 & H6 & H7). subst ls'.
  simpl.
  split; [exact H1 |]. split; [exact H2 |]. split; [reflexivity |].
  split; [unfold latches, setLatches; simpl; by rewrite !fn_lookup_insert |].
  split.
  { intros s' a' Hne. unfold latches, setLatches. simpl.
    destruct (decide (s' = s)) as [-> | Hs].
    - rewrite fn_lookup_insert, fn_lookup_insert_ne; [reflexivity | congruence].
    - by rewrite fn_lookup_insert_ne. }
  auto.
Qed.

(** What [insertLocked] does: the latches are numbered in the order
    of the loops, reads go to the back of the read set of their scope
    and writes into its read-write tree. *)
Lemma insertLocked_spec m lg :
  let r := insertLocked m lg in
  let n := fun s a => Z.of_nat (length (latches lg s a)) in
  mu r.1 = mu m
  /\ uint64 (idAlloc r.1)
     = uint64 (idAlloc m + n SpanGlobal SpanReadOnly + n SpanGlobal SpanReadWrite
               + n SpanLocal SpanReadOnly + n SpanLocal SpanReadWrite)
  /\ gdone r.2 = gdone lg
  /\ latches r.2 SpanGlobal SpanReadOnly
     = assignIDs (idAlloc m) (latches lg SpanGlobal SpanReadOnly)
  /\ latches r.2 SpanGlobal SpanReadWrite
     = assignIDs (idAlloc m + n SpanGlobal SpanReadOnly)
         (latches lg SpanGlobal SpanReadWrite)
  /\ latches r.2 SpanLocal SpanReadOnly
     = assignIDs (idAlloc m + n SpanGlobal SpanReadOnly + n SpanGlobal SpanReadWrite)
         (latches lg SpanLocal SpanReadOnly)
  /\ latches r.2 SpanLocal SpanReadWrite
     = assignIDs (idAlloc m + n SpanGlobal SpanReadOnly + n SpanGlobal SpanReadWrite
                  + n SpanLocal SpanReadOnly)
         (latches lg SpanLocal SpanReadWrite)
  /\ forall s,
       readSet (scopes r.1 s) = readSet (scopes m s) ++ latches r.2 s SpanReadOnly
       /\ trees (scopes r.1 s) SpanReadOnly = trees (scopes m s) SpanReadOnly
       /\ trees (scopes r.1 s) SpanReadWrite
          = foldl Set_ (trees (scopes m s) SpanReadWrite) (latches r.2 s SpanReadWrite).
Proof.
  cbv zeta. unfold insertLocked, allScopes, allAccesses. cbn [foldl].
  pose proof (insertAccess_spec SpanGlobal SpanReadOnly m lg) as A. cbv zeta in A.
  destruct (insertAccess SpanGlobal (m, lg) SpanReadOnly) as [m1 g1]. simpl in A.
  destruct A as (A1 & A2 & A3 & A4 & A5 & A6 & A7 & A8 & A9).
  pose proof (insertAccess_spec SpanGlobal SpanReadWrite m1 g1) as B. cbv zeta in B.
  destruct (insertAccess SpanGlobal (m1, g1) SpanReadWrite) as [m2 g2]. simpl in B.
  destruct B as (B1 & B2 & B3 & B4 & B5 & B6 & B7 & B8 & B9).
  pose proof (insertAccess_spec SpanLocal SpanReadOnly m2 g2) as C. cbv zeta in C.
  destruct (insertAccess SpanLocal (m2, g2) SpanReadOnly) as [m3 g3]. simpl in C.
  destruct C as (C1 & C2 & C3 & C4 & C5 & C6 & C7 & C8 & C9).
  pose proof (insertAccess_spec SpanLocal SpanReadWrite m3 g3) as D. cbv zeta in D.
  destruct (insertAccess SpanLocal (m3, g3) SpanReadWrite) as [m4 g4]. simpl in D.
  destruct D as (D1 & D2 & D3 & D4 & D5 & D6 & D7 & D8 & D9).
  simpl.
  (* the latches of the guard before each step *)
  rewrite (A5 SpanGlobal SpanReadWrite) in * by congruence.
  rewrite (B5 SpanLocal SpanReadOnly), (A5 SpanLocal SpanReadOnly) in * by congruence.
  rewrite (C5 SpanLocal SpanReadWrite), (B5 SpanLocal SpanReadWrite),
    (A5 SpanLocal SpanReadWrite) in * by congruence.
  set (n1 := Z.of_nat (length (latches lg SpanGlobal SpanReadOnly))) in *.
  set (n2 := Z.of_nat (length (latches lg SpanGlobal SpanReadWrite))) in *.
  set (n3 := Z.of_nat (length (latches lg SpanLocal SpanReadOnly))) in *.
  set (n4 := Z.of_nat (length (latches lg SpanLocal SpanReadWrite))) in *.
  assert (E1 : uint64 (idAlloc m1) = uint64 (idAlloc m + n1)) by exact A2.
  assert (E2 : uint64 (idAlloc m2) = uint64 (idAlloc m + n1 + n2)).
  { rewrite B2. by apply uint64_add_congr. }
  assert (E3 : uint64 (idAlloc m3) = uint64 (idAlloc m + n1 + n2 + n3)).
  { rewrite C2. by apply uint64_add_congr. }
  rewrite (assignIDs_congr _ _ _ E1) in *.
  rewrite (assignIDs_congr _ _ _ E2) in *.
  rewrite (assignIDs_congr _ _ _ E3) in *.
  split; [congruence |].
  split; [rewrite D2; by apply uint64_add_congr |].
  split; [congruence |].
  split; [rewrite (D5 SpanGlobal SpanReadOnly), (C5 SpanGlobal SpanReadOnly),
           (B5 SpanGlobal SpanReadOnly) by congruence; exact A4 |].
  split; [rewrite (D5 SpanGlobal SpanReadWrite), (C5 SpanGlobal SpanReadWrite)
           by congruence; exact B4 |].
  split; [rewrite (D5 SpanLocal SpanReadOnly) by congruence; exact C4 |].
  split; [exact D4 |].
  intros [].
  - rewrite (D6 SpanGlobal), (C6 SpanGlobal) by congruence.
    rewrite (D5 SpanGlobal SpanReadOnly), (C5 SpanGlobal SpanReadOnly),
      (B5 SpanGlobal SpanReadOnly), (D5 SpanGlobal SpanReadWrite),
      (C5 SpanGlobal SpanReadWrite) by congruence.
    rewrite B7, B8, B9, A7, A8, A9, A4, B4, app_nil_r. auto.
  - rewrite (D5 SpanLocal SpanReadOnly) by congruence.
    rewrite D7, D8, D9, C7, C8, C9, C4, D4, app_nil_r.
    rewrite (B6 SpanLocal), (A6 SpanLocal) by congruence. auto.
Qed.

Lemma uint64_inRange x : inRange64 (uint64 x).
Proof. unfold inRange64, uint64. apply Z.mod_pos_bound. lia. Qed.

Lemma uint64_small x : inRange64 x -> uint64 x = x.
Proof. unfold inRange64, uint64. intros H. by apply Z.mod_small. Qed.

Lemma insertLatches_range s a ls m seen :
  inRange64 (idAlloc m) ->
  inRange64 (idAlloc (foldl (insertLatch s a) (m, seen) ls).1).
Proof.
  revert m seen. induction ls as [| la rest IH]; intros m seen Hm; [exact Hm |].
  cbn [foldl].
  pose proof (insertLatch_spec s a m seen la) as Hstep. cbv zeta in Hstep.
  destruct (insertLatch s a (m, seen) la) as [m1 seen1]. simpl in Hstep.
  apply IH. destruct Hstep as (_ & -> & _). apply uint64_inRange.
Qed.

Lemma insertAccess_range s a m lg :
  inRange64 (idAlloc m) -> inRange64 (idAlloc (insertAccess s (m, lg) a).1).
Proof.
  intros Hm. unfold insertAccess.
  pose proof (insertLatches_range s a (latches lg s a) m [] Hm) as H.
  destruct (foldl (insertLatch s a) (m, []) (latches lg s a)) as [m' ls'].
  exact H.
Qed.

Lemma insertLocked_range m lg :
  inRange64 (idAlloc m) -> inRange64 (idAlloc (insertLocked m lg).1).
Proof.
  intros Hm. unfold insertLocked, allScopes, allAccesses. cbn [foldl].
  repeat match goal with
  | |- context [insertAccess ?s (?m0, ?g0) ?a] =>
      let H := fresh "H" in
      assert (H : inRange64 (idAlloc (insertAccess s (m0, g0) a).1))
        by (apply insertAccess_range; assumption);
      destruct (insertAccess s (m0, g0) a); simpl in H
  end.
  assumption.
Qed.

Lemma lookup_foldl_Set (t : btree) ls k la :
  foldl Set_ t ls !! k = Some la ->
  t !! k = Some la \/ (la ∈ ls /\ k = keyOf la).
Proof.
  revert t. induction ls as [| x rest IH]; intros t; simpl; [by left |].
  intros H. apply IH in H as [H | [H ->]].
  - unfold Set_ in H. destruct (decide (keyOf x = k)) as [<- | Hne].
    + rewrite lookup_insert_eq in H. injection H as <-.
      right. split; [by left | reflexivity].
    + rewrite lookup_insert_ne in H by exact Hne. by left.
  - right. split; [by right | reflexivity].
Qed.

Lemma lookup_assignIDs start ls i la :
  assignIDs start ls !! i = Some la ->
  exists la0, ls !! i = Some la0
              /\ la = setID la0 (uint64 (start + Z.of_nat i + 1)).
Proof.
  unfold assignIDs. rewrite list_lookup_imap.
  destruct (ls !! i) as [la0 |]; simpl; [| discriminate].
  intros [= <-]. by exists la0.
Qed.

Lemma latchesBefore_bound ss s a :
  (latchesBefore ss s a + length (GetSpans ss a s) <= countLatches ss)%nat.
Proof. rewrite countLatches_sum. destruct s, a; simpl; lia. Qed.

(** [sequence], step by step. *)
Lemma sequence_steps h m ss ts :
  exists lg0 m2 m3 lg snap,
    newGuard h ss ts
    = Some ({| nextAddr := N.succ (nextAddr h); fired := fired h |}, lg0)
    /\ snapshotLocked (Lock m) ss = (m2, snap)
    /\ insertLocked m2 lg0 = (m3, lg)
    /\ sequence h m ss ts
       = Some ({| nextAddr := N.succ (nextAddr h); fired := fired h |},
               Unlock m3, lg, snap)
    /\ gdone lg = nextAddr h
    /\ mu m2 = true /\ mu m3 = true
    /\ (forall s,
          let sm := scopes m s in
          let reading := (0 <? length (GetSpans ss SpanReadOnly s))%nat in
          let writing := (0 <? length (GetSpans ss SpanReadWrite s))%nat in
          snapTrees snap s SpanReadOnly = (if writing then flushed sm else emptyTree)
          /\ snapTrees snap s SpanReadWrite
             = (if writing || reading then trees sm SpanReadWrite else emptyTree)
          /\ readSet (scopes m2 s) = (if writing then [] else readSet sm)
          /\ trees (scopes m2 s) SpanReadOnly
             = (if writing then flushed sm else trees sm SpanReadOnly)
          /\ trees (scopes m2 s) SpanReadWrite = trees sm SpanReadWrite
          /\ readSet (scopes m3 s) = readSet (scopes m2 s) ++ latches lg s SpanReadOnly
          /\ trees (scopes m3 s) SpanReadOnly = trees (scopes m2 s) SpanReadOnly
          /\ trees (scopes m3 s) SpanReadWrite
             = foldl Set_ (trees (scopes m2 s) SpanReadWrite) (latches lg s SpanReadWrite))
    /\ (forall s a,
          latches lg s a
          = assignIDs (idAlloc m + Z.of_nat (latchesBefore ss s a))
              (preparedLatch (nextAddr h) ts s <$> GetSpans ss a s))
    /\ uint64 (idAlloc m3) = uint64 (idAlloc m + Z.of_nat (countLatches ss))
    /\ (inRange64 (idAlloc m) -> inRange64 (idAlloc m3)).
Proof.
  destruct (newGuard_spec h ss ts) as (lg0 & E & D & L).
  pose proof (snapshotLocked_spec (Lock m) ss) as Hs. cbv zeta in Hs.
  destruct (snapshotLocked (Lock m) ss) as [m2 snap] eqn:Esnap. simpl in Hs.
  destruct Hs as (S1 & S2 & S3).
  pose proof (insertLocked_spec m2 lg0) as Hi. cbv zeta in Hi.
  pose proof (insertLocked_range m2 lg0) as Hr.
  destruct (insertLocked m2 lg0) as [m3 lg] eqn:Eins. simpl in Hi, Hr.
  destruct Hi as (I1 & I2 & I3 & I4 & I5 & I6 & I7 & I8).
  exists lg0, m2, m3, lg, snap.
  split; [exact E |]. split; [reflexivity |]. split; [exact Eins |].
  split; [unfold sequence; rewrite E, Esnap, Eins; reflexivity |].
  split; [rewrite I3; exact D |].
  split; [exact S1 |]. split; [rewrite I1; exact S1 |].
  rewrite ?L, ?length_fmap, ?S2 in I2, I4, I5, I6, I7, Hr. simpl in Hr.
  split.
  { intros s. cbv zeta.
    destruct (S3 s) as (T1 & T2 & T3 & T4 & T5).
    destruct (I8 s) as (J1 & J2 & J3).
    rewrite T4, T5, T1, T2, T3, J1, J2, J3, T1, T2, T3. auto 10. }
  split.
  { intros [] []; unfold latchesBefore; rewrite ?I4, ?I5, ?I6, ?I7;
      rewrite !L, ?length_fmap; apply assignIDs_congr; f_equal; lia. }
  split.
  { rewrite I2, countLatches_sum, !L, !length_fmap. f_equal. lia. }
  exact Hr.
Qed.

Lemma assigned_id ss m p ts s a i la :
  inRange64 (idAlloc m) ->
  idAlloc m + Z.of_nat (countLatches ss) < 2 ^ 64 ->
  assignIDs (idAlloc m + Z.of_nat (latchesBefore ss s a))
    (preparedLatch p ts s <$> GetSpans ss a s) !! i = Some la ->
  id la = idAlloc m + Z.of_nat (latchesBefore ss s a) + Z.of_nat i + 1
  /\ (i < length (GetSpans ss a s))%nat.
Proof.
  intros Hm Hno Hl.
  apply lookup_assignIDs in Hl as (la0 & Hl0 & ->).
  apply lookup_lt_Some in Hl0. rewrite length_fmap in Hl0.
  split; [| exact Hl0]. simpl.
  apply uint64_small. pose proof (latchesBefore_bound ss s a).
  unfold inRange64 in *. lia.
Qed.

Lemma bounded_tree_fresh (t : btree) bound la :
  (forall k x, t !! k = Some x -> k = keyOf x /\ 0 < id x <= bound) ->
  bound < id la -> t !! keyOf la = None.
Proof.
  intros Hb Hla. destruct (t !! keyOf la) as [x |] eqn:E; [| reflexivity].
  destruct (Hb _ _ E) as [Hk Hx]. unfold keyOf in Hk.
  injection Hk as _ _ Hid. lia.
Qed.

Lemma flushed_bounded m s k x :
  idsBounded m -> flushed (scopes m s) !! k = Some x ->
  k = keyOf x /\ 0 < id x <= idAlloc m.
Proof.
  intros Hb H. destruct (Hb s) as [Hr Ht]. unfold flushed in H.
  apply lookup_foldl_Set in H as [H | [H ->]].
  - by apply (Ht SpanReadOnly).
  - split; [reflexivity | by apply Hr].
Qed.

(** C3.  The critical section of [Acquire].  [sequence] takes the
    mutex, and with the mutex held: for each scope in which the caller
    declares write spans it flushes the read set of the scope into the
    read-only tree and clones that tree into the snapshot; for each
    scope in which it declares read or write spans it clones the
    read-write tree into the snapshot; it then gives every new latch the
    next value of the id counter, links every read latch to the back of
    the read set of its scope and puts every write latch into the
    read-write tree of its scope; and it releases the mutex.  The
    snapshot is taken from the trees as they were before the insertion:
    as long as the counter does not wrap around, the new ids are above
    every id handed out before and differ from one another, so no latch
    of the caller is in the snapshot. *)
Theorem sequence_critical_section (h : heap) (m : Manager) (ss : SpanSet)
    (ts : Timestamp) :
  exists lg0 m2 m3 lg snap,
    newGuard h ss ts
    = Some ({| nextAddr := N.succ (nextAddr h); fired := fired h |}, lg0)
    /\ snapshotLocked (Lock m) ss = (m2, snap)
    /\ insertLocked m2 lg0 = (m3, lg)
    /\ sequence h m ss ts
       = Some ({| nextAddr := N.succ (nextAddr h); fired := fired h |},
               Unlock m3, lg, snap)
    /\ mu (Lock m) = true /\ mu m2 = true /\ mu m3 = true /\ mu (Unlock m3) = false
    /\ (forall s,
          let sm := scopes m s in
          let reading := (0 <? length (GetSpans ss SpanReadOnly s))%nat in
          let writing := (0 <? length (GetSpans ss SpanReadWrite s))%nat in
          snapTrees snap s SpanReadOnly = (if writing then flushed sm else emptyTree)
          /\ snapTrees snap s SpanReadWrite
             = (if writing || reading then trees sm SpanReadWrite else emptyTree)
          /\ readSet (scopes m2 s) = (if writing then [] else readSet sm)
          /\ trees (scopes m2 s) SpanReadOnly
             = (if writing then flushed sm else trees sm SpanReadOnly)
          /\ trees (scopes m2 s) SpanReadWrite = trees sm SpanReadWrite
          /\ readSet (scopes (Unlock m3) s)
             = readSet (scopes m2 s) ++ latches lg s SpanReadOnly
          /\ trees (scopes (Unlock m3) s) SpanReadOnly = trees (scopes m2 s) SpanReadOnly
          /\ trees (scopes (Unlock m3) s) SpanReadWrite
             = foldl Set_ (trees (scopes m2 s) SpanReadWrite) (latches lg s SpanReadWrite))
    /\ (forall s a,
          latches lg s a
          = assignIDs (idAlloc m + Z.of_nat (latchesBefore ss s a))
              (preparedLatch (gdone lg) ts s <$> GetSpans ss a s))
    /\ uint64 (idAlloc (Unlock m3)) = uint64 (idAlloc m + Z.of_nat (countLatches ss))
    /\ (inRange64 (idAlloc m) ->
        idAlloc m + Z.of_nat (countLatches ss) < 2 ^ 64 ->
        idsBounded m ->
        idAlloc (Unlock m3) = idAlloc m + Z.of_nat (countLatches ss)
        /\ (forall s a i la,
              latches lg s a !! i = Some la ->
              id la = idAlloc m + Z.of_nat (latchesBefore ss s a) + Z.of_nat i + 1)
        /\ (forall s a i la s' a' i' la',
              latches lg s a !! i = Some la ->
              latches lg s' a' !! i' = Some la' ->
              id la = id la' -> s = s' /\ a = a' /\ i = i')
        /\ (forall s a la s' a',
              la ∈ latches lg s a ->
              idAlloc m < id la
              /\ snapTrees snap s' a' !! keyOf la = None
              /\ (la ∉ readSet (scopes m s'))
              /\ trees (scopes m s') a' !! keyOf la = None)
        /\ idsBounded (Unlock m3)).
Proof.
  destruct (sequence_steps h m ss ts)
    as (lg0 & m2 & m3 & lg & snap & E1 & E2 & E3 & E4 & Hd & Hm2 & Hm3
        & Hsc & Hl & Hid & Hrange).
  exists lg0, m2, m3, lg, snap.
  split; [exact E1 |]. split; [exact E2 |]. split; [exact E3 |].
  split; [exact E4 |].
  split; [reflexivity |]. split; [exact Hm2 |]. split; [exact Hm3 |].
  split; [reflexivity |].
  split; [exact Hsc |].
  split; [intros s a; rewrite Hd; apply Hl |].
  split; [exact Hid |].
  intros Hm Hno Hb.
  assert (Hcount : idAlloc m3 = idAlloc m + Z.of_nat (countLatches ss)).
  { rewrite <- (uint64_small (idAlloc m3)) by auto. rewrite Hid.
    apply uint64_small. unfold inRange64 in *. lia. }
  assert (Hids : forall s a i la,
             latches lg s a !! i = Some la ->
             id la = idAlloc m + Z.of_nat (latchesBefore ss s a) + Z.of_nat i + 1
             /\ (i < length (GetSpans ss a s))%nat).
  { intros s a i la Hla. rewrite Hl in Hla. by eapply assigned_id. }
  assert (Hnew : forall s a la,
             la ∈ latches lg s a -> idAlloc m < id la <= idAlloc m3).
  { intros s a la Hin. apply list_elem_of_lookup in Hin as [i Hi].
    destruct (Hids _ _ _ _ Hi) as [-> Hlt].
    pose proof (latchesBefore_bound ss s a). lia. }
  split; [exact Hcount |].
  split; [intros s a i la Hla; by apply Hids |].
  split.
  { intros s a i la s' a' i' la' H1 H2 Heq.
    destruct (Hids _ _ _ _ H1) as [I1 L1].
    destruct (Hids _ _ _ _ H2) as [I2 L2].
    rewrite I1, I2 in Heq. clear - Heq L1 L2.
    destruct s, a, s', a'; simpl in *;
      first [ (split; [reflexivity |]; split; [reflexivity |]; lia)
            | (exfalso; unfold GetSpans in *; lia) ]. }
  split.
  { intros s a la s' a' Hin. pose proof (Hnew _ _ _ Hin) as [Hlo _].
    destruct (Hb s') as [Hr Ht].
    split; [exact Hlo |].
    split.
    { destruct (Hsc s') as (T1 & T2 & _). cbv zeta in T1, T2.
      destruct a'; [rewrite T1 | rewrite T2].
      - destruct (0 <? length (GetSpans ss SpanReadWrite s'))%nat;
          [| apply lookup_empty].
        apply (bounded_tree_fresh _ (idAlloc m)); [| exact Hlo].
        intros k x Hx. by apply (flushed_bounded m s').
      - destruct ((0 <? length (GetSpans ss SpanReadWrite s'))%nat
                  || (0 <? length (GetSpans ss SpanReadOnly s'))%nat);
          [| apply lookup_empty].
        apply (bounded_tree_fresh _ (idAlloc m)); [| exact Hlo].
        apply Ht. }
    split.
    - intros Hold. apply Hr in Hold. lia.
    - apply (bounded_tree_fresh _ (idAlloc m)); [apply Ht | exact Hlo]. }
  intros s. destruct (Hb s) as [Hr Ht].
  destruct (Hsc s) as (_ & _ & T3 & T4 & T5 & T6 & T7 & T8).
  cbv zeta in *. simpl in *.
  assert (Hle : idAlloc m <= idAlloc m3) by lia.
  unfold inRange64 in Hm.
  split.
  - intros la Hin. rewrite T6, T3 in Hin.
    apply elem_of_app in Hin as [Hin | Hin].
    + destruct (0 <? length (GetSpans ss SpanReadWrite s))%nat;
        [inversion Hin |].
      apply Hr in Hin. lia.
    + apply Hnew in Hin. lia.
  - intros a k la Hk. destruct a.
    + rewrite T7, T4 in Hk.
      destruct (0 <? length (GetSpans ss SpanReadWrite s))%nat.
      * apply flushed_bounded in Hk as [-> ?]; [| exact Hb].
        split; [reflexivity | lia].
      * apply Ht in Hk as [-> ?]. split; [reflexivity | lia].
    + rewrite T8, T5 in Hk.
      apply lookup_foldl_Set in Hk as [Hk | [Hk ->]].
      * apply Ht in Hk as [-> ?]. split; [reflexivity | lia].
      * split; [reflexivity |]. apply Hnew in Hk. lia.
Qed.

(** *** Cancellation and release *)

Lemma iterLoop_err e ts ignore visit st st' er :
  iterLoop e ts ignore visit st = (st', Some er) ->
  canceledWhileBlocked e st' er.
Proof.
  revert st. induction visit as [| la rest IH]; intros st; simpl.
  - discriminate.
  - destruct (signaled (wheap st) (done la)); [apply IH |].
    destruct (ignore ts (spanlatch.ts la)); [apply IH |].
    destruct (latchFirst e (done la)) eqn:Hsel; [apply IH |].
    intros [= <- <-]. split; [reflexivity |].
    exists la, (blockedOn st). by split.
Qed.

Lemma forEach_err {A} (body : A -> waitState -> waitState * option error) e l :
  (forall x st st' er, body x st = (st', Some er) -> canceledWhileBlocked e st' er) ->
  forall st st' er,
    forEach body l st = (st', Some er) -> canceledWhileBlocked e st' er.
Proof.
  intros Hbody. induction l as [| x rest IH]; intros st st' er; simpl.
  - discriminate.
  - destruct (body x st) as [st1 [er1 |]] eqn:Hx.
    + intros [= <- <-]. by eapply Hbody.
    + apply IH.
Qed.

Lemma wait_err e lg ts snap st st' er :
  wait e lg ts snap st = (st', Some er) -> canceledWhileBlocked e st' er.
Proof.
  unfold wait. apply forEach_err. intros s st1 st1' er1.
  apply forEach_err. intros a st2 st2' er2.
  apply forEach_err. intros la st3 st3' er3.
  unfold waitLatch, iterAndWait. destruct a.
  - apply iterLoop_err.
  - destruct (iterLoop e ts ignoreNothing _ st3) as [st4 [er4 |]] eqn:H1.
    + intros [= <- <-]. by eapply iterLoop_err.
    + apply iterLoop_err.
Qed.

Lemma elem_of_remove ll la x : x ∈ remove ll la -> x ∈ ll.
Proof.
  induction ll as [| y rest IH]; simpl; [done |].
  destruct (decide (y = la)).
  - intros. by right.
  - intros [-> | H]%elem_of_cons; [by left | right; auto].
Qed.

Lemma NoDup_remove ll la : NoDup ll -> NoDup (remove ll la) /\ la ∉ remove ll la.
Proof.
  induction ll as [| y rest IH]; simpl; intros Hnd.
  - split; [constructor | apply not_elem_of_nil].
  - pose proof (NoDup_cons_1_1 _ _ Hnd) as Hy.
    apply NoDup_cons_1_2 in Hnd.
    destruct (decide (y = la)) as [-> | Hne]; [by split |].
    destruct (IH Hnd) as [IH1 IH2]. split.
    + apply NoDup_cons_2; [| exact IH1].
      intros Hin. apply Hy. by eapply elem_of_remove.
    + intros [-> | H]%elem_of_cons; [congruence | contradiction].
Qed.

Lemma shrinks_refl m : shrinks m m.
Proof. intros s. auto. Qed.

Lemma shrinks_trans m1 m2 m3 : shrinks m1 m2 -> shrinks m2 m3 -> shrinks m1 m3.
Proof.
  intros H12 H23 s. destruct (H12 s) as (A1 & A2 & A3).
  destruct (H23 s) as (B1 & B2 & B3). auto 10.
Qed.

Lemma removeLatch_shrinks s a m la : shrinks m (removeLatch s a m la).
Proof.
  intros s'. unfold removeLatch. simpl.
  destruct (decide (s' = s)) as [-> | Hne];
    [rewrite fn_lookup_insert | rewrite fn_lookup_insert_ne by congruence; auto].
  destruct (inReadSet (readSet (scopes m s)) la); simpl.
  - split; [intros x; apply elem_of_remove |].
    split; [intros Hnd; by apply NoDup_remove | auto].
  - split; [auto |]. split; [auto |].
    intros a' k Hk. destruct (decide (a' = a)) as [-> | Ha].
    + rewrite fn_lookup_insert. unfold Delete.
      destruct (decide (keyOf la = k)) as [<- | Hk'].
      * apply lookup_delete_eq.
      * by rewrite lookup_delete_ne.
    + by rewrite fn_lookup_insert_ne.
Qed.

Lemma removeLatch_unlinked s a m la :
  NoDup (readSet (scopes m s)) ->
  (la ∈ readSet (scopes m s) -> trees (scopes m s) a !! keyOf la = None) ->
  unlinked (removeLatch s a m la) s a la.
Proof.
  intros Hnd Hex. unfold unlinked, removeLatch. simpl.
  rewrite fn_lookup_insert. unfold inReadSet.
  destruct (bool_decide (la ∈ readSet (scopes m s))) eqn:Hin; simpl.
  - apply bool_decide_eq_true in Hin.
    split; [by apply NoDup_remove | auto].
  - apply bool_decide_eq_false in Hin. split; [exact Hin |].
    rewrite fn_lookup_insert. apply lookup_delete_eq.
Qed.

Lemma unlinked_shrinks m m' s a la :
  shrinks m m' -> unlinked m s a la -> unlinked m' s a la.
Proof.
  intros Hs [H1 H2]. destruct (Hs s) as (A1 & _ & A3). split; auto.
Qed.

Lemma removeLocked_flat m lg :
  removeLocked m lg
  = foldl (fun m x => removeLatch x.1.1 x.1.2 m x.2) m (guardLatches lg).
Proof.
  unfold removeLocked, guardLatches, allScopes, allAccesses.
  cbn [foldl mbind list_bind app]. rewrite !app_nil_r.
  rewrite !foldl_app, !foldl_fmap. reflexivity.
Qed.

Lemma elem_of_guardLatches lg s a la :
  (s, a, la) ∈ guardLatches lg <-> la ∈ latches lg s a.
Proof.
  unfold guardLatches, allScopes, allAccesses.
  cbn [mbind list_bind app]. rewrite !app_nil_r, !elem_of_app, !list_elem_of_fmap.
  split.
  - intros [[(x & [= -> -> ->] & H) | (x & [= -> -> ->] & H)]
           | [(x & [= -> -> ->] & H) | (x & [= -> -> ->] & H)]]; exact H.
  - intros H. destruct s, a; eauto 6.
Qed.

(** Removing a list of latches one after the other unlinks all of
    them, when none of them is linked twice to begin with. *)
Lemma removeAll_unlinked (l : list (SpanScope * SpanAccess * latch)) m :
  (forall s, NoDup (readSet (scopes m s))) ->
  (forall s a la, (s, a, la) ∈ l -> la ∈ readSet (scopes m s) ->
                  trees (scopes m s) a !! keyOf la = None) ->
  let m' := foldl (fun m x => removeLatch x.1.1 x.1.2 m x.2) m l in
  shrinks m m'
  /\ mu m' = mu m /\ idAlloc m' = idAlloc m
  /\ forall s a la, (s, a, la) ∈ l -> unlinked m' s a la.
Proof.
  cbv zeta. revert m. induction l as [| [[s a] la] rest IH]; intros m Hnd Hex.
  - simpl. split; [apply shrinks_refl |]. split; [reflexivity |].
    split; [reflexivity |]. intros s a la H. inversion H.
  - cbn [foldl fst snd].
    pose proof (removeLatch_shrinks s a m la) as Hs1.
    set (m1 := removeLatch s a m la) in *.
    destruct (IH m1) as (Hs2 & Hmu & Hid & Hall).
    { intros s'. destruct (Hs1 s') as (_ & A2 & _). auto. }
    { intros s' a' la' Hin Hrs. destruct (Hs1 s') as (A1 & _ & A3).
      apply A3, (Hex s' a' la'); [by right | auto]. }
    split; [by eapply shrinks_trans |].
    split; [rewrite Hmu; reflexivity |]. split; [rewrite Hid; reflexivity |].
    intros s' a' la' [[= -> -> ->] | Hin]%elem_of_cons; [| by apply Hall].
    eapply unlinked_shrinks; [exact Hs2 |].
    apply removeLatch_unlinked; [apply Hnd |].
    apply Hex. by left.
Qed.

(** What [Release] does to a guard none of whose latches is linked
    twice. *)
Lemma Release_spec h m lg :
  linkedOnce m lg ->
  let r := Release h m lg in
  fired r.1 = {[gdone lg]} ∪ fired h
  /\ mu r.2 = false /\ idAlloc r.2 = idAlloc m
  /\ shrinks m r.2
  /\ forall s a la, la ∈ latches lg s a -> unlinked r.2 s a la.
Proof.
  intros Hl. cbv zeta. unfold Release. simpl.
  rewrite removeLocked_flat.
  destruct (removeAll_unlinked (guardLatches lg) (Lock m))
    as (Hs & Hmu & Hid & Hall).
  { intros s. apply (Hl s). }
  { intros s a la Hin. apply (Hl s). by apply elem_of_guardLatches. }
  split; [reflexivity |]. split; [reflexivity |]. split; [exact Hid |].
  split; [exact Hs |].
  intros s a la Hin. apply (Hall s a la). by apply elem_of_guardLatches.
Qed.

Lemma sequence_done h m ss ts h1 m1 lg snap :
  sequence h m ss ts = Some (h1, m1, lg, snap) ->
  forall s a la, la ∈ latches lg s a -> done la = gdone lg.
Proof.
  intros Hseq s a la Hin.
  destruct (sequence_steps h m ss ts)
    as (lg0 & m2 & m3 & lg' & snap' & _ & _ & _ & E & Hd & _ & _ & _ & Hl & _).
  rewrite E in Hseq. injection Hseq as _ _ <- _.
  rewrite Hl in Hin. apply list_elem_of_lookup in Hin as [i Hi].
  apply lookup_assignIDs in Hi as (la0 & Hla0 & ->).
  apply list_elem_of_lookup_2, list_elem_of_fmap in Hla0 as (sp & -> & _).
  simpl. by rewrite Hd.
Qed.

(** C4.  If the context is done while [Acquire] is blocked on an
    overlapping latch, [wait] returns the error of the context, and
    [Acquire] calls [Release] on its guard and returns a nil guard
    with that error.  [Release] fires the [done] signal of the guard,
    which all its latches share, and with the mutex held unlinks every
    latch of the guard: afterwards none of them is in the read set of
    its scope or in the tree of its access, and the mutex is free. *)
Theorem Acquire_canceled (e : env) (others : Manager -> Manager) (h : heap)
    (m : Manager) (ss : SpanSet) (ts : Timestamp)
    (h1 : heap) (m1 : Manager) (lg : Guard) (snap : snapshot)
    (st : waitState) (er : error) :
  sequence h m ss ts = Some (h1, m1, lg, snap) ->
  wait e lg ts snap {| wheap := h1; blockedOn := [] |} = (st, Some er) ->
  linkedOnce (others m1) lg ->
  exists h2 m2 w rest,
    Release (wheap st) (others m1) lg = (h2, m2)
    /\ Acquire e others h m ss ts = Some (h2, m2, (None, Some er), blockedOn st)
    /\ er = ctxErr e
    /\ blockedOn st = w :: rest /\ latchFirst e (done w) = false
    /\ signaled h2 (gdone lg) = true
    /\ (forall s a la, la ∈ latches lg s a ->
                       done la = gdone lg /\ signaled h2 (done la) = true)
    /\ mu m2 = false
    /\ (forall s a la, la ∈ latches lg s a ->
                       (la ∉ readSet (scopes m2 s))
                       /\ trees (scopes m2 s) a !! keyOf la = None).
Proof.
  intros Hseq Hwait Hl.
  pose proof (Release_spec (wheap st) (others m1) lg Hl) as Hrel. cbv zeta in Hrel.
  destruct (Release (wheap st) (others m1) lg) as [h2 m2] eqn:Erel. simpl in Hrel.
  destruct Hrel as (Hf & Hmu & _ & _ & Hun).
  destruct (wait_err _ _ _ _ _ _ _ Hwait) as (Her & w & rest & Hb & Hsel).
  assert (Hsig : signaled h2 (gdone lg) = true).
  { unfold signaled. apply bool_decide_eq_true. rewrite Hf.
    apply elem_of_union_l. by apply elem_of_singleton. }
  exists h2, m2, w, rest.
  split; [reflexivity |].
  split; [unfold Acquire; rewrite Hseq, Hwait, Erel; reflexivity |].
  split; [exact Her |]. split; [exact Hb |]. split; [exact Hsel |].
  split; [exact Hsig |].
  split.
  { intros s a la Hin. rewrite (sequence_done _ _ _ _ _ _ _ _ Hseq s a la Hin).
    by split. }
  split; [exact Hmu |].
  intros s a la Hin. apply (Hun s a la Hin).
Qed.

(** *** Granting, releasing and what is left behind *)

Lemma accounted_refl st : accounted st st.
Proof. exists []. split; [reflexivity |]. split; [set_solver | auto]. Qed.

Lemma accounted_trans st1 st2 st3 :
  accounted st1 st2 -> accounted st2 st3 -> accounted st1 st3.
Proof.
  intros (n1 & B1 & F1 & O1) (n2 & B2 & F2 & O2).
  exists (n2 ++ n1). split; [rewrite B2, B1; by rewrite app_assoc |].
  split; [set_solver |].
  intros p Hp. destruct (O2 p Hp) as [Hp2 | (w & Hw & Hd)].
  - destruct (O1 p Hp2) as [Hp1 | (w & Hw & Hd)]; [by left |].
    right. exists w. split; [| exact Hd]. apply elem_of_app. by right.
  - right. exists w. split; [| exact Hd]. apply elem_of_app. by left.
Qed.

Lemma waitedFor_accounted ign visit st st' err :
  waitedFor ign visit st st' err -> accounted st st'.
Proof.
  intros (new & Hb & _ & Hmono & Honly & _). exists new. auto.
Qed.

Lemma forEach_accounted {A} (body : A -> waitState -> waitState * option error) l :
  (forall x st, x ∈ l -> accounted st (body x st).1) ->
  forall st, accounted st (forEach body l st).1.
Proof.
  induction l as [| x rest IH]; intros Hbody st; simpl.
  - apply accounted_refl.
  - pose proof (Hbody x st ltac:(by left)) as Hx.
    destruct (body x st) as [st' [err |]]; simpl in *; [exact Hx |].
    eapply accounted_trans; [exact Hx |].
    apply IH. intros y st0 Hy. apply Hbody. by right.
Qed.

Lemma waitLatch_accounted e ts tr a la st :
  accounted st (waitLatch e ts tr a la st).1.
Proof.
  destruct a; simpl.
  - eapply waitedFor_accounted, iterAndWait_waitedFor.
  - pose proof (iterAndWait_waitedFor e (tr SpanReadWrite) la ts ignoreNothing st) as H1.
    apply waitedFor_accounted in H1.
    destruct (iterAndWait e (tr SpanReadWrite) la ts ignoreNothing st)
      as [st1 [err |]]; simpl in *; [exact H1 |].
    eapply accounted_trans; [exact H1 |].
    eapply waitedFor_accounted, iterAndWait_waitedFor.
Qed.

Lemma wait_accounted e lg ts snap st :
  accounted st (wait e lg ts snap st).1.
Proof.
  unfold wait. apply forEach_accounted. intros s st1 _.
  apply forEach_accounted. intros a st2 _.
  apply forEach_accounted. intros la st3 _.
  apply waitLatch_accounted.
Qed.

(** A loop that ends without error has run its body, without error,
    for every element; what a body has seen still holds at the end if
    nothing that follows can undo it. *)
Lemma forEach_done {A} (body : A -> waitState -> waitState * option error)
    (Q : A -> waitState -> Prop) l :
  (forall x st st', x ∈ l -> body x st = (st', None) -> Q x st') ->
  (forall x st, fired (wheap st) ⊆ fired (wheap (body x st).1)) ->
  (forall x st st', Q x st -> fired (wheap st) ⊆ fired (wheap st') -> Q x st') ->
  forall st st',
    forEach body l st = (st', None) ->
    fired (wheap st) ⊆ fired (wheap st') /\ forall x, x ∈ l -> Q x st'.
Proof.
  intros Hbody Hmono Hkeep.
  induction l as [| x rest IH]; intros st st'; simpl.
  - intros [= <-]. split; [done |]. intros x Hx. by apply elem_of_nil in Hx.
  - pose proof (Hmono x st) as Hm.
    destruct (body x st) as [st1 [err |]] eqn:Hx; [discriminate |].
    intros Hrest. simpl in Hm.
    destruct IH with (st := st1) (st' := st') as [Hm' Hall].
    + intros y st0 st0' Hy. apply Hbody. by right.
    + exact Hrest.
    + split; [by etrans |].
      intros y Hy. apply elem_of_cons in Hy as [-> | Hy]; [| by apply Hall].
      eapply Hkeep; [| exact Hm']. eapply Hbody; [by left | exact Hx].
Qed.

Lemma released_mono snap ts s a la st st' :
  released snap ts s a la st ->
  fired (wheap st) ⊆ fired (wheap st') ->
  released snap ts s a la st'.
Proof.
  destruct a; simpl.
  - intros Hr Hsub w Hw Hi. apply Hsub. by apply Hr.
  - intros [Hr1 Hr2] Hsub. split.
    + intros w Hw. apply Hsub. by apply Hr1.
    + intros w Hw Hi. apply Hsub. by apply Hr2.
Qed.

Lemma waitLatch_released e ts snap s a la st st' :
  waitLatch e ts (snapTrees snap s) a la st = (st', None) ->
  released snap ts s a la st'.
Proof.
  destruct a; simpl.
  - intros Hw.
    pose proof (iterAndWait_waitedFor e (snapTrees snap s SpanReadWrite) la ts
                  ignoreLater st) as (new & _ & _ & _ & _ & Hdone).
    rewrite Hw in Hdone. simpl in Hdone. intros w Hin Hi. by apply Hdone.
  - pose proof (iterAndWait_waitedFor e (snapTrees snap s SpanReadWrite) la ts
                  ignoreNothing st) as (new1 & _ & _ & _ & _ & Hdone1).
    destruct (iterAndWait e (snapTrees snap s SpanReadWrite) la ts ignoreNothing st)
      as [st1 [err |]] eqn:H1; [discriminate |].
    intros Hw.
    pose proof (iterAndWait_waitedFor e (snapTrees snap s SpanReadOnly) la ts
                  ignoreEarlier st1) as (new2 & _ & _ & Hmono2 & _ & Hdone2).
    rewrite Hw in Hdone2, Hmono2. simpl in *. split.
    + intros w Hin. apply Hmono2. by apply Hdone1.
    + intros w Hin Hi. by apply Hdone2.
Qed.

Lemma accounted_mono st st' : accounted st st' -> fired (wheap st) ⊆ fired (wheap st').
Proof. by intros (new & _ & Hm & _). Qed.

Lemma wait_released e lg ts snap st st' :
  wait e lg ts snap st = (st', None) ->
  forall s a la, la ∈ latches lg s a -> released snap ts s a la st'.
Proof.
  unfold wait. intros Hw.
  apply (forEach_done _
           (fun s st' => forall a la, la ∈ latches lg s a -> released snap ts s a la st'))
    in Hw as [_ Hall].
  - intros s a la. apply Hall. destruct s; set_solver.
  - intros s st1 st1' _ Hs.
    apply (forEach_done _
             (fun a st' => forall la, la ∈ latches lg s a -> released snap ts s a la st'))
      in Hs as [_ Hall].
    + intros a. apply Hall. destruct a; set_solver.
    + intros a st2 st2' _ Ha.
      apply (forEach_done _ (fun la st' => released snap ts s a la st'))
        in Ha as [_ Hall]; [exact Hall | | |].
      * intros la st3 st3' _. apply waitLatch_released.
      * intros la st3. apply accounted_mono, waitLatch_accounted.
      * intros la st3 st3'. apply released_mono.
    + intros a st2. apply accounted_mono, forEach_accounted.
      intros la st3 _. apply waitLatch_accounted.
    + intros a st2 st2' Hq Hsub la Hla. eapply released_mono; [by apply Hq | exact Hsub].
  - intros s st1. apply accounted_mono, forEach_accounted. intros a st2 _.
    apply forEach_accounted. intros la st3 _. apply waitLatch_accounted.
  - intros s st1 st1' Hq Hsub a la Hla. eapply released_mono; [by apply Hq | exact Hsub].
Qed.

(** X10.  When [Acquire] returns a guard, every latch of the snapshot that
    overlaps one of the guard's latches and that the timestamps do not
    let it ignore has been released; and each of these signals had fired
    before the wait began, or is the signal of a latch the call has
    blocked on. *)
Theorem Acquire_granted (e : env) (others : Manager -> Manager) (h : heap)
    (m : Manager) (ss : SpanSet) (ts : Timestamp)
    (h1 : heap) (m1 : Manager) (lg : Guard) (snap : snapshot) (st : waitState) :
  sequence h m ss ts = Some (h1, m1, lg, snap) ->
  wait e lg ts snap {| wheap := h1; blockedOn := [] |} = (st, None) ->
  Acquire e others h m ss ts
  = Some (wheap st, others m1, (Some lg, None), blockedOn st)
  /\ (forall s a la, la ∈ latches lg s a -> released snap ts s a la st)
  /\ fired h1 ⊆ fired (wheap st)
  /\ (forall p, p ∈ fired (wheap st) ->
                p ∈ fired h1 \/ exists w, w ∈ blockedOn st /\ done w = p).
Proof.
  intros Hseq Hwait. split.
  - unfold Acquire. rewrite Hseq, Hwait. reflexivity.
  - split; [exact (wait_released _ _ _ _ _ _ Hwait) |].
    pose proof (wait_accounted e lg ts snap {| wheap := h1; blockedOn := [] |})
      as (new & Hb & Hm & Ho).
    rewrite Hwait in Hb, Hm, Ho. simpl in Hb, Hm, Ho.
    rewrite app_nil_r in Hb. subst new. split; [exact Hm | exact Ho].
Qed.

Lemma forEach_skip {A} (body : A -> waitState -> waitState * option error) l st :
  (forall x st, x ∈ l -> body x st = (st, None)) ->
  forEach body l st = (st, None).
Proof.
  induction l as [| x rest IH]; intros Hbody; simpl; [reflexivity |].
  rewrite Hbody by (by left). apply IH. intros y st0 Hy. apply Hbody. by right.
Qed.

Lemma overlapping_nil (t : btree) la :
  (forall k w, t !! k = Some w -> Overlaps (span w) (span la) = false) ->
  overlapping t la = [].
Proof.
  intros Hno. destruct (overlapping t la) as [| w rest] eqn:Ho; [reflexivity |].
  assert (Hin : w ∈ overlapping t la) by (rewrite Ho; by left).
  destruct (overlapping_lookup _ _ _ Hin) as [k Hk].
  unfold overlapping in Hin. apply list_elem_of_filter in Hin as [Hov _].
  rewrite (Hno k w Hk) in Hov. discriminate.
Qed.

Lemma flushed_holds sm k w :
  flushed sm !! k = Some w ->
  trees sm SpanReadOnly !! k = Some w \/ w ∈ readSet sm.
Proof.
  unfold flushed. intros Hl. apply lookup_foldl_Set in Hl as [Hl | [Hl _]]; auto.
Qed.

(** The latches of the guard that [sequence] returns span the declared
    spans. *)
Lemma sequence_spans h m ss ts h1 m1 lg snap s a la :
  sequence h m ss ts = Some (h1, m1, lg, snap) ->
  la ∈ latches lg s a -> span la ∈ GetSpans ss a s.
Proof.
  intros Hseq Hla.
  destruct (sequence_steps h m ss ts)
    as (lg0 & m2 & m3 & lg' & snap' & _ & _ & _ & Hs & _ & _ & _ & _ & Hl & _).
  rewrite Hseq in Hs. injection Hs as _ _ <- _.
  rewrite Hl in Hla. apply list_elem_of_lookup in Hla as [i Hi].
  apply lookup_assignIDs in Hi as (la0 & Hi & ->).
  rewrite list_lookup_fmap in Hi.
  destruct (GetSpans ss a s !! i) as [sp |] eqn:Hsp; [| discriminate].
  injection Hi as <-. cbn. eapply list_elem_of_lookup_2. exact Hsp.
Qed.

(** The snapshot that [sequence] takes holds only latches that the
    manager held. *)
Lemma sequence_snapshot_holds h m ss ts h1 m1 lg snap s a k w :
  sequence h m ss ts = Some (h1, m1, lg, snap) ->
  snapTrees snap s a !! k = Some w -> holds m s w.
Proof.
  intros Hseq Hw.
  destruct (sequence_steps h m ss ts)
    as (lg0 & m2 & m3 & lg' & snap' & _ & _ & _ & Hs & _ & _ & _ & Hsn & _).
  rewrite Hseq in Hs. injection Hs as _ _ _ <-.
  destruct (Hsn s) as (Hro & Hrw & _).
  destruct a.
  - rewrite Hro in Hw.
    destruct (0 <? length (GetSpans ss SpanReadWrite s))%nat;
      [| unfold emptyTree in Hw; by rewrite lookup_empty in Hw].
    apply flushed_holds in Hw as [Hw | Hw]; [right; eauto | by left].
  - rewrite Hrw in Hw.
    destruct ((0 <? length (GetSpans ss SpanReadWrite s))%nat
              || (0 <? length (GetSpans ss SpanReadOnly s))%nat);
      [right; eauto | unfold emptyTree in Hw; by rewrite lookup_empty in Hw].
Qed.

(** X11.  If no latch that the manager holds overlaps a span that the caller
    declares in the same scope, [Acquire] returns a guard without
    blocking on anything, whatever becomes of the context. *)
Theorem Acquire_no_overlap (e : env) (others : Manager -> Manager) (h : heap)
    (m : Manager) (ss : SpanSet) (ts : Timestamp) :
  (forall s a sp w,
      sp ∈ GetSpans ss a s -> holds m s w -> Overlaps (span w) sp = false) ->
  exists h1 m1 lg snap,
    sequence h m ss ts = Some (h1, m1, lg, snap)
    /\ Acquire e others h m ss ts = Some (h1, others m1, (Some lg, None), []).
Proof.
  intros Hno.
  destruct (sequence_steps h m ss ts)
    as (lg0 & m2 & m3 & lg & snap & _ & _ & _ & Hseq & _).
  eexists _, _, lg, snap. split; [exact Hseq |].
  unfold Acquire. rewrite Hseq.
  assert (Hw : forall st, wait e lg ts snap st = (st, None)).
  { intros st. unfold wait.
    apply forEach_skip. intros s st1 _.
    apply forEach_skip. intros a st2 _.
    apply forEach_skip. intros la st3 Hla.
    assert (Hnil : forall a', overlapping (snapTrees snap s a') la = []).
    { intros a'. apply overlapping_nil. intros k w Hk.
      eapply Hno.
      - eapply sequence_spans; [exact Hseq | exact Hla].
      - eapply sequence_snapshot_holds; [exact Hseq | exact Hk]. }
    destruct a; unfold waitLatch, iterAndWait; rewrite ?Hnil; reflexivity. }
  rewrite Hw. reflexivity.
Qed.

Lemma elem_of_remove_ne ll (la x : latch) : x ∈ ll -> x <> la -> x ∈ remove ll la.
Proof.
  induction ll as [| y rest IH]; intros Hin Hne; [by apply elem_of_nil in Hin |].
  cbn [remove]. destruct (decide (y = la)) as [-> | Hy].
  - apply elem_of_cons in Hin as [-> | Hin]; [contradiction | exact Hin].
  - apply elem_of_cons in Hin as [-> | Hin]; [by left | right; auto].
Qed.

Lemma removeLatch_keeps s a m la : keepsBut [(s, a, la)] m (removeLatch s a m la).
Proof.
  unfold removeLatch. split.
  - intros s' x Hx Hgone. cbn [scopes setScope].
    destruct (decide (s' = s)) as [-> | Hne];
      [rewrite fn_lookup_insert | by rewrite fn_lookup_insert_ne by congruence].
    destruct (inReadSet (readSet (scopes m s)) la); cbn [readSet]; [| exact Hx].
    apply elem_of_remove_ne; [exact Hx |].
    intros ->. apply (Hgone a). by left.
  - intros s' a' k x Hk Hgone. cbn [scopes setScope].
    destruct (decide (s' = s)) as [-> | Hne];
      [rewrite fn_lookup_insert | by rewrite fn_lookup_insert_ne by congruence].
    destruct (inReadSet (readSet (scopes m s)) la); cbn [trees]; [exact Hk |].
    destruct (decide (a' = a)) as [-> | Ha];
      [rewrite fn_lookup_insert | by rewrite fn_lookup_insert_ne by congruence].
    unfold Delete. rewrite lookup_delete_ne; [exact Hk |].
    apply (Hgone la). by left.
Qed.

Lemma keepsBut_trans g1 g2 m1 m2 m3 :
  keepsBut g1 m1 m2 -> keepsBut g2 m2 m3 -> keepsBut (g1 ++ g2) m1 m3.
Proof.
  intros [R1 T1] [R2 T2]. split.
  - intros s x Hx Hgone. apply R2; [apply R1; [exact Hx |] |];
      intros a Hin; apply (Hgone a), elem_of_app; auto.
  - intros s a k x Hk Hgone. apply T2; [apply T1; [exact Hk |] |];
      intros la Hin; apply (Hgone la), elem_of_app; auto.
Qed.

Lemma removeAll_keeps (l : list (SpanScope * SpanAccess * latch)) m :
  keepsBut l m (foldl (fun m x => removeLatch x.1.1 x.1.2 m x.2) m l).
Proof.
  revert m. induction l as [| [[s a] la] rest IH]; intros m.
  - cbn. split; auto.
  - cbn [foldl fst snd].
    apply (keepsBut_trans [(s, a, la)] rest _ (removeLatch s a m la));
      [apply removeLatch_keeps | apply IH].
Qed.

(** X12.  [Release] fires the signal of the guard and no other, frees the
    mutex, leaves the id counter alone, links no latch, and removes no
    latch but those of the guard: a latch of a read set that is not a
    latch of the guard stays in it, and so does the entry of a tree
    whose key is not that of a latch of the guard. *)
Theorem Release_keeps_others (h : heap) (m : Manager) (lg : Guard) :
  let r := Release h m lg in
  fired r.1 = {[gdone lg]} ∪ fired h
  /\ nextAddr r.1 = nextAddr h
  /\ mu r.2 = false /\ idAlloc r.2 = idAlloc m
  /\ shrinks m r.2
  /\ (forall s x, x ∈ readSet (scopes m s) ->
                  (forall a, x ∉ latches lg s a) ->
                  x ∈ readSet (scopes r.2 s))
  /\ (forall s a k x, trees (scopes m s) a !! k = Some x ->
                      (forall la, la ∈ latches lg s a -> keyOf la <> k) ->
                      trees (scopes r.2 s) a !! k = Some x).
Proof.
  cbv zeta. unfold Release. cbn [fst snd fired nextAddr signal mu Unlock idAlloc scopes].
  rewrite removeLocked_flat.
  destruct (removeAll_keeps (guardLatches lg) (Lock m)) as [R T].
  split; [reflexivity |]. split; [reflexivity |]. split; [reflexivity |].
  split.
  { generalize (guardLatches lg) (Lock m) (eq_refl : idAlloc (Lock m) = idAlloc m).
    intros l. induction l as [| [[s a] la] rest IH]; intros m0 Hm0; [exact Hm0 |].
    cbn [foldl]. apply IH. exact Hm0. }
  split.
  { assert (Hs : forall l m0, shrinks m0 (foldl (fun m x => removeLatch x.1.1 x.1.2 m x.2) m0 l)).
    { intros l. induction l as [| [[s a] la] rest IH]; intros m0; [apply shrinks_refl |].
      cbn [foldl]. eapply shrinks_trans; [apply removeLatch_shrinks | apply IH]. }
    exact (Hs (guardLatches lg) (Lock m)). }
  split.
  - intros s x Hx Hno. apply R; [exact Hx |].
    intros a Hin. apply elem_of_guardLatches in Hin. exact (Hno a Hin).
  - intros s a k x Hk Hno. apply T; [exact Hk |].
    intros la Hin. apply elem_of_guardLatches in Hin. exact (Hno la Hin).
Qed.

Lemma remove_app_fresh (rs rest : latchList) la :
  la ∉ rs -> remove (rs ++ la :: rest) la = rs ++ rest.
Proof.
  induction rs as [| x rs IH]; intros Hno; cbn [remove app].
  - by rewrite decide_True.
  - rewrite decide_False by (intros ->; apply Hno; by left).
    rewrite IH; [reflexivity |]. intros Hin. apply Hno. by right.
Qed.

(** Removing the read latches [ro] that sit at the back of the read
    set takes them out again. *)
Lemma removeReads s ro : forall m rs,
  readSet (scopes m s) = rs ++ ro ->
  (forall la, la ∈ ro -> la ∉ rs) ->
  let m' := foldl (removeLatch s SpanReadOnly) m ro in
  readSet (scopes m' s) = rs
  /\ trees (scopes m' s) = trees (scopes m s)
  /\ (forall s', s' <> s -> scopes m' s' = scopes m s')
  /\ mu m' = mu m /\ idAlloc m' = idAlloc m.
Proof.
  induction ro as [| la rest IH]; intros m rs Hrs Hfresh; cbn [foldl].
  - rewrite app_nil_r in Hrs. auto.
  - set (m1 := removeLatch s SpanReadOnly m la).
    assert (Hin : inReadSet (readSet (scopes m s)) la = true).
    { apply bool_decide_eq_true. rewrite Hrs. apply elem_of_app. right. by left. }
    assert (H1 : readSet (scopes m1 s) = rs ++ rest
                 /\ trees (scopes m1 s) = trees (scopes m s)).
    { unfold m1, removeLatch. cbn [scopes setScope]. rewrite fn_lookup_insert, Hin.
      cbn [readSet trees]. split; [| reflexivity].
      rewrite Hrs. apply remove_app_fresh. apply Hfresh. by left. }
    destruct H1 as [H1 H2].
    destruct (IH m1 rs H1) as (I1 & I2 & I3 & I4 & I5).
    { intros x Hx. apply Hfresh. by right. }
    split; [exact I1 |]. split; [congruence |].
    split; [| split; [exact I4 | exact I5]].
    intros s' Hs'. rewrite I3 by exact Hs'.
    unfold m1, removeLatch. cbn [scopes setScope]. by rewrite fn_lookup_insert_ne.
Qed.

(** Removing write latches that are not in the read set deletes them
    from the read-write tree. *)
Lemma removeWrites s rw : forall m,
  (forall la, la ∈ rw -> la ∉ readSet (scopes m s)) ->
  let m' := foldl (removeLatch s SpanReadWrite) m rw in
  readSet (scopes m' s) = readSet (scopes m s)
  /\ trees (scopes m' s) SpanReadOnly = trees (scopes m s) SpanReadOnly
  /\ trees (scopes m' s) SpanReadWrite
     = foldl Delete (trees (scopes m s) SpanReadWrite) rw
  /\ (forall s', s' <> s -> scopes m' s' = scopes m s')
  /\ mu m' = mu m /\ idAlloc m' = idAlloc m.
Proof.
  induction rw as [| la rest IH]; intros m Hfresh; cbn [foldl].
  - auto 10.
  - set (m1 := removeLatch s SpanReadWrite m la).
    assert (Hin : inReadSet (readSet (scopes m s)) la = false).
    { apply bool_decide_eq_false. apply Hfresh. by left. }
    assert (H1 : readSet (scopes m1 s) = readSet (scopes m s)
                 /\ trees (scopes m1 s) SpanReadOnly = trees (scopes m s) SpanReadOnly
                 /\ trees (scopes m1 s) SpanReadWrite
                    = Delete (trees (scopes m s) SpanReadWrite) la).
    { unfold m1, removeLatch. cbn [scopes setScope]. rewrite fn_lookup_insert, Hin.
      cbn [readSet trees]. split; [reflexivity |].
      rewrite fn_lookup_insert_ne by discriminate. by rewrite fn_lookup_insert. }
    destruct H1 as (H1 & H2 & H3).
    destruct (IH m1) as (I1 & I2 & I3 & I4 & I5 & I6).
    { intros x Hx. rewrite H1. apply Hfresh. by right. }
    split; [congruence |]. split; [congruence |].
    split; [rewrite I3, H3; reflexivity |].
    split; [| split; [exact I5 | exact I6]].
    intros s' Hs'. rewrite I4 by exact Hs'.
    unfold m1, removeLatch. cbn [scopes setScope]. by rewrite fn_lookup_insert_ne.
Qed.

Lemma lookup_foldl_Delete (t : btree) ls k :
  foldl Delete t ls !! k = if decide (k ∈ keyOf <$> ls) then None else t !! k.
Proof.
  revert t. induction ls as [| la rest IH]; intros t; cbn [foldl fmap list_fmap].
  - rewrite decide_False; [reflexivity | apply not_elem_of_nil].
  - rewrite IH. unfold Delete.
    destruct (decide (k ∈ keyOf <$> rest)) as [Hin | Hno].
    + rewrite decide_True; [reflexivity | by right].
    + destruct (decide (k = keyOf la)) as [-> | Hk].
      * rewrite decide_True by (by left). apply lookup_delete_eq.
      * rewrite decide_False.
        -- by rewrite lookup_delete_ne.
        -- intros [-> | Hin]%elem_of_cons; contradiction.
Qed.

Lemma lookup_foldl_Set_ne (t : btree) ls k :
  k ∉ keyOf <$> ls -> foldl Set_ t ls !! k = t !! k.
Proof.
  revert t. induction ls as [| la rest IH]; intros t Hk; cbn [foldl]; [reflexivity |].
  cbn [fmap list_fmap] in Hk. apply not_elem_of_cons in Hk as [Hne Hk].
  rewrite IH by exact Hk. unfold Set_. by rewrite lookup_insert_ne.
Qed.

(** Deleting the latches that have just been put into a tree gives
    the tree back, when none of their keys was in it. *)
Lemma Delete_Set_all (t : btree) ls :
  (forall la, la ∈ ls -> t !! keyOf la = None) ->
  foldl Delete (foldl Set_ t ls) ls = t.
Proof.
  intros Hfresh. apply map_eq. intros k. rewrite lookup_foldl_Delete.
  destruct (decide (k ∈ keyOf <$> ls)) as [Hin | Hno].
  - apply list_elem_of_fmap in Hin as (la & -> & Hla). symmetry. by apply Hfresh.
  - by apply lookup_foldl_Set_ne.
Qed.

(** What [removeLocked] does in scope [s] to the read latches [ro] at
    the back of the read set and the write latches [rw] in the
    read-write tree. *)
Lemma removeScope_spec (s : SpanScope) (m : Manager) (ro rw rs : list latch) (t : btree) :
  readSet (scopes m s) = rs ++ ro ->
  (forall la, la ∈ ro -> la ∉ rs) ->
  (forall la, la ∈ rw -> la ∉ rs) ->
  trees (scopes m s) SpanReadWrite = foldl Set_ t rw ->
  (forall la, la ∈ rw -> t !! keyOf la = None) ->
  let m' := foldl (removeLatch s SpanReadWrite)
              (foldl (removeLatch s SpanReadOnly) m ro) rw in
  readSet (scopes m' s) = rs
  /\ trees (scopes m' s) SpanReadOnly = trees (scopes m s) SpanReadOnly
  /\ trees (scopes m' s) SpanReadWrite = t
  /\ (forall s', s' <> s -> scopes m' s' = scopes m s')
  /\ mu m' = mu m /\ idAlloc m' = idAlloc m.
Proof.
  intros Hrs Hro Hrw Ht Hfresh. cbv zeta.
  destruct (removeReads s ro m rs Hrs Hro) as (R1 & R2 & R3 & R4 & R5).
  set (m1 := foldl (removeLatch s SpanReadOnly) m ro) in *.
  destruct (removeWrites s rw m1) as (W1 & W2 & W3 & W4 & W5 & W6).
  { intros la Hla. rewrite R1. by apply Hrw. }
  split; [congruence |]. split; [rewrite W2, R2; reflexivity |].
  split; [rewrite W3, R2, Ht; by apply Delete_Set_all |].
  split; [intros s' Hs'; rewrite W4, R3 by exact Hs'; reflexivity |].
  split; congruence.
Qed.

(** X13.  An acquisition that is released again leaves in the manager the
    latches it held before, and no other: the read sets and the trees
    are what the snapshot step made of them, that is, the read set of a
    scope flushed into its read-only tree where the caller declared
    write spans.  Only the id counter has moved on. *)
Theorem sequence_Release_restores (h : heap) (m : Manager) (ss : SpanSet)
    (ts : Timestamp) (h1 : heap) (m1 : Manager) (lg : Guard) (snap : snapshot) :
  idsBounded m ->
  inRange64 (idAlloc m) ->
  idAlloc m + Z.of_nat (countLatches ss) < 2 ^ 64 ->
  sequence h m ss ts = Some (h1, m1, lg, snap) ->
  (forall h',
      let r := Release h' m1 lg in
      mu r.2 = false
      /\ idAlloc r.2 = idAlloc m + Z.of_nat (countLatches ss)
      /\ forall s,
           let writing := (0 <? length (GetSpans ss SpanReadWrite s))%nat in
           readSet (scopes r.2 s) = (if writing then [] else readSet (scopes m s))
           /\ trees (scopes r.2 s) SpanReadOnly
              = (if writing then flushed (scopes m s)
                 else trees (scopes m s) SpanReadOnly)
           /\ trees (scopes r.2 s) SpanReadWrite = trees (scopes m s) SpanReadWrite)
  /\ (forall e st er,
        wait e lg ts snap {| wheap := h1; blockedOn := [] |} = (st, Some er) ->
        Acquire e (fun m => m) h m ss ts
        = Some ((Release (wheap st) m1 lg).1, (Release (wheap st) m1 lg).2,
                (None, Some er), blockedOn st)).
Proof.
  intros Hb Hm Hno Hseq.
  split; [| intros e st er Hw; unfold Acquire; rewrite Hseq, Hw; reflexivity].
  intros h'.
  destruct (sequence_steps h m ss ts)
    as (lg0 & m2 & m3 & lg' & snap' & _ & _ & _ & E & _ & _ & _ & Hsc & Hl & Hid & Hr).
  rewrite Hseq in E. injection E as -> -> <- <-.
  specialize (Hr Hm).
  assert (Hcount : idAlloc m3 = idAlloc m + Z.of_nat (countLatches ss)).
  { rewrite <- (uint64_small (idAlloc m3)) by auto. rewrite Hid.
    apply uint64_small. unfold inRange64 in *. lia. }
  assert (Hnew : forall s a la, la ∈ latches lg s a -> idAlloc m < id la).
  { intros s a la Hin. apply list_elem_of_lookup in Hin as [i Hi].
    rewrite Hl in Hi. eapply assigned_id in Hi as [-> _]; [lia | exact Hm | exact Hno]. }
  assert (Hrs : forall s a la, la ∈ latches lg s a -> la ∉ readSet (scopes m2 s)).
  { intros s a la Hin Hold. destruct (Hsc s) as (_ & _ & T3 & _).
    cbv zeta in T3. rewrite T3 in Hold.
    destruct (0 <? length (GetSpans ss SpanReadWrite s))%nat;
      [by apply elem_of_nil in Hold |].
    apply (Hb s) in Hold. apply Hnew in Hin. lia. }
  assert (Hfresh : forall s a la, la ∈ latches lg s a ->
                     trees (scopes m2 s) SpanReadWrite !! keyOf la = None).
  { intros s a la Hin. destruct (Hsc s) as (_ & _ & _ & _ & T5 & _).
    cbv zeta in T5. rewrite T5.
    apply (bounded_tree_fresh _ (idAlloc m)); [apply (Hb s) | by eapply Hnew]. }
  cbv zeta. unfold Release. cbn [fst snd mu Unlock idAlloc scopes].
  unfold removeLocked. cbn [foldl allScopes allAccesses].
  set (M0 := Lock (Unlock m3)).
  destruct (removeScope_spec SpanGlobal M0
              (latches lg SpanGlobal SpanReadOnly) (latches lg SpanGlobal SpanReadWrite)
              (readSet (scopes m2 SpanGlobal)) (trees (scopes m2 SpanGlobal) SpanReadWrite))
    as (G1 & G2 & G3 & G4 & G5 & G6).
  { destruct (Hsc SpanGlobal) as (_ & _ & _ & _ & _ & T6 & _). exact T6. }
  { intros la. apply Hrs. }
  { intros la. apply Hrs. }
  { destruct (Hsc SpanGlobal) as (_ & _ & _ & _ & _ & _ & _ & T8). exact T8. }
  { intros la. apply Hfresh. }
  set (M1 := foldl (removeLatch SpanGlobal SpanReadWrite)
               (foldl (removeLatch SpanGlobal SpanReadOnly) M0
                  (latches lg SpanGlobal SpanReadOnly))
               (latches lg SpanGlobal SpanReadWrite)) in *.
  destruct (removeScope_spec SpanLocal M1
              (latches lg SpanLocal SpanReadOnly) (latches lg SpanLocal SpanReadWrite)
              (readSet (scopes m2 SpanLocal)) (trees (scopes m2 SpanLocal) SpanReadWrite))
    as (L1 & L2 & L3 & L4 & L5 & L6).
  { rewrite G4 by discriminate.
    destruct (Hsc SpanLocal) as (_ & _ & _ & _ & _ & T6 & _). exact T6. }
  { intros la. apply Hrs. }
  { intros la. apply Hrs. }
  { rewrite G4 by discriminate.
    destruct (Hsc SpanLocal) as (_ & _ & _ & _ & _ & _ & _ & T8). exact T8. }
  { intros la. apply Hfresh. }
  split; [reflexivity |].
  split; [rewrite L6, G6; exact Hcount |].
  intros s. destruct (Hsc s) as (_ & _ & T3 & T4 & T5 & _ & T7 & _).
  cbv zeta in T3, T4, T5, T7. rewrite <- T3, <- T4, <- T5.
  destruct s.
  - rewrite L4 by discriminate.
    split; [exact G1 |]. split; [rewrite G2; exact T7 | exact G3].
  - split; [exact L1 |]. split; [| exact L3].
    rewrite L2, G4 by discriminate. exact T7.
Qed.

Lemma lookup_foldl_Set_in (t : btree) ls la :
  NoDup (keyOf <$> ls) -> la ∈ ls -> foldl Set_ t ls !! keyOf la = Some la.
Proof.
  revert t. induction ls as [| x rest IH]; intros t Hnd Hin;
    [by apply elem_of_nil in Hin |].
  cbn [fmap list_fmap] in Hnd. cbn [foldl].
  pose proof (NoDup_cons_1_1 _ _ Hnd) as Hx.
  pose proof (NoDup_cons_1_2 _ _ Hnd) as Hrest.
  destruct (decide (la ∈ rest)) as [Hla | Hla]; [by apply IH |].
  apply elem_of_cons in Hin as [-> | Hin]; [| contradiction].
  rewrite lookup_foldl_Set_ne by exact Hx.
  unfold Set_. apply lookup_insert_eq.
Qed.

(** X14.  [flushReadSetLocked] empties the read set and leaves the
    read-write tree alone.  It loses no latch: an entry of the read-only
    tree is an entry it had or a latch of the read set under its own
    key; entries under other keys are as they were; and if the latches of
    the read set have keys of their own, each of them is found in the
    tree under its key.  Flushing twice is flushing once. *)
Theorem flushReadSetLocked_keeps (sm : scopedManager) :
  let sm' := flushReadSetLocked sm in
  readSet sm' = []
  /\ trees sm' SpanReadWrite = trees sm SpanReadWrite
  /\ (forall k x, trees sm' SpanReadOnly !! k = Some x ->
                  trees sm SpanReadOnly !! k = Some x
                  \/ (x ∈ readSet sm /\ k = keyOf x))
  /\ (forall k, k ∉ keyOf <$> readSet sm ->
                trees sm' SpanReadOnly !! k = trees sm SpanReadOnly !! k)
  /\ (NoDup (keyOf <$> readSet sm) ->
      forall la, la ∈ readSet sm -> trees sm' SpanReadOnly !! keyOf la = Some la)
  /\ flushReadSetLocked sm' = sm'.
Proof.
  cbv zeta. destruct (flushReadSetLocked_spec sm) as (F1 & F2 & F3).
  split; [exact F1 |]. split; [exact F3 |]. rewrite F2. unfold flushed.
  split; [intros k x; apply lookup_foldl_Set |].
  split; [intros k; apply lookup_foldl_Set_ne |].
  split; [intros Hnd la; by apply lookup_foldl_Set_in |].
  unfold flushReadSetLocked at 1. rewrite F1. reflexivity.
Qed.

(** *** What a call blocks on, and what it returns *)

Lemma blockedWithin_refl V st : blockedWithin V st st.
Proof. exists []. split; [reflexivity | constructor]. Qed.

Lemma blockedWithin_trans V st1 st2 st3 :
  blockedWithin V st1 st2 -> blockedWithin V st2 st3 -> blockedWithin V st1 st3.
Proof.
  intros (n1 & B1 & F1) (n2 & B2 & F2). exists (n2 ++ n1).
  split; [rewrite B2, B1; by rewrite app_assoc | by apply Forall_app].
Qed.

Lemma forEach_blockedWithin {A} V
    (body : A -> waitState -> waitState * option error) l :
  (forall x st, x ∈ l -> blockedWithin V st (body x st).1) ->
  forall st, blockedWithin V st (forEach body l st).1.
Proof.
  induction l as [| x rest IH]; intros Hbody st; simpl.
  - apply blockedWithin_refl.
  - pose proof (Hbody x st ltac:(by left)) as Hx.
    destruct (body x st) as [st' [err |]]; simpl in *; [exact Hx |].
    eapply blockedWithin_trans; [exact Hx |].
    apply IH. intros y st0 Hy. apply Hbody. by right.
Qed.

Lemma iterAndWait_blockedWithin (it : btree) e search ts ignore st :
  blockedWithin (fun w => exists k, it !! k = Some w) st
    (iterAndWait e it search ts ignore st).1.
Proof.
  destruct (iterAndWait_waitedFor e it search ts ignore st) as (new & Hb & Hall & _).
  exists new. split; [exact Hb |].
  eapply Forall_impl; [| exact Hall].
  intros w (Hw & _). by eapply overlapping_lookup.
Qed.

Lemma blockedWithin_weaken (V V' : latch -> Prop) st st' :
  (forall w, V w -> V' w) -> blockedWithin V st st' -> blockedWithin V' st st'.
Proof.
  intros HV (new & Hb & Hall). exists new. split; [exact Hb |].
  eapply Forall_impl; [| exact Hall]. exact HV.
Qed.

Lemma waitLatch_blockedWithin (tr : SpanAccess -> btree) (e : env) ts a la st :
  blockedWithin (fun w => exists a' k, tr a' !! k = Some w) st
    (waitLatch e ts tr a la st).1.
Proof.
  destruct a; simpl.
  - eapply blockedWithin_weaken; [| apply iterAndWait_blockedWithin].
    intros w [k Hk]. eauto.
  - pose proof (iterAndWait_blockedWithin (tr SpanReadWrite) e la ts ignoreNothing st)
      as H1.
    destruct (iterAndWait e (tr SpanReadWrite) la ts ignoreNothing st)
      as [st1 [err |]]; simpl in *.
    + eapply blockedWithin_weaken; [| exact H1]. intros w [k Hk]. eauto.
    + eapply blockedWithin_trans.
      * eapply blockedWithin_weaken; [| exact H1]. intros w [k Hk]. eauto.
      * eapply blockedWithin_weaken; [| apply iterAndWait_blockedWithin].
        intros w [k Hk]. eauto.
Qed.

Lemma wait_blockedWithin e lg ts snap st :
  blockedWithin (fun w => exists s a k, snapTrees snap s a !! k = Some w) st
    (wait e lg ts snap st).1.
Proof.
  unfold wait. apply forEach_blockedWithin. intros s st1 _.
  apply forEach_blockedWithin. intros a st2 _.
  apply forEach_blockedWithin. intros la st3 _.
  eapply blockedWithin_weaken; [| apply waitLatch_blockedWithin].
  intros w (a' & k & Hk). eauto.
Qed.

(** X18.  A call of [Acquire] blocks only on latches that the manager
    held when the call was sequenced and whose signal had not fired then,
    and, as long as the id counter does not wrap around, never on a latch
    of its own guard. *)
Theorem Acquire_blocks_on_held (e : env) (others : Manager -> Manager) (h : heap)
    (m : Manager) (ss : SpanSet) (ts : Timestamp)
    (h' : heap) (m' : Manager) (r : acquired) (blocked : list latch) :
  Acquire e others h m ss ts = Some (h', m', r, blocked) ->
  exists h1 m1 lg snap,
    sequence h m ss ts = Some (h1, m1, lg, snap)
    /\ forall w, w ∈ blocked ->
         (exists s, holds m s w)
         /\ signaled h1 (done w) = false
         /\ (idsBounded m -> inRange64 (idAlloc m) ->
             idAlloc m + Z.of_nat (countLatches ss) < 2 ^ 64 ->
             forall s a, w ∉ latches lg s a).
Proof.
  intros Hacq.
  destruct (sequence_steps h m ss ts)
    as (lg0 & m2 & m3 & lg & snap & _ & _ & _ & Hseq & _ & _ & _ & _ & Hl & _).
  eexists _, _, lg, snap. split; [exact Hseq |].
  unfold Acquire in Hacq. rewrite Hseq in Hacq.
  pose proof (wait_blockedWithin e lg ts snap
                {| wheap := {| nextAddr := N.succ (nextAddr h); fired := fired h |};
                   blockedOn := [] |}) as (new & Hb & Hall).
  pose proof (wait_onlyUnsignaled e lg ts snap
                {| wheap := {| nextAddr := N.succ (nextAddr h); fired := fired h |};
                   blockedOn := [] |}) as (new' & Hb' & Hall' & _).
  destruct (wait e lg ts snap _) as [st err].
  cbn [fst blockedOn] in Hb, Hb'. rewrite app_nil_r in Hb, Hb'.
  assert (Hblocked : blocked = blockedOn st).
  { destruct err as [er |].
    - destruct (Release (wheap st) (others (Unlock m3)) lg). by injection Hacq as _ _ _ <-.
    - by injection Hacq as _ _ _ <-. }
  subst blocked. rewrite Hb' in Hb. subst new'.
  intros w Hw. rewrite Hb' in Hw.
  apply list_elem_of_lookup in Hw as [j Hj].
  pose proof (Forall_lookup_1 _ _ _ _ Hall Hj) as (s & a & k & Hk).
  pose proof (Forall_lookup_1 _ _ _ _ Hall' Hj) as Hunsig.
  pose proof (sequence_snapshot_holds _ _ _ _ _ _ _ _ _ _ _ _ Hseq Hk) as Hheld.
  split; [eauto |]. split; [exact Hunsig |].
  intros Hbd Hm Hno s' a' Hin.
  apply list_elem_of_lookup in Hin as [i Hi].
  rewrite Hl in Hi. eapply assigned_id in Hi as [Hid _]; [| exact Hm | exact Hno].
  assert (Hle : 0 < id w <= idAlloc m).
  { destruct (Hbd s) as [Hrd Ht].
    destruct Hheld as [Hr | (a0 & k0 & Hk0)]; [by apply Hrd |].
    by apply Ht in Hk0 as [_ ?]. }
  lia.
Qed.

(** [removeLatch] links nothing: what the manager holds afterwards, it
    held before. *)
Lemma removeLatch_subset s a m la s' :
  (forall x, x ∈ readSet (scopes (removeLatch s a m la) s') ->
             x ∈ readSet (scopes m s'))
  /\ (forall a' k x, trees (scopes (removeLatch s a m la) s') a' !! k = Some x ->
                     trees (scopes m s') a' !! k = Some x).
Proof.
  unfold removeLatch. cbn [scopes setScope].
  destruct (decide (s' = s)) as [-> | Hne];
    [rewrite fn_lookup_insert | rewrite fn_lookup_insert_ne by congruence; auto].
  destruct (inReadSet (readSet (scopes m s)) la); cbn [readSet trees].
  - split; [intros x; apply elem_of_remove | auto].
  - split; [auto |]. intros a' k x.
    destruct (decide (a' = a)) as [-> | Ha];
      [rewrite fn_lookup_insert | by rewrite fn_lookup_insert_ne by congruence].
    unfold Delete. intros Hk. apply lookup_delete_Some in Hk as [_ Hk]. exact Hk.
Qed.

Lemma removeAll_subset (l : list (SpanScope * SpanAccess * latch)) : forall m s',
  let m' := foldl (fun m x => removeLatch x.1.1 x.1.2 m x.2) m l in
  idAlloc m' = idAlloc m
  /\ (forall x, x ∈ readSet (scopes m' s') -> x ∈ readSet (scopes m s'))
  /\ (forall a' k x, trees (scopes m' s') a' !! k = Some x ->
                     trees (scopes m s') a' !! k = Some x).
Proof.
  induction l as [| [[s a] la] rest IH]; intros m s'; cbn [foldl fst snd].
  - auto.
  - destruct (IH (removeLatch s a m la) s') as (I1 & I2 & I3).
    destruct (removeLatch_subset s a m la s') as [R1 R2].
    split; [exact I1 |]. split; [auto | auto].
Qed.

(** X15.  Every latch the manager holds has an id that the manager
    handed out, and a tree files it under its own key: this holds of the
    manager before its first use, [sequence] keeps it as long as the id
    counter does not wrap around, and [Release] keeps it. *)
Theorem idsBounded_invariant :
  idsBounded zeroManager
  /\ (forall h m ss ts h1 m1 lg snap,
        idsBounded m ->
        inRange64 (idAlloc m) ->
        idAlloc m + Z.of_nat (countLatches ss) < 2 ^ 64 ->
        sequence h m ss ts = Some (h1, m1, lg, snap) ->
        idsBounded m1 /\ inRange64 (idAlloc m1))
  /\ (forall h m lg,
        idsBounded m ->
        idsBounded (Release h m lg).2
        /\ idAlloc (Release h m lg).2 = idAlloc m).
Proof.
  split.
  { intros s. split.
    - intros la Hin. by apply elem_of_nil in Hin.
    - intros a k la Hk. cbn in Hk. unfold emptyTree in Hk.
      by rewrite lookup_empty in Hk. }
  split.
  - intros h m ss ts h1 m1 lg snap Hb Hm Hno Hseq.
    destruct (sequence_steps h m ss ts)
      as (lg0 & m2 & m3 & lg' & snap' & _ & _ & _ & E & _ & _ & _ & Hsc & Hl & Hid & Hr).
    rewrite Hseq in E. injection E as -> -> <- <-.
    specialize (Hr Hm).
    assert (Hcount : idAlloc m3 = idAlloc m + Z.of_nat (countLatches ss)).
    { rewrite <- (uint64_small (idAlloc m3)) by auto. rewrite Hid.
      apply uint64_small. unfold inRange64 in *. lia. }
    assert (Hnew : forall s a la,
               la ∈ latches lg s a -> idAlloc m < id la <= idAlloc m3).
    { intros s a la Hin. apply list_elem_of_lookup in Hin as [i Hi].
      rewrite Hl in Hi. eapply assigned_id in Hi as [-> Hlt]; [| exact Hm | exact Hno].
      pose proof (latchesBefore_bound ss s a). lia. }
    split; [| exact Hr].
    intros s. destruct (Hb s) as [Hrd Ht].
    destruct (Hsc s) as (_ & _ & T3 & T4 & T5 & T6 & T7 & T8).
    cbv zeta in *. simpl in *.
    assert (Hle : idAlloc m <= idAlloc m3) by lia.
    unfold inRange64 in Hm.
    split.
    + intros la Hin. rewrite T6, T3 in Hin.
      apply elem_of_app in Hin as [Hin | Hin].
      * destruct (0 <? length (GetSpans ss SpanReadWrite s))%nat;
          [by apply elem_of_nil in Hin |].
        apply Hrd in Hin. lia.
      * apply Hnew in Hin. lia.
    + intros a k la Hk. destruct a.
      * rewrite T7, T4 in Hk.
        destruct (0 <? length (GetSpans ss SpanReadWrite s))%nat.
        -- apply flushed_bounded in Hk as [-> ?]; [| exact Hb].
           split; [reflexivity | lia].
        -- apply Ht in Hk as [-> ?]. split; [reflexivity | lia].
      * rewrite T8, T5 in Hk.
        apply lookup_foldl_Set in Hk as [Hk | [Hk ->]].
        -- apply Ht in Hk as [-> ?]. split; [reflexivity | lia].
        -- split; [reflexivity |]. apply Hnew in Hk. lia.
  - intros h m lg Hb. unfold Release. cbn [snd idAlloc Unlock].
    rewrite removeLocked_flat.
    split.
    + intros s. destruct (removeAll_subset (guardLatches lg) (Lock m) s) as (I1 & I2 & I3).
      cbv zeta in I1, I2, I3. cbn [scopes Unlock idAlloc]. rewrite I1.
      destruct (Hb s) as [Hrd Ht]. split.
      * intros la Hin. apply Hrd. apply I2. exact Hin.
      * intros a k la Hk. apply (Ht a). apply I3. exact Hk.
    + destruct (removeAll_subset (guardLatches lg) (Lock m) SpanGlobal) as (I1 & _).
      exact I1.
Qed.

(** X16.  [Acquire] does not panic, and it returns a guard or an
    error, never both and never neither.  With a guard, the manager is
    what the other goroutines have made of it.  An error is the error of
    the context; the call was then blocked on a latch, its guard has been
    released, so that its signal has fired, and the mutex is free. *)
Theorem Acquire_outcome (e : env) (others : Manager -> Manager) (h : heap)
    (m : Manager) (ss : SpanSet) (ts : Timestamp) :
  exists h1 m1 lg snap h' m' blocked,
    sequence h m ss ts = Some (h1, m1, lg, snap)
    /\ ((Acquire e others h m ss ts = Some (h', m', (Some lg, None), blocked)
         /\ m' = others m1)
        \/ (Acquire e others h m ss ts
            = Some (h', m', (None, Some (ctxErr e)), blocked)
            /\ blocked <> []
            /\ gdone lg ∈ fired h'
            /\ mu m' = false
            /\ idAlloc m' = idAlloc (others m1))).
Proof.
  destruct (sequence_steps h m ss ts)
    as (lg0 & m2 & m3 & lg & snap & _ & _ & _ & Hseq & _).
  unfold Acquire. rewrite Hseq.
  destruct (wait e lg ts snap _) as [st [er |]] eqn:Hw.
  - apply wait_err in Hw as (-> & w & rest & Hb & _).
    eexists _, _, lg, snap, _, _, _. split; [reflexivity |]. right.
    split; [reflexivity |]. split; [rewrite Hb; discriminate |].
    cbn [Release fst snd fired signal mu Unlock idAlloc].
    split; [apply elem_of_union_l; by apply elem_of_singleton |].
    split; [reflexivity |].
    rewrite removeLocked_flat.
    destruct (removeAll_subset (guardLatches lg) (Lock (others (Unlock m3))) SpanGlobal)
      as (I1 & _).
    exact I1.
  - eexists _, _, lg, snap, _, _, _. split; [reflexivity |]. left.
    split; reflexivity.
Qed.

(** X19.  What the manager holds after [sequence].  Every read latch
    of the guard is in the read set of its scope; as long as the id
    counter does not wrap around, every write latch of the guard is found
    in the read-write tree of its scope under its own key, and the write
    latches that were there before are still there; and the manager holds
    nothing but what it held before and the latches of the guard. *)
Theorem sequence_holds (h : heap) (m : Manager) (ss : SpanSet) (ts : Timestamp)
    (h1 : heap) (m1 : Manager) (lg : Guard) (snap : snapshot) :
  sequence h m ss ts = Some (h1, m1, lg, snap) ->
  (forall s la, la ∈ latches lg s SpanReadOnly -> la ∈ readSet (scopes m1 s))
  /\ (forall s w, holds m1 s w -> holds m s w \/ exists a, w ∈ latches lg s a)
  /\ (idsBounded m -> inRange64 (idAlloc m) ->
      idAlloc m + Z.of_nat (countLatches ss) < 2 ^ 64 ->
      (forall s la, la ∈ latches lg s SpanReadWrite ->
                    trees (scopes m1 s) SpanReadWrite !! keyOf la = Some la)
      /\ (forall s k x, trees (scopes m s) SpanReadWrite !! k = Some x ->
                        trees (scopes m1 s) SpanReadWrite !! k = Some x)).
Proof.
  intros Hseq.
  destruct (sequence_steps h m ss ts)
    as (lg0 & m2 & m3 & lg' & snap' & _ & _ & _ & E & _ & _ & _ & Hsc & Hl & _).
  rewrite Hseq in E. injection E as -> -> <- <-.
  split.
  { intros s la Hin. destruct (Hsc s) as (_ & _ & _ & _ & _ & T6 & _).
    cbn [scopes Unlock]. rewrite T6. apply elem_of_app. by right. }
  split.
  { intros s w Hw. destruct (Hsc s) as (_ & _ & T3 & T4 & T5 & T6 & T7 & T8).
    cbv zeta in T3, T4, T5. unfold holds in Hw. cbn [scopes Unlock] in Hw.
    destruct Hw as [Hr | (a & k & Hk)].
    - rewrite T6, T3 in Hr. apply elem_of_app in Hr as [Hr | Hr]; [| right; eauto].
      destruct (0 <? length (GetSpans ss SpanReadWrite s))%nat;
        [by apply elem_of_nil in Hr | left; by left].
    - destruct a.
      + rewrite T7, T4 in Hk. left.
        destruct (0 <? length (GetSpans ss SpanReadWrite s))%nat.
        * apply lookup_foldl_Set in Hk as [Hk | [Hk _]]; [right; eauto | by left].
        * right; eauto.
      + rewrite T8, T5 in Hk.
        apply lookup_foldl_Set in Hk as [Hk | [Hk _]]; [left; right; eauto | right; eauto]. }
  intros Hb Hm Hno.
  assert (Hids : forall s a i la,
             latches lg s a !! i = Some la ->
             id la = idAlloc m + Z.of_nat (latchesBefore ss s a) + Z.of_nat i + 1).
  { intros s a i la Hla. rewrite Hl in Hla.
    eapply assigned_id in Hla as [Hid _]; [exact Hid | exact Hm | exact Hno]. }
  split.
  - intros s la Hin. destruct (Hsc s) as (_ & _ & _ & _ & _ & _ & _ & T8).
    cbn [scopes Unlock]. rewrite T8.
    apply lookup_foldl_Set_in; [| exact Hin].
    apply NoDup_alt. intros i j k Hi Hj.
    rewrite list_lookup_fmap in Hi, Hj.
    destruct (latches lg s SpanReadWrite !! i) as [li |] eqn:Ei; [| discriminate].
    destruct (latches lg s SpanReadWrite !! j) as [lj |] eqn:Ej; [| discriminate].
    cbn [fmap option_fmap option_map] in Hi, Hj.
    assert (Hk : keyOf li = keyOf lj) by congruence.
    apply Hids in Ei. apply Hids in Ej.
    unfold keyOf in Hk. injection Hk as _ _ Hk. lia.
  - intros s k x Hk. destruct (Hb s) as [_ Ht].
    destruct (Ht _ _ _ Hk) as [-> Hx].
    destruct (Hsc s) as (_ & _ & _ & _ & T5 & _ & _ & T8).
    cbv zeta in T5. cbn [scopes Unlock]. rewrite T8, T5.
    rewrite lookup_foldl_Set_ne; [exact Hk |].
    intros Hin. apply list_elem_of_fmap in Hin as (la & Hkey & Hla).
    apply list_elem_of_lookup in Hla as [i Hi]. apply Hids in Hi.
    unfold keyOf in Hkey. injection Hkey as _ _ Hkey. lia.
Qed.

(** *** The scenario, step by step *)

Import spanlatch_examples.

Example held_global_tree :
  trees (scopes (held SpanGlobal).2 SpanGlobal) SpanReadWrite
  = {[ ("k1", "k5", 1) :=
         {| id := 1; span := spanA; ts := ts10; done := 1%N |} ]}.
Proof. reflexivity. Qed.

Example second_writer_canceled :
  (fun r => (r.1.2, r.2)) <$>
    Acquire envCancel (fun m => m) (held SpanGlobal).1 (held SpanGlobal).2
      (oneSpan SpanReadWrite SpanGlobal spanB) ts10
  = Some ((None, Some Canceled),
          [{| id := 1; span := spanA; ts := ts10; done := 1%N |}]).
Proof. reflexivity. Qed.

Lemma Acquire_canceled_witness :
  exists h2 m2,
    Acquire envCancel (fun m => m) (held SpanGlobal).1 (held SpanGlobal).2
      (oneSpan SpanReadWrite SpanGlobal spanB) ts10
    = Some (h2, m2, (None, Some Canceled),
            [{| id := 1; span := spanA; ts := ts10; done := 1%N |}])
    /\ signaled h2 2%N = true
    /\ mu m2 = false
    /\ trees (scopes m2 SpanGlobal) SpanReadWrite !! ("k3", "k7", 2) = None.
Proof.
  edestruct (Acquire_canceled envCancel (fun m => m)
               (held SpanGlobal).1 (held SpanGlobal).2
               (oneSpan SpanReadWrite SpanGlobal spanB) ts10)
    as (h2 & m2 & w & rest & _ & Hacq & _ & _ & _ & Hsig & _ & Hmu & Hun).
  - reflexivity.
  - reflexivity.
  - intros s. split.
    + destruct s; constructor.
    + intros a la _ Hin. destruct s; inversion Hin.
  - exists h2, m2. split; [exact Hacq |]. split; [exact Hsig |].
    split; [exact Hmu |].
    apply (Hun SpanGlobal SpanReadWrite
             {| id := 2; span := spanB; ts := ts10; done := 2%N |}).
    by left.
Defined.

Example held_local_trees :
  trees (scopes (held SpanLocal).2 SpanLocal) SpanReadWrite
  = {[ ("k1", "k5", 1) :=
         {| id := 1; span := spanA; ts := hlc.zero; done := 1%N |} ]}
  /\ trees (scopes (held SpanLocal).2 SpanLocal) SpanReadOnly = ∅.
Proof. split; reflexivity. Qed.

Lemma timestamp_interference_witness :
  ignoreLater ts5 ts10 = true
  /\ ignoreEarlier ts10 ts5 = true
  /\ let tr := trees (scopes (held SpanLocal).2 SpanLocal) in
     let la := {| id := 2; span := spanB; ts := hlc.zero; done := 2%N |} in
     let st := {| wheap := (held SpanLocal).1; blockedOn := [] |} in
     let r := waitLatch envCancel ts5 tr SpanReadOnly la st in
     waitedFor (fun _ => false) (overlapping (tr SpanReadWrite) la) st r.1 r.2.
Proof.
  destruct timestamp_interference as (H1 & H2 & _ & _ & _ & _ & _ & H8).
  split; [apply H1; split; reflexivity |].
  split; [apply H2; split; reflexivity |].
  refine (proj1 (H8 envCancel ts5 (trees (scopes (held SpanLocal).2 SpanLocal))
                   {| id := 2; span := spanB; ts := hlc.zero; done := 2%N |}
                   {| wheap := (held SpanLocal).1; blockedOn := [] |} _)).
  intros a k w Hk. destruct held_local_trees as [Hrw Hro].
  destruct a.
  - rewrite Hro, lookup_empty in Hk. discriminate.
  - rewrite Hrw in Hk. apply lookup_singleton_Some in Hk as [_ <-]. reflexivity.
Defined.

Lemma sequence_critical_section_witness :
  exists h' m' lg snap,
    sequence heap0 zeroManager (oneSpan SpanReadWrite SpanGlobal spanA) ts10
    = Some (h', m', lg, snap)
    /\ mu m' = false
    /\ idAlloc m' = 1
    /\ idsBounded m'.
Proof.
  destruct (sequence_critical_section heap0 zeroManager
              (oneSpan SpanReadWrite SpanGlobal spanA) ts10)
    as (lg0 & m2 & m3 & lg & snap & _ & _ & _ & Hseq & _ & _ & _ & Hmu & _ & _ & _
        & Hfresh).
  destruct Hfresh as (Hid & _ & _ & _ & Hb).
  - unfold inRange64. simpl. lia.
  - reflexivity.
  - intros s. split.
    + intros la Hin. inversion Hin.
    + intros a k la Hk. simpl in Hk. unfold emptyTree in Hk.
      rewrite lookup_empty in Hk. discriminate.
  - eexists _, (Unlock m3), lg, snap.
    split; [exact Hseq |]. split; [exact Hmu |]. split; [exact Hid |]. exact Hb.
Defined.

Lemma iterAndWait_skips_signaled_witness :
  let st := {| wheap := signal (held SpanGlobal).1 1%N; blockedOn := [] |} in
  iterAndWait envCancel (trees (scopes (held SpanGlobal).2 SpanGlobal) SpanReadWrite)
    {| id := 2; span := spanB; ts := ts10; done := 2%N |} ts10 ignoreNothing st
  = (st, None).
Proof.
  cbv zeta.
  apply (proj1 (proj2 iterAndWait_skips_signaled)).
  intros w Hw.
  change (w ∈ [{| id := 1; span := spanA; ts := ts10; done := 1%N |}]) in Hw.
  inversion Hw as [| ? ? ? Hnil]; subst; [reflexivity | inversion Hnil].
Defined.

Lemma newGuard_alloc_exact_witness :
  exists lg,
    newGuard heap0 (oneSpan SpanReadWrite SpanLocal spanA) ts10
    = Some ({| nextAddr := 2; fired := ∅ |}, lg)
    /\ latches lg SpanLocal SpanReadWrite
       = [{| id := 0; span := spanA; ts := hlc.zero; done := 1%N |}].
Proof.
  pose proof (newGuard_alloc_exact heap0 (oneSpan SpanReadWrite SpanLocal spanA) ts10)
    as H.
  cbv zeta in H. rewrite allocGuardAndLatches_spec in H.
  destruct H as (_ & _ & lg & _ & Hnew & _ & _ & _ & _).
  exists lg. split; [exact Hnew |].
  cbv in Hnew. injection Hnew as <-. reflexivity.
Defined.

Lemma Acquire_granted_witness :
  exists h2 m2 lg,
    Acquire envRelease (fun m => m) (held SpanGlobal).1 (held SpanGlobal).2
      (oneSpan SpanReadWrite SpanGlobal spanB) ts10
    = Some (h2, m2, (Some lg, None),
            [{| id := 1; span := spanA; ts := ts10; done := 1%N |}])
    /\ 1%N ∈ fired h2.
Proof.
  edestruct (Acquire_granted envRelease (fun m => m)
               (held SpanGlobal).1 (held SpanGlobal).2
               (oneSpan SpanReadWrite SpanGlobal spanB) ts10)
    as (Hacq & Hrel & _).
  - reflexivity.
  - reflexivity.
  - eexists _, _, _. split; [exact Hacq |].
    destruct (Hrel SpanGlobal SpanReadWrite
                {| id := 2; span := spanB; ts := ts10; done := 2%N |}) as [Hw _];
      [by left |].
    apply (Hw {| id := 1; span := spanA; ts := ts10; done := 1%N |}).
    change ({| id := 1; span := spanA; ts := ts10; done := 1%N |}
            ∈ [{| id := 1; span := spanA; ts := ts10; done := 1%N |}]).
    left.
Defined.

Lemma Acquire_no_overlap_witness :
  exists h1 m1 lg,
    Acquire envCancel (fun m => m) heap0 zeroManager
      (oneSpan SpanReadWrite SpanGlobal spanA) ts10
    = Some (h1, m1, (Some lg, None), []).
Proof.
  edestruct (Acquire_no_overlap envCancel (fun m => m) heap0 zeroManager
              (oneSpan SpanReadWrite SpanGlobal spanA) ts10)
    as (h1 & m1 & lg & snap & _ & Hacq).
  - intros s a sp w _ [Hin | (a' & k & Hk)]; [inversion Hin |].
    cbn in Hk. unfold emptyTree in Hk. rewrite lookup_empty in Hk. discriminate.
  - eexists _, _, _. exact Hacq.
Defined.

Lemma sequence_Release_restores_witness :
  exists h1 m1 lg snap,
    sequence heap0 zeroManager (oneSpan SpanReadWrite SpanGlobal spanA) ts10
    = Some (h1, m1, lg, snap)
    /\ idAlloc (Release h1 m1 lg).2 = 1
    /\ trees (scopes (Release h1 m1 lg).2 SpanGlobal) SpanReadWrite = ∅.
Proof.
  eexists _, _, _, _. split; [reflexivity |].
  edestruct (sequence_Release_restores heap0 zeroManager
               (oneSpan SpanReadWrite SpanGlobal spanA) ts10) as [Hrel _].
  - intros s. split.
    + intros la Hin. inversion Hin.
    + intros a k la Hk. simpl in Hk. unfold emptyTree in Hk.
      rewrite lookup_empty in Hk. discriminate.
  - unfold inRange64. simpl. lia.
  - reflexivity.
  - reflexivity.
  - destruct (Hrel heap0) as (_ & Hid & Hs).
    destruct (Hs SpanGlobal) as (_ & _ & Hrw).
    split; [exact Hid | exact Hrw].
Defined.

Lemma Acquire_blocks_on_held_witness :
  exists h2 m2 r s,
    Acquire envCancel (fun m => m) (held SpanGlobal).1 (held SpanGlobal).2
      (oneSpan SpanReadWrite SpanGlobal spanB) ts10
    = Some (h2, m2, r, [{| id := 1; span := spanA; ts := ts10; done := 1%N |}])
    /\ holds (held SpanGlobal).2 s
         {| id := 1; span := spanA; ts := ts10; done := 1%N |}.
Proof.
  assert (Hf : (fun r => r.2) <$>
                 Acquire envCancel (fun m => m) (held SpanGlobal).1 (held SpanGlobal).2
                   (oneSpan SpanReadWrite SpanGlobal spanB) ts10
               = Some [{| id := 1; span := spanA; ts := ts10; done := 1%N |}])
    by reflexivity.
  destruct (Acquire envCancel (fun m => m) (held SpanGlobal).1 (held SpanGlobal).2
              (oneSpan SpanReadWrite SpanGlobal spanB) ts10)
    as [[[[h2 m2] r] blocked] |] eqn:E; [| discriminate Hf].
  cbn in Hf. apply (inj Some) in Hf. subst blocked.
  destruct (Acquire_blocks_on_held _ _ _ _ _ _ _ _ _ _ E)
    as (h1 & m1 & lg & snap & _ & Hall).
  destruct (Hall {| id := 1; span := spanA; ts := ts10; done := 1%N |})
    as [[s Hheld] _]; [by left |].
  exists h2, m2, r, s. split; [reflexivity | exact Hheld].
Defined.

Lemma sequence_holds_witness :
  exists h1 m1 lg snap,
    sequence heap0 zeroManager (oneSpan SpanReadWrite SpanGlobal spanA) ts10
    = Some (h1, m1, lg, snap)
    /\ trees (scopes m1 SpanGlobal) SpanReadWrite !! ("k1", "k5", 1)
       = Some {| id := 1; span := spanA; ts := ts10; done := 1%N |}.
Proof.
  eexists _, _, _, _. split; [reflexivity |].
  edestruct (sequence_holds heap0 zeroManager
               (oneSpan SpanReadWrite SpanGlobal spanA) ts10) as (_ & _ & Hw).
  - reflexivity.
  - destruct Hw as [Hins _].
    + intros s. split.
      * intros la Hin. inversion Hin.
      * intros a k la Hk. simpl in Hk. unfold emptyTree in Hk.
        rewrite lookup_empty in Hk. discriminate.
    + unfold inRange64. simpl. lia.
    + reflexivity.
    + apply (Hins SpanGlobal {| id := 1; span := spanA; ts := ts10; done := 1%N |}).
      by left.
Defined.

End spanlatch_facts.

(** ** Properties of the hash joiner *)

Module colexec_facts.
Import coldata sqlbase colexec.

(** *** The constructor *)

Lemma getAt_lookup {A} (l : list A) (i : nat) x :
  l !! i = Some x -> getAt l (Z.of_nat i) = Ok x.
Proof.
  intros Hl. unfold getAt.
  destruct (Z.ltb_spec (Z.of_nat i) 0); [lia |].
  by rewrite Nat2Z.id, Hl.
Qed.

(** Gathering the types of the columns [0 .. n-1] of a source gives
    its first [n] types, as long as the indices fit in a [uint32]. *)
Lemma gather_allColumns (types : list coltypes.T) (n : nat) acc :
  (n <= length types)%nat -> Z.of_nat n <= 2 ^ 32 ->
  forM (fun acc c => t ← getAt types c; Ok (acc ++ [t])) (allColumns n) acc
  = Ok (acc ++ take n types).
Proof.
  intros Hn Hfit. unfold allColumns.
  assert (Hgen : forall k m acc,
             (k + m <= length types)%nat -> Z.of_nat (k + m) <= 2 ^ 32 ->
             forM (fun acc c => t ← getAt types c; Ok (acc ++ [t]))
                  ((fun i => uint32 (Z.of_nat i)) <$> seq k m) acc
             = Ok (acc ++ take m (drop k types))).
  { intros k m. revert k. induction m as [| m IH]; intros k acc0 Hk Hfit'.
    - simpl. by rewrite app_nil_r.
    - simpl.
      assert (Hlt : (k < length types)%nat) by lia.
      destruct (lookup_lt_is_Some_2 types k Hlt) as [t Ht].
      unfold uint32. rewrite Z.mod_small by lia.
      rewrite (getAt_lookup _ _ _ Ht). simpl.
      rewrite IH by lia.
      rewrite (drop_S _ _ _ Ht). simpl. by rewrite <- app_assoc. }
  rewrite (Hgen 0%nat n acc) by (simpl; lia). reflexivity.
Qed.

(** C2, as the code has it.  [NewEqHashJoinerOp] accepts the six join
    types of [supported] and rejects the others with an error.  The left
    output columns are always all the columns of the left source.  For
    LEFT SEMI and LEFT ANTI the right output column set is empty, for the
    other four join types it is all the columns of the right source, so
    that the output columns are those of the left source followed by
    those of the right one.  [rightDistinct] is forced to true for LEFT
    SEMI only: for LEFT ANTI, as for the other join types, the operator
    keeps the value it was given. *)
Theorem NewEqHashJoinerOp_spec (leftSource rightSource : Operator)
    (leftEqCols rightEqCols : list Z) (leftTypes rightTypes : list coltypes.T)
    (rd : bool) (jt : JoinType) :
  match NewEqHashJoinerOp leftSource rightSource leftEqCols rightEqCols
          leftTypes rightTypes rd jt with
  | inl op =>
      supported jt = true
      /\ joinType (spec op) = jt
      /\ outCols (left (spec op)) = allColumns (length leftTypes)
      /\ outCols (right (spec op))
         = (if leftOnly jt then [] else allColumns (length rightTypes))
      /\ rightDistinct (spec op)
         = (if decide (jt = JoinType_LEFT_SEMI) then true else rd)
      /\ sourceTypes (left (spec op)) = leftTypes
      /\ sourceTypes (right (spec op)) = rightTypes
      /\ outputBatchSize op = BatchSize
      /\ runningState op = hjBuilding
      /\ (Z.of_nat (length leftTypes) <= 2 ^ 32 ->
          Z.of_nat (length rightTypes) <= 2 ^ 32 ->
          outColTypesOf (spec op)
          = Ok (leftTypes ++ (if leftOnly jt then [] else rightTypes)))
  | inr e => supported jt = false /\ e = notSupported jt
  end.
Proof.
  destruct jt; cbn [NewEqHashJoinerOp supported leftOnly]; try (split; reflexivity);
    (split; [reflexivity |]); (split; [reflexivity |]); (split; [reflexivity |]);
    (split; [reflexivity |]); (split; [reflexivity |]); (split; [reflexivity |]);
    (split; [reflexivity |]); (split; [reflexivity |]); (split; [reflexivity |]);
    intros Hl Hr; unfold outColTypesOf; cbn [left right outCols sourceTypes spec];
    rewrite gather_allColumns by (auto; lia); cbn [mbind res_bind app];
    rewrite firstn_all; cbn [take forM];
    rewrite ?gather_allColumns by (auto; lia); rewrite ?firstn_all, ?app_nil_r;
    reflexivity.
Qed.

(** C2 as stated fails: for LEFT ANTI the operator keeps
    [rightDistinct = false]. *)
Lemma NewEqHashJoinerOp_anti_not_distinct :
  match NewEqHashJoinerOp [] [] [0] [0] [1%N; 2%N] [1%N] false JoinType_LEFT_ANTI with
  | inl op => outCols (right (spec op)) = [] /\ rightDistinct (spec op) <> true
  | inr _ => False
  end.
Proof. simpl. split; [reflexivity | discriminate]. Qed.

Lemma NewEqHashJoinerOp_spec_witness :
  match NewEqHashJoinerOp [] [] [0] [0] [1%N; 2%N] [1%N] false JoinType_FULL_OUTER with
  | inl op =>
      outCols (left (spec op)) = [0; 1]
      /\ outCols (right (spec op)) = [0]
      /\ outColTypesOf (spec op) = Ok [1%N; 2%N; 1%N]
  | inr _ => False
  end.
Proof.
  pose proof (NewEqHashJoinerOp_spec [] [] [0] [0] [1%N; 2%N] [1%N] false
                JoinType_FULL_OUTER) as H.
  destruct (NewEqHashJoinerOp [] [] [0] [0] [1%N; 2%N] [1%N] false JoinType_FULL_OUTER)
    as [op | e].
  - destruct H as (_ & _ & Hl & Hr & _ & _ & _ & _ & _ & Ht).
    split; [exact Hl |]. split; [exact Hr |].
    apply Ht; simpl; lia.
  - destruct H as [H _]. discriminate H.
Defined.

(** *** Loops that can panic *)

Lemma forM_inv {A S} (body : S -> A -> res S) (P : S -> Prop) l :
  (forall st x st', x ∈ l -> P st -> body st x = Ok st' -> P st') ->
  forall st st', P st -> forM body l st = Ok st' -> P st'.
Proof.
  induction l as [| x rest IH]; intros Hbody st st' HP; simpl.
  - intros [= <-]. exact HP.
  - destruct (body st x) as [st1 | |] eqn:Hx; [| discriminate ..].
    cbn [mbind res_bind]. apply IH.
    + intros st0 y st0' Hy. apply Hbody. by right.
    + eapply Hbody; [by left | exact HP | exact Hx].
Qed.

Lemma setAt_Ok {A} (l : list A) i x l' :
  setAt l i x = Ok l' ->
  0 <= i < Z.of_nat (length l) /\ l' = <[Z.to_nat i := x]> l.
Proof.
  unfold setAt. destruct (Z.leb_spec 0 i); destruct (Z.ltb_spec i (Z.of_nat (length l)));
    simpl; intros [= <-]; split; auto; lia.
Qed.

Lemma getAt_Ok {A} (l : list A) i x :
  getAt l i = Ok x -> 0 <= i /\ l !! Z.to_nat i = Some x.
Proof.
  unfold getAt. destruct (Z.ltb_spec i 0); [discriminate |].
  destruct (l !! Z.to_nat i) eqn:E; [| discriminate]. intros [= <-]. by split.
Qed.

(** *** Null bits of unmatched probe rows *)

Lemma setUnmatchedNulls_from (unmatched : list bool) (n : Nulls) (start : nat) (i : nat) :
  Z.of_nat (start + length unmatched) <= 65536 ->
  foldl (fun n '(i, isNull) =>
           if (isNull : bool) then SetNull n (uint16 (Z.of_nat i)) else n)
        n (imap (fun i x => (start + i, x)%nat) unmatched) i
  = n i || bool_decide (start <= i /\ unmatched !! (i - start)%nat = Some true)%nat.
Proof.
  revert n start. induction unmatched as [| x rest IH]; intros n start Hlen.
  - simpl. rewrite bool_decide_eq_false_2; [by rewrite orb_false_r |].
    intros [_ Hl]. discriminate.
  - rewrite imap_cons. cbn [foldl]. simpl in Hlen.
    rewrite (imap_ext _ (fun i x => (S start + i, x)%nat))
      by (intros; unfold compose; f_equal; lia).
    rewrite IH by lia. rewrite Nat.add_0_r.
    destruct (decide (i = start)) as [-> | Hne].
    + replace (start - start)%nat with 0%nat by lia. simpl.
      rewrite (bool_decide_eq_false_2 (S start <= start /\ _)%nat) by lia.
      rewrite orb_false_r.
      destruct x; simpl.
      * unfold SetNull, uint16. rewrite Z.mod_small by lia. rewrite Nat2Z.id.
        destruct (decide (start = start)); [| congruence].
        rewrite bool_decide_eq_true_2; [by rewrite orb_true_r | by split].
      * rewrite bool_decide_eq_false_2; [by rewrite orb_false_r |].
        intros [_ Hl]. discriminate.
    + assert (Hn : (if x then SetNull n (uint16 (Z.of_nat start)) else n) i = n i).
      { destruct x; [| reflexivity]. unfold SetNull, uint16.
        rewrite Z.mod_small by lia. rewrite Nat2Z.id.
        destruct (decide (i = start)); congruence. }
      rewrite Hn. f_equal. apply bool_decide_ext. split.
      * intros [Hle Hl]. split; [lia |].
        replace (i - start)%nat with (S (i - S start)) by lia. exact Hl.
      * intros [Hle Hl]. split; [lia |].
        replace (i - start)%nat with (S (i - S start)) in Hl by lia. exact Hl.
Qed.

(** The null bits of a column after the loop over
    [probeRowUnmatched]: the bits of the unmatched positions are set, the
    others are as they were. *)
Lemma setUnmatchedNulls_spec (unmatched : list bool) (n : Nulls) (i : nat) :
  Z.of_nat (length unmatched) <= 65536 ->
  NullAt (setUnmatchedNulls unmatched n) i
  = NullAt n i || bool_decide (unmatched !! i = Some true).
Proof.
  intros Hlen. unfold setUnmatchedNulls, NullAt.
  rewrite (imap_ext _ (fun i x => (0 + i, x)%nat)) by reflexivity.
  rewrite (setUnmatchedNulls_from unmatched n 0 i) by (simpl; lia).
  f_equal. apply bool_decide_ext. rewrite Nat.sub_0_r. split.
  - by intros [_ ?].
  - intros ?. split; [lia | done].
Qed.

(** *** Collection *)

Lemma forM_count {A S} (body : S -> A -> res S) (cnt : S -> Z) l :
  (forall st x st', body st x = Ok st' -> cnt st <= cnt st' <= cnt st + 1) ->
  forall st st',
    forM body l st = Ok st' -> cnt st <= cnt st' <= cnt st + Z.of_nat (length l).
Proof.
  intros Hbody. induction l as [| x rest IH]; intros st st'; simpl.
  - intros [= <-]. lia.
  - destruct (body st x) as [st1 | |] eqn:Hx; [| discriminate ..].
    cbn [mbind res_bind]. intros Hr. apply IH in Hr. apply Hbody in Hx. lia.
Qed.

Lemma emit_keeps p n row br um p' :
  emit p n row br um = Ok p' ->
  keeps p p' /\ prevBatch p' = prevBatch p
  /\ prevBatchResumeIdx p' = prevBatchResumeIdx p.
Proof.
  unfold emit, keeps. intros He.
  destruct (setAt (buildIdx p) n br) as [bidx | |]; [| discriminate ..].
  cbn [mbind res_bind] in He.
  destruct (setAt (probeIdx p) n row) as [pidx | |]; [| discriminate ..].
  cbn [mbind res_bind] in He.
  destruct (outer (left (pspec p))).
  - destruct (setAt (probeRowUnmatched p) n um) as [pru | |]; [| discriminate ..].
    cbn [mbind res_bind] in He. injection He as <-. cbn. auto.
  - injection He as <-. cbn. auto.
Qed.

Lemma length_seqZ_nat (m n : Z) : Z.of_nat (length (seqZ m n)) = Z.max 0 n.
Proof. rewrite length_seqZ. lia. Qed.

Lemma forM_inv_count {A S} (body : S -> A -> res S) (P : S -> Prop) (cnt : S -> Z) l :
  (forall st x st', P st -> body st x = Ok st' ->
                    P st' /\ cnt st <= cnt st' <= cnt st + 1) ->
  forall st st',
    P st -> forM body l st = Ok st' ->
    P st' /\ cnt st <= cnt st' <= cnt st + Z.of_nat (length l).
Proof.
  intros Hbody. induction l as [| x rest IH]; intros st st' HP; simpl.
  - intros [= <-]. split; [exact HP | lia].
  - destruct (body st x) as [st1 | |] eqn:Hx; [| discriminate ..].
    cbn [mbind res_bind]. intros Hr.
    destruct (Hbody _ _ _ HP Hx) as [HP1 Hc1].
    destruct (IH _ _ HP1 Hr) as [HP2 Hc2]. split; [exact HP2 | lia].
Qed.

(** Destructs the steps of a computation that returned [Ok]. *)
Ltac unbind H :=
  repeat (cbn [mbind res_bind] in H;
          match type of H with
          | context [mbind _ ?m] =>
              let E := fresh "E" in
              destruct m eqn:E; cbn [mbind res_bind] in H; [| discriminate H ..]
          end).

Lemma keeps_emit p p0 n row br um p2 :
  keeps p p0 /\ prevBatch p0 = prevBatch p ->
  emit p0 n row br um = Ok p2 ->
  keeps p p2 /\ prevBatch p2 = prevBatch p.
Proof.
  intros [(K1 & K2 & K3) Hpb] He.
  apply emit_keeps in He as ((E1 & E2 & E3) & E4 & _).
  unfold keeps. repeat split; congruence.
Qed.

(** LEFT ANTI emits at most one pair per probe row. *)
Lemma collectAnti_spec t p batchSize sel p' n :
  collectAnti t p batchSize sel = Ok (p', n) ->
  0 <= n <= Z.max 0 batchSize
  /\ keeps p p' /\ prevBatch p' = prevBatch p.
Proof.
  unfold collectAnti. intros Hc.
  eapply (forM_inv_count _
            (fun st : hashJoinProber * Z => keeps p st.1 /\ prevBatch st.1 = prevBatch p)
            (fun st => st.2)) in Hc.
  - destruct Hc as [Hk Hn]. cbn [fst snd] in *. rewrite length_seqZ_nat in Hn.
    split; [lia | exact Hk].
  - intros [p0 n0] i [p1 n1] Hk Hb. cbn [fst snd] in *.
    unbind Hb.
    match type of Hb with
    | context [(?h =? 0)%Z] => destruct (h =? 0)%Z
    end.
    + unbind Hb. inversion Hb; subst. split; [by eapply keeps_emit | lia].
    + inversion Hb; subst. split; [exact Hk | lia].
  - unfold keeps. auto.
Qed.

(** [distinctCollect] emits at most one pair per probe row. *)
Lemma distinctCollect_spec t p batchSize sel p' n :
  distinctCollect t p batchSize sel = Ok (p', n) ->
  0 <= n <= Z.max 0 batchSize
  /\ keeps p p' /\ prevBatch p' = prevBatch p.
Proof.
  unfold distinctCollect.
  destruct (decide (joinType (pspec p) = JoinType_LEFT_ANTI)) as [Hanti | Hanti];
    [apply collectAnti_spec |].
  intros Hc.
  eapply (forM_inv_count _
            (fun st : hashJoinProber * Z => keeps p st.1 /\ prevBatch st.1 = prevBatch p)
            (fun st => st.2)) in Hc.
  - destruct Hc as [Hk Hn]. cbn [fst snd] in *. rewrite length_seqZ_nat in Hn.
    split; [lia | exact Hk].
  - intros [p0 n0] i [p1 n1] Hk Hb. cbn [fst snd] in *.
    unbind Hb.
    match type of Hb with
    | context [negb (?g =? 0)%Z] => destruct (negb (g =? 0)%Z)
    end.
    + unbind Hb. inversion Hb; subst. split; [by eapply keeps_emit | lia].
    + destruct (outer (left (pspec p0))).
      * unbind Hb. inversion Hb; subst. split; [by eapply keeps_emit | lia].
      * inversion Hb; subst. split; [exact Hk | lia].
  - unfold keeps. auto.
Qed.

(** The walk along [same] for one probe row. *)
Lemma collectMatches_spec room : forall lo b i row t p n cur first c,
  0 <= i ->
  headID t !! Z.to_nat i = Some cur ->
  lo = outer (left (pspec p)) ->
  collectMatches room lo b i row t p n cur first = Ok c ->
  keeps p (cProber c)
  /\ n <= cResults c <= n + Z.of_nat room
  /\ (if full c
      then prevBatch (cProber c) = Some b
           /\ prevBatchResumeIdx (cProber c) = i
           /\ (lo = true \/ exists h, headID (cTable c) !! Z.to_nat i = Some h /\ h <> 0)
           /\ cResults c = n + Z.of_nat room
      else prevBatch (cProber c) = prevBatch p
           /\ prevBatchResumeIdx (cProber c) = prevBatchResumeIdx p)
  /\ ((0 < room)%nat -> (lo && first = true \/ cur <> 0) -> n < cResults c).
Proof.
  induction room as [| room IH]; intros lo b i row t p n cur first c Hi Hhd Hlo;
    cbn [collectMatches].
  - destruct ((negb lo || negb first) && (cur =? 0)%Z) eqn:Hstop;
      intros [= <-]; cbn.
    + split; [unfold keeps; auto |]. split; [lia |]. split; [auto | lia].
    + split; [unfold keeps; auto |]. split; [lia |].
      split; [| lia]. split; [reflexivity |]. split; [reflexivity |].
      split; [| lia].
      apply andb_false_iff in Hstop as [Hs | Hs].
      * left. apply orb_false_iff in Hs as [Hs _]. by apply negb_false_iff in Hs.
      * right. exists cur. split; [exact Hhd |]. by apply Z.eqb_neq in Hs.
  - destruct ((negb lo || negb first) && (cur =? 0)%Z) eqn:Hstop.
    + intros [= <-]. cbn.
      split; [unfold keeps; auto |]. split; [lia |]. split; [auto |].
      intros _ [Hlf | Hc].
      * apply andb_true_iff in Hlf as [-> ->]. discriminate Hstop.
      * apply andb_true_iff in Hstop as [_ Hz]. apply Z.eqb_eq in Hz. contradiction.
    + intros Hc. unbind Hc.
      lazymatch goal with
      | He : emit _ _ _ _ _ = Ok ?p1, Hs : setAt (headID t) i ?nx = Ok ?hd |- _ =>
          apply emit_keeps in He as ((Q1 & Q2 & Q3) & Q4 & Q5);
          apply setAt_Ok in Hs as [Hrange ->];
          apply IH in Hc as ((K1 & K2 & K3) & Hn & Hfull & _);
          [| exact Hi
           | cbn [headID setHeadID]; apply list_lookup_insert_eq; lia
           | rewrite Q1; exact Hlo]
      end.
      split; [unfold keeps; repeat split; congruence |].
      split; [lia |].
      split.
      { destruct (full c).
        - destruct Hfull as (F1 & F2 & F3 & F4).
          split; [exact F1 |]. split; [exact F2 |]. split; [exact F3 | lia].
        - destruct Hfull as (F1 & F2). split; congruence. }
      intros _ _. lia.
Qed.

Lemma collectRow_spec b batchSize sel p c i c' :
  collectingInv b batchSize p c ->
  0 <= i < batchSize ->
  (if full c then Ok c
   else
     currentID ← getAt (headID (cTable c)) i;
     row ← probeRow sel i;
     collectMatches (Z.to_nat (poutputBatchSize (cProber c) - cResults c))
       (outer (left (pspec (cProber c)))) b i row
       (cTable c) (cProber c) (cResults c) currentID true) = Ok c' ->
  collectingInv b batchSize p c'
  /\ cResults c <= cResults c'
  /\ (full c = false -> cResults c < poutputBatchSize p ->
      (outer (left (pspec p)) = true
       \/ exists h, headID (cTable c) !! Z.to_nat i = Some h /\ h <> 0) ->
      cResults c < cResults c').
Proof.
  intros ((K1 & K2 & K3) & Hn & Hfull) Hi Hb.
  destruct (full c) eqn:Hf.
  - injection Hb as <-. split; [| split; [lia | discriminate]].
    unfold collectingInv, keeps. rewrite Hf. auto.
  - unbind Hb.
    match goal with
    | Hg : getAt (headID (cTable c)) i = Ok ?cur |- _ =>
        apply getAt_Ok in Hg as [_ Hg];
        apply collectMatches_spec in Hb as ((C1 & C2 & C3) & Hc & Hfull' & Hpos);
        [| lia | exact Hg | reflexivity]
    end.
    rewrite K2 in Hc, Hfull', Hpos. rewrite K1 in Hfull', Hpos.
    rewrite Z2Nat.id in Hc, Hfull' by lia.
    split.
    { split; [unfold keeps; repeat split; congruence |].
      split; [lia |].
      destruct (full c').
      - destruct Hfull' as (F1 & F2 & F3 & F4).
        split; [exact F1 |]. split; [lia |]. rewrite F2. split; [exact F3 | lia].
      - destruct Hfull' as [F1 _]. congruence. }
    split; [lia |].
    intros _ Hlt Hm. apply Hpos; [lia |].
    destruct Hm as [-> | (h & Hh & Hne)]; [by left | right].
    match goal with
    | Hg : headID (cTable c) !! Z.to_nat i = Some _ |- _ =>
        rewrite Hg in Hh; injection Hh as ->; exact Hne
    end.
Qed.

Lemma collectRows_spec b batchSize sel p rows : forall c c',
  collectingInv b batchSize p c ->
  (forall i, i ∈ rows -> 0 <= i < batchSize) ->
  forM (fun c i =>
          if full c then Ok c
          else
            currentID ← getAt (headID (cTable c)) i;
            row ← probeRow sel i;
            collectMatches (Z.to_nat (poutputBatchSize (cProber c) - cResults c))
              (outer (left (pspec (cProber c)))) b i row
              (cTable c) (cProber c) (cResults c) currentID true) rows c = Ok c' ->
  collectingInv b batchSize p c' /\ cResults c <= cResults c'.
Proof.
  induction rows as [| i rest IH]; intros c c' Hinv Hrows; cbn [forM].
  - intros [= <-]. split; [exact Hinv | lia].
  - intros Hf.
    match type of Hf with
    | mbind _ ?m = _ => destruct m as [c1 | |] eqn:Hrow; [| discriminate ..]
    end.
    cbn [mbind res_bind] in Hf.
    apply (collectRow_spec b batchSize sel p c i c1 Hinv) in Hrow as (Hinv1 & Hle & _);
      [| apply Hrows; by left].
    apply IH in Hf as [Hinv' Hle']; [| exact Hinv1 | intros j Hj; apply Hrows; by right].
    split; [exact Hinv' | lia].
Qed.

(** [collect]: at most as many pairs as the output batch size allows
    (for LEFT ANTI, at most one per probe row), and if a batch is kept for
    the next call, it has matches left. *)
Lemma collect_spec t p b batchSize sel t' p' n :
  prevBatch p = None ->
  0 <= prevBatchResumeIdx p ->
  0 <= poutputBatchSize p ->
  batchSize = Length b ->
  collect t p b batchSize sel = Ok (t', p', n) ->
  keeps p p'
  /\ 0 <= n <= Z.max (poutputBatchSize p) batchSize
  /\ (joinType (pspec p) <> JoinType_LEFT_ANTI -> n <= poutputBatchSize p)
  /\ pending t' p'
  /\ (prevBatch p' <> None -> n = poutputBatchSize p).
Proof.
  intros Hpb Hr Hlim Hbs. unfold collect.
  destruct (decide (joinType (pspec p) = JoinType_LEFT_ANTI)) as [Hanti | Hanti].
  - intros Hc. unbind Hc.
    match goal with
    | Ha : collectAnti _ _ _ _ = Ok ?x |- _ =>
        destruct x as [p1 n1]; apply collectAnti_spec in Ha as (Hn & Hk & Hp)
    end.
    injection Hc as <- <- <-.
    split; [exact Hk |]. split; [lia |]. split; [contradiction |].
    unfold pending. rewrite Hp, Hpb. split; [exact I | congruence].
  - intros Hc. unbind Hc.
    lazymatch goal with
    | Hf : forM _ _ _ = Ok ?c0 |- _ =>
        rename c0 into c;
        apply (collectRows_spec b batchSize sel p) in Hf as [(Hk & Hn & Hfull) _]
    end.
    + injection Hc as <- <- <-.
      split; [exact Hk |]. split; [lia |]. split; [intros _; lia |].
      destruct Hk as (K1 & K2 & K3).
      unfold pending. destruct (full c).
      * destruct Hfull as (F1 & F2 & F3 & F4). rewrite F1, K1.
        split; [| intros _; exact F4].
        split; [exact Hanti |]. split; [lia | exact F3].
      * rewrite Hfull. split; [exact I | congruence].
    + unfold collectingInv, keeps. cbn. split; [auto |]. split; [lia | exact Hpb].
    + intros i Hi. apply elem_of_seqZ in Hi. lia.
Qed.

(** When [collect] resumes a batch that has matches left, it emits at
    least one pair. *)
Lemma collect_resume_positive t p b sel t' p' n :
  prevBatch p = None ->
  joinType (pspec p) <> JoinType_LEFT_ANTI ->
  0 <= prevBatchResumeIdx p < Length b ->
  0 < poutputBatchSize p ->
  (outer (left (pspec p)) = true
   \/ exists h, headID t !! Z.to_nat (prevBatchResumeIdx p) = Some h /\ h <> 0) ->
  collect t p b (Length b) sel = Ok (t', p', n) ->
  0 < n.
Proof.
  intros Hpb Hanti Hr Hlim Hm. unfold collect.
  destruct (decide (joinType (pspec p) = JoinType_LEFT_ANTI)); [contradiction |].
  intros Hc. unbind Hc. injection Hc as <- <- <-.
  assert (Hrows : seqZ (prevBatchResumeIdx p) (Length b - prevBatchResumeIdx p)
                  = prevBatchResumeIdx p
                    :: seqZ (Z.succ (prevBatchResumeIdx p))
                            (Z.pred (Length b - prevBatchResumeIdx p))).
  { apply seqZ_cons. lia. }
  match goal with
  | Hf : forM _ _ _ = Ok _ |- _ => rewrite Hrows in Hf; cbn [forM] in Hf; rename Hf into Hfor
  end.
  match type of Hfor with
  | mbind _ ?m = _ => destruct m as [c1 | |] eqn:Hrow; [| discriminate ..]
  end.
  cbn [mbind res_bind] in Hfor.
  assert (Hinv0 : collectingInv b (Length b) p
                    {| cTable := t; cProber := p; cResults := 0; full := false |}).
  { unfold collectingInv, keeps. cbn. split; [auto |]. split; [lia | exact Hpb]. }
  apply (collectRow_spec b (Length b) sel p _ _ c1 Hinv0) in Hrow as (Hinv1 & _ & Hpos);
    [| lia].
  cbn in Hpos. specialize (Hpos eq_refl Hlim Hm).
  apply (collectRows_spec b (Length b) sel p) in Hfor as [_ Hle];
    [lia | exact Hinv1 |].
  intros i Hi. apply elem_of_seqZ in Hi. lia.
Qed.

Ltac splitPairs := repeat match goal with x : (_ * _)%type |- _ => destruct x end.

Ltac step H :=
  cbn [mbind res_bind] in H;
  lazymatch type of H with
  | mbind _ ?m = _ =>
      let E := fresh "E" in
      destruct m eqn:E; [| discriminate H ..]; splitPairs; cbn [mbind res_bind] in H
  end.

Lemma forM_ext {A S} (f g : S -> A -> res S) l st :
  (forall st x, x ∈ l -> f st x = g st x) -> forM f l st = forM g l st.
Proof.
  revert st. induction l as [| x rest IH]; intros st Hfg; [reflexivity |].
  cbn [forM]. rewrite Hfg by (by left).
  destruct (g st x); cbn [mbind res_bind]; [| reflexivity ..].
  apply IH. intros st' y Hy. apply Hfg. by right.
Qed.

(** *** The loop of emitUnmatched *)

Lemma uint16_small x : 0 <= x < 65536 -> uint16 x = x.
Proof. intros Hx. unfold uint16. apply Z.mod_small. lia. Qed.

Lemma uint64_fits x : 0 <= x < 2 ^ 64 -> uint64 x = x.
Proof. intros Hx. unfold uint64. apply Z.mod_small. lia. Qed.

(** The loop of [emitUnmatched]: it never emits more rows than the
    limit, and it stops short of the limit only at the end of the
    table. *)
Lemma unmatchedLoop_bound rows : forall limit vlen matched bidx n r bidx' n' r',
  0 <= n <= limit -> limit < 65536 ->
  unmatchedLoop rows limit vlen matched (bidx, n, r) = Ok (bidx', n', r') ->
  n <= n' <= limit
  /\ (n' = limit \/ vlen <= r')
  /\ (vlen <= r -> n' = n /\ r' = r /\ bidx' = bidx).
Proof.
  induction rows as [| rows IH]; intros limit vlen matched bidx n r bidx' n' r' Hn Hlim;
    cbn [unmatchedLoop];
    destruct (Z.ltb_spec n limit) as [Hnl | Hnl];
    destruct (Z.ltb_spec r vlen) as [Hrv | Hrv]; cbn [andb];
    try discriminate;
    try (intros [= <- <- <-]; split; [lia |]; split; [lia | intros; lia || auto]).
  intros Hl. step Hl. step Hl. cbn [fst snd] in Hl.
  lazymatch goal with
  | E : (if negb ?m then _ else _) = Ok (?l, ?z) |- _ =>
      assert (Hz : n <= z <= n + 1);
      [ destruct m; cbn [negb] in E;
        [ injection E as <- <-; lia
        | step E; injection E as <- <-; rewrite uint16_small by lia; lia ]
      | ]
  end.
  apply IH in Hl as (I1 & I2 & _); [| lia | exact Hlim].
  split; [lia |]. split; [exact I2 | lia].
Qed.

Lemma unmatchedRows_nil matched r : unmatchedRows matched r r = [].
Proof. unfold unmatchedRows. by rewrite Z.sub_diag. Qed.

Lemma unmatchedRows_step (matched : list bool) (r r' : Z) (m : bool) :
  r < r' ->
  matched !! Z.to_nat r = Some m ->
  unmatchedRows matched r r'
  = (if m then [] else [r] : list Z) ++ unmatchedRows matched (r + 1) r'.
Proof.
  intros Hr Hm. unfold unmatchedRows.
  rewrite (seqZ_cons r (r' - r)) by lia.
  replace (Z.pred (r' - r)) with (r' - (r + 1)) by lia.
  replace (Z.succ r) with (r + 1) by lia.
  rewrite filter_cons. destruct (decide (matched !! Z.to_nat r = Some false)) as [Hd | Hd].
  - rewrite Hm in Hd. injection Hd as ->. reflexivity.
  - destruct m; [reflexivity |]. congruence.
Qed.

(** The rows the loop of [emitUnmatched] emits are the unmatched rows
    of the table it has walked over, in their order. *)
Lemma unmatchedLoop_rows rows : forall limit vlen matched bidx n r bidx' n' r',
  0 <= r -> 0 <= n <= limit -> limit < 65536 -> vlen < 2 ^ 64 ->
  unmatchedLoop rows limit vlen matched (bidx, n, r) = Ok (bidx', n', r') ->
  r <= r' <= Z.max r vlen
  /\ n <= n'
  /\ length bidx' = length bidx
  /\ take (Z.to_nat n) bidx' = take (Z.to_nat n) bidx
  /\ drop (Z.to_nat n) (take (Z.to_nat n') bidx') = unmatchedRows matched r r'.
Proof.
  induction rows as [| rows IH];
    intros limit vlen matched bidx n r bidx' n' r' Hr Hn Hlim Hvlen;
    cbn [unmatchedLoop];
    destruct (Z.ltb_spec n limit) as [Hnl | Hnl];
    destruct (Z.ltb_spec r vlen) as [Hrv | Hrv]; cbn [andb];
    try discriminate;
    try (intros [= <- <- <-]; rewrite unmatchedRows_nil, drop_take_id || rewrite unmatchedRows_nil;
         split; [lia |]; split; [lia |]; split; [reflexivity |]; split; [reflexivity |];
         apply drop_ge; rewrite length_take; lia).
  intros Hl. step Hl. step Hl. cbn [fst snd] in Hl.
  rewrite (uint64_fits (r + 1)) in Hl by lia.
  lazymatch goal with
  | Eg : getAt matched r = Ok ?m |- _ => apply getAt_Ok in Eg as [_ Hm]
  end.
  lazymatch goal with
  | E : (if negb ?m then _ else _) = Ok _ |- _ => destruct m; cbn [negb] in E
  end.
  - injection E0 as <- <-.
    apply IH in Hl as (I1 & I2 & I3 & I4 & I5); [| lia | lia | exact Hlim | exact Hvlen].
    split; [lia |]. split; [lia |]. split; [exact I3 |]. split; [exact I4 |].
    rewrite (unmatchedRows_step matched r r' true) by (lia || exact Hm).
    exact I5.
  - step E0. injection E0 as <- <-.
    lazymatch goal with
    | Es : setAt bidx n r = Ok _ |- _ => apply setAt_Ok in Es as [Hrange ->]
    end.
    rewrite uint16_small in Hl by lia.
    apply IH in Hl as (I1 & I2 & I3 & I4 & I5); [| lia | lia | exact Hlim | exact Hvlen].
    rewrite length_insert in I3.
    assert (Hat : bidx' !! Z.to_nat n = Some r).
    { rewrite <- (lookup_take_lt bidx' (Z.to_nat (n + 1))) by lia.
      rewrite I4, lookup_take_lt by lia.
      apply list_lookup_insert_eq. lia. }
    split; [lia |]. split; [lia |]. split; [exact I3 |].
    split.
    + apply (f_equal (take (Z.to_nat n))) in I4.
      rewrite !take_take in I4.
      rewrite !Nat.min_l in I4 by lia.
      rewrite I4. apply take_insert_ge. lia.
    + rewrite (unmatchedRows_step matched r r' false) by (lia || exact Hm).
      rewrite <- I5. cbn [app].
      replace (Z.to_nat (n + 1)) with (S (Z.to_nat n)) by lia.
      apply drop_S. rewrite lookup_take_lt by lia. exact Hat.
Qed.

(** With a row of [buildRowMatched] for every row of the table and
    room for a full batch in [buildIdx], the loop of [emitUnmatched]
    ends without a panic, within as many rounds as rows are left. *)
Lemma unmatchedLoop_total rows : forall limit vlen matched bidx n r,
  0 <= r -> 0 <= n <= limit -> limit < 65536 -> vlen < 2 ^ 64 ->
  vlen <= Z.of_nat (length matched) ->
  limit <= Z.of_nat (length bidx) ->
  (Z.to_nat (vlen - r) <= rows)%nat ->
  exists res, unmatchedLoop rows limit vlen matched (bidx, n, r) = Ok res.
Proof.
  induction rows as [| rows IH];
    intros limit vlen matched bidx n r Hr Hn Hlim Hvlen Hm Hb Hrows;
    cbn [unmatchedLoop];
    destruct (Z.ltb_spec n limit) as [Hnl | Hnl];
    destruct (Z.ltb_spec r vlen) as [Hrv | Hrv]; cbn [andb];
    try (eexists; reflexivity); try lia.
  destruct (lookup_lt_is_Some_2 matched (Z.to_nat r) ltac:(lia)) as [m Hmr].
  unfold getAt. destruct (Z.ltb_spec r 0) as [? | _]; [lia |].
  rewrite Hmr. cbn [mbind res_bind].
  rewrite (uint64_fits (r + 1)) by lia.
  destruct m; cbn [negb mbind res_bind fst snd].
  - apply IH; lia.
  - unfold setAt.
    destruct (Z.leb_spec 0 n); [| lia].
    destruct (Z.ltb_spec n (Z.of_nat (length bidx))); [| lia].
    cbn [andb mbind res_bind fst snd].
    rewrite uint16_small by lia.
    apply IH; rewrite ?length_insert; lia.
Qed.

(** X7.  The loop of [emitUnmatched] ends without a panic, within
    as many rounds as rows are left, when [buildRowMatched] has a row for
    every row of the table and [buildIdx] has room for the limit.  The
    rows it emits are the unmatched rows it has walked over, in their
    order, and it stops at the limit or at the end of the table. *)
Theorem unmatchedLoop_emits (limit vlen : Z) (matched : list bool)
    (bidx : list Z) (r : Z) :
  0 <= r -> 0 <= limit < 65536 -> vlen < 2 ^ 64 ->
  vlen <= Z.of_nat (length matched) ->
  limit <= Z.of_nat (length bidx) ->
  exists bidx' n' r',
    unmatchedLoop (Z.to_nat (vlen - r)) limit vlen matched (bidx, 0, r)
    = Ok (bidx', n', r')
    /\ 0 <= n' <= limit
    /\ r <= r' <= Z.max r vlen
    /\ (n' = limit \/ vlen <= r')
    /\ length bidx' = length bidx
    /\ take (Z.to_nat n') bidx' = unmatchedRows matched r r'.
Proof.
  intros Hr Hlim Hvlen Hm Hb.
  destruct (unmatchedLoop_total (Z.to_nat (vlen - r)) limit vlen matched bidx 0 r)
    as [[[bidx' n'] r'] Hloop]; try lia.
  exists bidx', n', r'. split; [exact Hloop |].
  pose proof Hloop as Hloop'.
  apply unmatchedLoop_bound in Hloop' as (L1 & L2 & _); [| lia | lia].
  apply unmatchedLoop_rows in Hloop as (R1 & _ & R3 & _ & R5); [| lia ..].
  split; [exact L1 |]. split; [exact R1 |]. split; [exact L2 |].
  split; [exact R3 |]. rewrite <- R5. reflexivity.
Qed.

(** *** The loop that marks build rows *)

Lemma markLoop_spec (skipUnmatched : bool) (l : list Z) : forall p p',
  Forall (fun i => 0 <= i) l ->
  forM (fun (p : hashJoinProber) (i : Z) =>
          skip ← (if skipUnmatched then getAt (probeRowUnmatched p) i else Ok false);
          if (skip : bool) then Ok p
          else
            bi ← getAt (buildIdx p) i;
            brm ← setAt (buildRowMatched p) bi true;
            Ok (setBuildRowMatched p brm)) l p = Ok p' ->
  buildIdx p' = buildIdx p
  /\ probeIdx p' = probeIdx p
  /\ probeRowUnmatched p' = probeRowUnmatched p
  /\ length (buildRowMatched p') = length (buildRowMatched p)
  /\ forall r : nat,
       buildRowMatched p' !! r = Some true
       <-> buildRowMatched p !! r = Some true \/ exists i, i ∈ l /\ marks skipUnmatched p i r.
Proof.
  induction l as [| i rest IH]; intros p p' Hl; cbn [forM].
  - intros [= <-]. repeat (split; [reflexivity |]). intros r. split; [auto |].
    intros [Hr | (i & Hi & _)]; [exact Hr |]. by apply elem_of_nil in Hi.
  - apply Forall_cons_1 in Hl as [Hi Hrest]. intros Hf. step Hf.
    apply IH in Hf as (I1 & I2 & I3 & I4 & I5); [| exact Hrest].
    rename E into Hbody. step Hbody.
    lazymatch goal with
    | E : (if skipUnmatched then _ else _) = Ok ?b |- _ => rename E into Hskip; destruct b
    end.
    + (* the pair stands for an unmatched probe row *)
      injection Hbody as <-.
      repeat (split; [assumption |]). intros r. rewrite I5.
      split; intros [Hr | (j & Hj & Hm)]; auto.
      * right. exists j. split; [by right | exact Hm].
      * apply elem_of_cons in Hj as [-> | Hj]; [| right; eauto].
        destruct Hm as [_ Hpru]. destruct skipUnmatched; [| discriminate].
        apply getAt_Ok in Hskip as [_ Hskip].
        rewrite (Hpru eq_refl) in Hskip. discriminate.
    + step Hbody. step Hbody. injection Hbody as <-.
      lazymatch goal with
      | Eg : getAt (buildIdx p) i = Ok ?bi, Es : setAt _ ?bi true = Ok _ |- _ =>
          rename bi into z;
          apply getAt_Ok in Eg as [_ Hbi]; apply setAt_Ok in Es as [Hrange ->]
      end.
      cbn [buildIdx probeIdx probeRowUnmatched buildRowMatched setBuildRowMatched] in *.
      rewrite length_insert in I4.
      repeat (split; [assumption |]). intros r. rewrite I5.
      assert (Hmark : forall j, marks skipUnmatched (setBuildRowMatched p
                        (<[Z.to_nat z := true]> (buildRowMatched p))) j r
                      <-> marks skipUnmatched p j r) by (intros j; reflexivity).
      setoid_rewrite Hmark.
      destruct (decide (r = Z.to_nat z)) as [-> | Hne].
      * rewrite list_lookup_insert_eq by lia.
        split; [intros _ | auto].
        right. exists i. split; [by left |]. split.
        -- rewrite Hbi. f_equal. lia.
        -- intros ->. apply getAt_Ok in Hskip as [_ Hskip]. exact Hskip.
      * rewrite list_lookup_insert_ne by auto.
        split; intros [Hr | (j & Hj & Hm)]; auto.
        -- right. exists j. split; [by right | exact Hm].
        -- apply elem_of_cons in Hj as [-> | Hj]; [| right; eauto].
           destruct Hm as [Hm _]. rewrite Hbi in Hm. injection Hm as ->. lia.
Qed.

(** *** The output column types of a constructed operator *)

Lemma NewEqHashJoinerOp_outColTypes ls rs le re lt rt rd jt op :
  NewEqHashJoinerOp ls rs le re lt rt rd jt = inl op ->
  Z.of_nat (length lt) <= 2 ^ 32 ->
  Z.of_nat (length rt) <= 2 ^ 32 ->
  outColTypesOf (spec op) = Ok (lt ++ (if leftOnly jt then [] else rt))
  /\ spec op
     = {| joinType := jt;
          left := {| eqCols := le; outCols := allColumns (length lt);
                     sourceTypes := lt; outer := outer (left (spec op)) |};
          right := {| eqCols := re;
                      outCols := if leftOnly jt then [] else allColumns (length rt);
                      sourceTypes := rt; outer := rightOuterJoin jt |};
          rightDistinct := rightDistinct (spec op) |}
  /\ inputOne op = ls /\ inputTwo op = rs
  /\ outputBatchSize op = BatchSize /\ rowIdx op = 0.
Proof.
  intros Hop Hl Hr.
  destruct jt; cbn [NewEqHashJoinerOp] in Hop; try discriminate;
    injection Hop as <-; cbn [leftOnly rightOuterJoin spec left right outer rightDistinct
                               inputOne inputTwo outputBatchSize rowIdx];
    (split; [| repeat split; reflexivity]);
    unfold outColTypesOf; cbn [left right outCols sourceTypes spec];
    rewrite gather_allColumns by (auto; lia); cbn [mbind res_bind app];
    rewrite firstn_all; cbn [take forM];
    rewrite ?gather_allColumns by (auto; lia); rewrite ?firstn_all, ?app_nil_r;
    reflexivity.
Qed.

(** *** build *)

Section Facts.
Context `{Collaborators}.

(** C8, as the code has it.  Once [ht.build] has drained the build
    source, [build] allocates, when [rightDistinct] is false, [same] and
    [visited] with [vals.length + 1] elements (indices [0 .. vals.length]),
    all zero, and, when the right side is outer, [buildRowMatched] with
    [vals.length] elements, all false: its indices are
    [0 .. vals.length - 1], and index [vals.length] is out of range.  It
    then puts the operator into the probing state. *)
Theorem build_allocates (hj : hashJoinEqOp) (t t1 : hashTable) (src : Operator) :
  ht hj = Some t ->
  htBuild t (inputTwo hj) = Ok (t1, src) ->
  (outer (right (spec hj)) = true -> is_Some (prober hj)) ->
  0 <= vlength (vals t1) < 2 ^ 64 - 1 ->
  let n := Z.to_nat (vlength (vals t1)) in
  exists hj' t',
    build hj = Ok hj'
    /\ ht hj' = Some t'
    /\ runningState hj' = hjProbing
    /\ inputTwo hj' = src
    /\ spec hj' = spec hj
    /\ vals t' = vals t1
    /\ (if rightDistinct (spec hj)
        then t' = t1
        else same t' = replicate (S n) 0
             /\ visited t' = replicate (S n) false
             /\ same t' !! n = Some 0 /\ same t' !! S n = None
             /\ visited t' !! n = Some false /\ visited t' !! S n = None)
    /\ (if outer (right (spec hj))
        then exists p p',
            prober hj = Some p /\ prober hj' = Some p'
            /\ buildRowMatched p' = replicate n false
            /\ length (buildRowMatched p') = n
            /\ buildRowMatched p' !! n = None
            /\ batch p' = batch p /\ pspec p' = pspec p
        else prober hj' = prober hj).
Proof.
  intros Ht Hb Hp Hv n. unfold build. rewrite Ht. cbn [deref mbind res_bind].
  rewrite Hb. cbn [mbind res_bind].
  assert (Hn1 : Z.to_nat (uint64 (vlength (vals t1) + 1)) = S n).
  { unfold uint64. rewrite Z.mod_small by lia. subst n. lia. }
  assert (Hn2 : Z.to_nat (vlength (vals t1) + 1) = S n) by (subst n; lia).
  destruct (outer (right (spec hj))) eqn:Ho.
  - destruct (Hp eq_refl) as [p Hpr]. rewrite Hpr. cbn [deref mbind res_bind].
    eexists _, _. split; [reflexivity |].
    split; [reflexivity |]. split; [reflexivity |]. split; [reflexivity |].
    split; [reflexivity |].
    destruct (rightDistinct (spec hj)); cbn [negb].
    + split; [reflexivity |]. split; [reflexivity |].
      exists p. eexists. split; [reflexivity |]. split; [reflexivity |].
      cbn. split; [reflexivity |]. split; [apply length_replicate |].
      split; [| by split]. apply lookup_ge_None. rewrite length_replicate. lia.
    + split; [reflexivity |].
      split.
      { unfold allocateVisited. cbn. rewrite Hn1, Hn2.
        split; [reflexivity |]. split; [reflexivity |].
        rewrite !lookup_replicate. repeat split; try lia;
          apply lookup_ge_None; rewrite length_replicate; lia. }
      exists p. eexists. split; [reflexivity |]. split; [reflexivity |].
      cbn. split; [reflexivity |]. split; [apply length_replicate |].
      split; [| by split]. apply lookup_ge_None. rewrite length_replicate. lia.
  - cbn [mbind res_bind].
    eexists _, _. split; [reflexivity |].
    split; [reflexivity |]. split; [reflexivity |]. split; [reflexivity |].
    split; [reflexivity |].
    destruct (rightDistinct (spec hj)); cbn [negb].
    + split; [reflexivity |]. split; reflexivity.
    + split; [reflexivity |]. split; [| reflexivity].
      unfold allocateVisited. cbn. rewrite Hn1, Hn2.
      split; [reflexivity |]. split; [reflexivity |].
      rewrite !lookup_replicate. repeat split; try lia;
        apply lookup_ge_None; rewrite length_replicate; lia.
Qed.

(** *** congregate *)

Lemma updCol_spec b j f b' :
  updCol b j f = Ok b' ->
  0 <= j
  /\ exists v v',
      colVecs b !! Z.to_nat j = Some v /\ f v = Ok v'
      /\ colVecs b' = <[Z.to_nat j := v']> (colVecs b)
      /\ length_ b' = length_ b /\ selection b' = selection b.
Proof.
  unfold updCol, ColVec. intros Hu.
  destruct (getAt (colVecs b) j) as [v | |] eqn:Hg; [| discriminate ..].
  cbn [mbind res_bind] in Hu.
  destruct (f v) as [v' | |] eqn:Hf; [| discriminate ..].
  cbn [mbind res_bind] in Hu.
  destruct (setAt (colVecs b) j v') as [cs | |] eqn:Hs; [| discriminate ..].
  cbn [mbind res_bind] in Hu. injection Hu as <-.
  apply getAt_Ok in Hg as [Hj Hv]. apply setAt_Ok in Hs as [_ ->].
  split; [exact Hj |]. exists v, v'. auto.
Qed.

(** The columns that a copying loop does not name are left as they
    are. *)
Lemma copyInto_outside b offset cols mk b' :
  0 <= offset ->
  copyInto b offset cols mk = Ok b' ->
  length (colVecs b') = length (colVecs b)
  /\ forall k : nat,
       (Z.of_nat k < offset \/ offset + Z.of_nat (length cols) <= Z.of_nat k) ->
       colVecs b' !! k = colVecs b !! k.
Proof.
  intros Hoff. unfold copyInto.
  apply (forM_inv _ (fun b' =>
           length (colVecs b') = length (colVecs b)
           /\ forall k : nat,
                (Z.of_nat k < offset \/ offset + Z.of_nat (length cols) <= Z.of_nat k) ->
                colVecs b' !! k = colVecs b !! k)).
  - intros st [i c] st' Hin [Hlen Hout] Hbody.
    apply list_elem_of_lookup in Hin as [n Hn].
    rewrite list_lookup_imap in Hn.
    destruct (cols !! n) eqn:Hc; [| discriminate]. simpl in Hn.
    injection Hn as <- <-. apply lookup_lt_Some in Hc.
    apply updCol_spec in Hbody as (_ & v & v' & _ & _ & -> & _ & _).
    split; [by rewrite length_insert |].
    intros k Hk. rewrite list_lookup_insert_ne by lia. by apply Hout.
  - by split.
Qed.

(** The loop of [congregate] that sets the nulls of the right output
    columns: each of them gets the null bits that [g] makes of its own,
    and no other column is touched. *)
Lemma nullLoop_spec (g : Nulls -> Nulls) (off len start : nat) b b2 :
  forM (fun b outColIdx =>
          updCol b (Z.of_nat (outColIdx + off))
            (fun outCol => Ok (withNulls outCol (g (nulls outCol)))))
       (seq start len) b = Ok b2 ->
  length (colVecs b2) = length (colVecs b)
  /\ (forall k : nat,
        (start + off <= k < start + len + off)%nat ->
        exists v, colVecs b !! k = Some v
                  /\ colVecs b2 !! k = Some (withNulls v (g (nulls v))))
  /\ (forall k : nat,
        ~ (start + off <= k < start + len + off)%nat ->
        colVecs b2 !! k = colVecs b !! k).
Proof.
  revert start b. induction len as [| len IH]; intros start b; simpl.
  - intros [= <-]. split; [reflexivity |]. split; [intros k Hk; lia | auto].
  - destruct (updCol b _ _) as [b1 | |] eqn:Hu; [| discriminate ..].
    cbn [mbind res_bind]. intros Hrest.
    apply updCol_spec in Hu as (_ & v & v' & Hv & [= <-] & Hcs & _ & _).
    rewrite Nat2Z.id in Hv, Hcs.
    destruct (IH _ _ Hrest) as (Hlen & Hin & Hout).
    rewrite Hcs, length_insert in Hlen. split; [exact Hlen |].
    split.
    + intros k Hk. destruct (decide (k = start + off)%nat) as [-> | Hne].
      * exists v. split; [exact Hv |].
        rewrite Hout by lia. rewrite Hcs.
        apply list_lookup_insert_eq. by eapply lookup_lt_Some.
      * destruct (Hin k ltac:(lia)) as (v0 & Hv0 & Hv2).
        rewrite Hcs, list_lookup_insert_ne in Hv0 by lia.
        exists v0. by split.
    + intros k Hk. rewrite Hout by lia. rewrite Hcs.
      apply list_lookup_insert_ne. lia.
Qed.

Lemma markMatched_batch skip p n p' :
  markMatched skip p n = Ok p' ->
  batch p' = batch p /\ pspec p' = pspec p
  /\ probeRowUnmatched p' = probeRowUnmatched p.
Proof.
  unfold markMatched.
  apply (forM_inv _ (fun p' => batch p' = batch p /\ pspec p' = pspec p
                               /\ probeRowUnmatched p' = probeRowUnmatched p)).
  - intros st i st' _ (H1 & H2 & H3) Hbody.
    destruct (if skip then getAt (probeRowUnmatched st) i else Ok false)
      as [[] | |]; cbn [mbind res_bind] in Hbody; try discriminate.
    + injection Hbody as <-. auto.
    + destruct (getAt (buildIdx st) i) as [bi | |]; [| discriminate ..].
      cbn [mbind res_bind] in Hbody.
      destruct (setAt (buildRowMatched st) bi true) as [brm | |]; [| discriminate ..].
      cbn [mbind res_bind] in Hbody. injection Hbody as <-. auto.
  - auto.
Qed.

(** C7.  [congregate] on a hash table without build rows.  The
    projection of the build side is skipped: whatever [Copy] does, every
    right output column keeps its values, and no column but the left
    output columns is copied into.  For a left outer join the null bits
    of every right output column are still set at every position where
    [probeRowUnmatched] is true, and at no other position; without a left
    outer join the right output columns are not touched at all. *)
Theorem congregate_empty_table (t : hashTable) (p : hashJoinProber)
    (nResults : Z) (b : Batch) (batchSize : Z) (p' : hashJoinProber) :
  vlength (vals t) = 0 ->
  Z.of_nat (length (probeRowUnmatched p)) <= 65536 ->
  congregate t p nResults b batchSize = Ok p' ->
  let rightColOffset := length (outCols (left (pspec p))) in
  Length (batch p') = nResults
  /\ length (colVecs (batch p')) = length (colVecs (batch p))
  /\ (forall k : nat,
        (rightColOffset <= k)%nat ->
        if outer (left (pspec p)) && bool_decide (k < rightColOffset + length (htOutCols t))%nat
        then exists v v',
            colVecs (batch p) !! k = Some v
            /\ colVecs (batch p') !! k = Some v'
            /\ values v' = values v
            /\ (forall i, probeRowUnmatched p !! i = Some true ->
                          NullAt (nulls v') i = true)
            /\ (forall i, probeRowUnmatched p !! i <> Some true ->
                          NullAt (nulls v') i = NullAt (nulls v) i)
        else colVecs (batch p') !! k = colVecs (batch p) !! k).
Proof.
  intros Hv Hpru Hc rightColOffset. unfold congregate in Hc.
  rewrite Hv in Hc. change (0 <? 0)%Z with false in Hc. cbn [mbind res_bind] in Hc.
  fold rightColOffset in Hc.
  destruct (if outer (left (pspec p)) then _ else Ok (batch p))
    as [b2 | |] eqn:Hb2; [| discriminate ..].
  cbn [mbind res_bind] in Hc.
  destruct (sliceOf (ColVecs b2) 0 rightColOffset) as [? | |]; [| discriminate ..].
  cbn [mbind res_bind] in Hc.
  destruct (copyInto b2 0 _ _) as [b3 | |] eqn:Hb3; [| discriminate ..].
  cbn [mbind res_bind] in Hc.
  destruct (if outer (right (pspec p)) then _ else Ok p) as [p1 | |] eqn:Hp1;
    [| discriminate ..].
  cbn [mbind res_bind] in Hc. injection Hc as <-.
  apply copyInto_outside in Hb3 as [Hlen3 Hout3]; [| lia].
  cbn [batch setBatch Length SetLength length_ colVecs].
  split; [reflexivity |].
  destruct (outer (left (pspec p))) eqn:Hlo.
  - apply nullLoop_spec in Hb2 as (Hlen2 & Hin2 & Hout2).
    split; [congruence |].
    intros k Hk. cbn [andb]. rewrite Hout3 by (fold rightColOffset; lia).
    destruct (bool_decide (k < rightColOffset + length (htOutCols t))%nat) eqn:Hd.
    + apply bool_decide_eq_true in Hd.
      destruct (Hin2 k ltac:(lia)) as (v & Hv1 & Hv2).
      exists v, (withNulls v (setUnmatchedNulls (probeRowUnmatched p) (nulls v))).
      split; [exact Hv1 |]. split; [exact Hv2 |]. split; [reflexivity |].
      cbn [nulls withNulls]. split.
      * intros i Hi. rewrite setUnmatchedNulls_spec by exact Hpru.
        rewrite (bool_decide_eq_true_2 _ Hi). apply orb_true_r.
      * intros i Hi. rewrite setUnmatchedNulls_spec by exact Hpru.
        rewrite (bool_decide_eq_false_2 _ Hi). apply orb_false_r.
    + apply bool_decide_eq_false in Hd. apply Hout2. lia.
  - injection Hb2 as <-. split; [exact Hlen3 |].
    intros k Hk. cbn [andb]. apply Hout3. fold rightColOffset. lia.
Qed.

(** *** The state machine of Next *)

Lemma emitUnmatched_state hj hj' :
  emitUnmatched hj = Ok hj' ->
  runningState hj' = runningState hj /\ spec hj' = spec hj
  /\ inputOne hj' = inputOne hj /\ ht hj' = ht hj
  /\ outputBatchSize hj' = outputBatchSize hj.
Proof.
  unfold emitUnmatched. intros He.
  destruct (prober hj) as [p |]; [| discriminate]. cbn [deref mbind res_bind] in He.
  destruct (ht hj) as [t |] eqn:Ht; [| discriminate]. cbn [deref mbind res_bind] in He.
  destruct (forM _ _ (batch p)) as [b1 | |]; [| discriminate ..].
  cbn [mbind res_bind] in He.
  destruct (unmatchedLoop _ _ _ _ _) as [[[bidx n] r] | |]; [| discriminate ..].
  cbn [mbind res_bind] in He.
  destruct (sliceOf _ _ _) as [? | |]; [| discriminate ..].
  cbn [mbind res_bind] in He.
  destruct (copyInto _ _ _ _) as [b2 | |]; [| discriminate ..].
  cbn [mbind res_bind] in He. injection He as <-. cbn. auto.
Qed.

(** C5.  A step of [Next] in the probing state, once the prober has
    produced its batch.  If the batch is empty and the right side is
    outer, which is the case for RIGHT OUTER and FULL OUTER joins only,
    the operator goes to the state of emitting unmatched rows, and [Next]
    returns what [emitUnmatched] makes of it.  If the batch is empty and
    the right side is not outer, [Next] returns that empty batch and the
    state is still probing.  In every other case the batch is not empty:
    [Next] returns it and the state is still probing.  So a call of
    [Next] in the probing state ends in the emitting state exactly when
    the batch of the prober is empty and the right side is outer. *)
Theorem Next_probing_step (fuel : nat) (hj : hashJoinEqOp) (p : hashJoinProber)
    (t t' : hashTable) (src : Operator) (p' : hashJoinProber) :
  runningState hj = hjProbing ->
  prober hj = Some p ->
  ht hj = Some t ->
  exec fuel (inputOne hj) t (setBatch p (ResetInternalBatch (batch p)))
  = Ok (src, t', p') ->
  let hj' := setProber (setHt (setInputOne (setProber hj
               (Some (setBatch p (ResetInternalBatch (batch p))))) src)
               (Some t')) (Some p') in
  (forall ls rs le re lt rt rd jt op,
      NewEqHashJoinerOp ls rs le re lt rt rd jt = inl op ->
      outer (right (spec op)) = rightOuterJoin jt)
  /\ spec hj' = spec hj /\ runningState hj' = hjProbing
  /\ (if (Length (batch p') =? 0)%Z && outer (right (spec hj))
      then Next fuel hj
           = (hj2 ← emitUnmatched (setRunningState hj' hjEmittingUnmatched);
              p2 ← deref (prober hj2);
              Ok (hj2, batch p2))
      else Next fuel hj = Ok (hj', batch p'))
  /\ (forall hj2 b,
        Next fuel hj = Ok (hj2, b) ->
        (runningState hj2 = hjEmittingUnmatched
         <-> Length (batch p') = 0 /\ outer (right (spec hj)) = true)
        /\ (runningState hj2 = hjProbing
            <-> ~ (Length (batch p') = 0 /\ outer (right (spec hj)) = true))
        /\ (runningState hj2 = hjProbing -> hj2 = hj' /\ b = batch p')
        /\ spec hj2 = spec hj).
Proof.
  intros Hst Hp Ht Hexec hj'.
  split.
  { intros ls rs le re lt rt rd jt op Hnew.
    destruct jt; cbn in Hnew; try discriminate; injection Hnew as <-; reflexivity. }
  split; [reflexivity |]. split; [exact Hst |].
  assert (Hnext :
    Next fuel hj
    = if (Length (batch p') =? 0)%Z && outer (right (spec hj))
      then hj2 ← emitUnmatched (setRunningState hj' hjEmittingUnmatched);
           p2 ← deref (prober hj2);
           Ok (hj2, batch p2)
      else Ok (hj', batch p')).
  { unfold Next. rewrite Hp. cbn [deref mbind res_bind].
    cbn [nextLoop setProber setHt setInputOne runningState prober ht spec inputOne
         deref mbind res_bind].
    rewrite Hst, Ht.
    cbn [nextLoop setProber setHt setInputOne runningState prober ht spec inputOne
         deref mbind res_bind].
    rewrite Hexec.
    cbn [nextLoop setProber setHt setInputOne runningState prober ht spec inputOne
         deref mbind res_bind].
    destruct ((Length (batch p') =? 0)%Z && outer (right (spec hj))); reflexivity. }
  split.
  { rewrite Hnext.
    destruct ((Length (batch p') =? 0)%Z && outer (right (spec hj))); reflexivity. }
  intros hj2 b Hret. rewrite Hnext in Hret.
  destruct ((Length (batch p') =? 0)%Z && outer (right (spec hj))) eqn:Hc.
  - apply andb_true_iff in Hc as [Hlen Hout]. apply Z.eqb_eq in Hlen.
    destruct (emitUnmatched (setRunningState hj' hjEmittingUnmatched))
      as [hj3 | |] eqn:He; [| discriminate ..].
    cbn [mbind res_bind] in Hret.
    destruct (prober hj3) as [p3 |]; [| discriminate].
    cbn [deref mbind res_bind] in Hret. injection Hret as <- <-.
    apply emitUnmatched_state in He as (Hs & Hsp & _).
    cbn in Hs, Hsp. rewrite Hs, Hsp.
    split; [by split |].
    split; [split; [discriminate | intros Hn; exfalso; by apply Hn] |].
    split; [discriminate | reflexivity].
  - injection Hret as <- <-. cbn [runningState setProber setHt setInputOne hj'].
    rewrite Hst.
    assert (Hn : ~ (Length (batch p') = 0 /\ outer (right (spec hj)) = true)).
    { intros [Hl Ho]. rewrite Hl, Ho in Hc. discriminate. }
    split; [split; [discriminate | intros Hy; by destruct Hn] |].
    split; [by split |]. split; [by split | reflexivity].
Qed.

(** *** Init *)

(** X2.  [Init] of an operator that [NewEqHashJoinerOp] has made
    does not panic: every output column has a type.  It allocates the
    hash table for the right source and the prober, with room for a full
    batch in [buildIdx] and [probeIdx], and in [probeRowUnmatched] for a
    left outer join only, and leaves the operator in the building state;
    if the batches of the left source are not empty and not longer than a
    full batch, the operator is ready for [Next]. *)
Theorem Init_constructed ls rs le re lt rt rd jt op :
  NewEqHashJoinerOp ls rs le re lt rt rd jt = inl op ->
  Z.of_nat (length lt) <= 2 ^ 32 ->
  Z.of_nat (length rt) <= 2 ^ 32 ->
  exists hj p,
    Init op = Ok hj
    /\ runningState hj = hjBuilding
    /\ spec hj = spec op /\ inputOne hj = ls /\ inputTwo hj = rs
    /\ outputBatchSize hj = BatchSize
    /\ ht hj = Some (newHashTable hashTableBucketSize rt re
                       (if leftOnly jt then [] else allColumns (length rt)) false)
    /\ prober hj = Some p
    /\ pspec p = spec op /\ poutputBatchSize p = BatchSize
    /\ batch p = NewMemBatch (lt ++ (if leftOnly jt then [] else rt))
    /\ buildIdx p = replicate 1024 0
    /\ probeIdx p = replicate 1024 0
    /\ probeRowUnmatched p
       = (if outer (left (spec op)) then replicate 1024 false else [])
    /\ buildRowMatched p = [] /\ prevBatch p = None
    /\ (Forall (fun b => 0 < Length b <= BatchSize) ls -> wfJoiner hj).
Proof.
  intros Hop Hl Hr.
  destruct (NewEqHashJoinerOp_outColTypes _ _ _ _ _ _ _ _ _ Hop Hl Hr)
    as (Hty & Hspec & Hin1 & Hin2 & Hobs & Hrow).
  unfold Init, newHashJoinProber. rewrite Hty. cbn [mbind res_bind].
  eexists _, _. split; [reflexivity |].
  cbn [runningState setRunningState setProber setHt spec inputOne inputTwo
       outputBatchSize ht prober pspec poutputBatchSize batch buildIdx probeIdx
       probeRowUnmatched buildRowMatched prevBatch].
  rewrite Hobs.
  split; [reflexivity |]. split; [reflexivity |]. split; [exact Hin1 |].
  split; [exact Hin2 |]. split; [reflexivity |].
  split; [rewrite Hspec at 1 2 3; reflexivity |].
  split; [reflexivity |]. split; [reflexivity |]. split; [reflexivity |].
  split; [reflexivity |]. split; [reflexivity |]. split; [reflexivity |].
  split; [reflexivity |]. split; [reflexivity |]. split; [reflexivity |].
  intros Hsrc. split.
  - eexists _, _. cbn. split; [reflexivity |]. split; [reflexivity |].
    split; [reflexivity |]. split; [exact (eq_sym Hobs) |].
    split; [exact I | reflexivity].
  - cbn. rewrite Hobs, Hin1. split; [unfold BatchSize; lia |].
    split; [exact Hsrc | discriminate].
Qed.

(** *** congregate, exec and the batches of Next *)

Lemma markMatched_frame skip p n p' :
  markMatched skip p n = Ok p' ->
  poutputBatchSize p' = poutputBatchSize p
  /\ prevBatch p' = prevBatch p
  /\ prevBatchResumeIdx p' = prevBatchResumeIdx p.
Proof.
  unfold markMatched.
  apply (forM_inv _ (fun p' => poutputBatchSize p' = poutputBatchSize p
                               /\ prevBatch p' = prevBatch p
                               /\ prevBatchResumeIdx p' = prevBatchResumeIdx p)).
  - intros st i st' _ (H1 & H2 & H3) Hbody.
    destruct (if skip then getAt (probeRowUnmatched st) i else Ok false)
      as [[] | |]; cbn [mbind res_bind] in Hbody; try discriminate.
    + injection Hbody as <-. auto.
    + destruct (getAt (buildIdx st) i) as [bi | |]; [| discriminate ..].
      cbn [mbind res_bind] in Hbody.
      destruct (setAt (buildRowMatched st) bi true) as [brm | |]; [| discriminate ..].
      cbn [mbind res_bind] in Hbody. injection Hbody as <-. auto.
  - auto.
Qed.

(** What [congregate] keeps of the prober, and the length it gives the
    output batch. *)
Lemma congregate_frame t p n b bs p' :
  congregate t p n b bs = Ok p' ->
  Length (batch p') = n
  /\ pspec p' = pspec p
  /\ poutputBatchSize p' = poutputBatchSize p
  /\ prevBatch p' = prevBatch p
  /\ prevBatchResumeIdx p' = prevBatchResumeIdx p.
Proof.
  unfold congregate. intros Hc.
  step Hc. step Hc. step Hc. step Hc. step Hc.
  injection Hc as <-. cbn.
  split; [reflexivity |].
  lazymatch goal with
  | E : (if outer (right (pspec p)) then _ else _) = Ok ?p1 |- _ =>
      destruct (outer (right (pspec p)));
      [ pose proof (markMatched_batch _ _ _ _ E) as (_ & M1 & _);
        pose proof (markMatched_frame _ _ _ _ E) as (M2 & M3 & M4); auto
      | injection E as <-; auto ]
  end.
Qed.

(** X6.  The build rows that [congregate] marks.  The index arrays
    and [probeRowUnmatched] are left as they are and [buildRowMatched]
    keeps its length.  Unless the right side is outer, [buildRowMatched]
    is not touched.  If it is, a row is marked as matched afterwards
    exactly if it was before or one of the first [nResults] pairs names
    it, where, for a left outer join as well, the pairs of unmatched probe
    rows do not count. *)
Theorem congregate_marks (t : hashTable) (p : hashJoinProber) (nResults : Z)
    (b : Batch) (batchSize : Z) (p' : hashJoinProber) :
  congregate t p nResults b batchSize = Ok p' ->
  buildIdx p' = buildIdx p
  /\ probeIdx p' = probeIdx p
  /\ probeRowUnmatched p' = probeRowUnmatched p
  /\ length (buildRowMatched p') = length (buildRowMatched p)
  /\ (outer (right (pspec p)) = false -> buildRowMatched p' = buildRowMatched p)
  /\ (outer (right (pspec p)) = true ->
      forall r : nat,
        buildRowMatched p' !! r = Some true
        <-> buildRowMatched p !! r = Some true
            \/ exists i, 0 <= i < nResults /\ marks (outer (left (pspec p))) p i r).
Proof.
  unfold congregate. intros Hc.
  step Hc. step Hc. step Hc. step Hc. step Hc.
  injection Hc as <-.
  cbn [buildIdx probeIdx probeRowUnmatched buildRowMatched setBatch].
  lazymatch goal with
  | E : (if outer (right (pspec p)) then _ else _) = Ok ?p1 |- _ =>
      rename E into Hm; destruct (outer (right (pspec p)))
  end.
  - unfold markMatched in Hm.
    apply markLoop_spec in Hm as (M1 & M2 & M3 & M4 & M5).
    + repeat (split; [assumption |]). split; [discriminate |].
      intros _ r. rewrite M5. setoid_rewrite elem_of_seqZ.
      split; (intros [Hr | (i & Hi & Hmk)]; [by left | right; exists i; split; [lia | exact Hmk]]).
    + apply Forall_lookup. intros k i Hi. apply lookup_seqZ in Hi. lia.
  - injection Hm as <-. repeat (split; [reflexivity |]). split; [auto | discriminate].
Qed.

(** What the probing of one batch of the left source gives. *)
Lemma probeBatch_spec fuel t p b t' p' :
  prevBatch p = None ->
  0 <= poutputBatchSize p ->
  probeBatch fuel t p b (Length b) = Ok (t', p') ->
  pspec p' = pspec p
  /\ poutputBatchSize p' = poutputBatchSize p
  /\ pending t' p'
  /\ 0 <= Length (batch p') <= Z.max (poutputBatchSize p) (Length b)
  /\ (prevBatch p' <> None -> Length (batch p') = poutputBatchSize p).
Proof.
  intros Hpb Hlim. unfold probeBatch. intros Hp.
  step Hp. step Hp. step Hp. step Hp. injection Hp as <- <-.
  lazymatch goal with
  | Ec : congregate _ _ _ _ _ = Ok _ |- _ =>
      apply congregate_frame in Ec as (C1 & C2 & C3 & C4 & C5)
  end.
  lazymatch goal with
  | E : (if rightDistinct (pspec p) then _ else _) = Ok _ |- _ =>
      destruct (rightDistinct (pspec p)); rename E into Hcol
  end.
  - step Hcol. step Hcol. injection Hcol as <- <- <-.
    lazymatch goal with
    | Ed : distinctCollect _ _ _ _ = Ok _ |- _ =>
        apply distinctCollect_spec in Ed as (Hn & (K1 & K2 & K3) & K4)
    end.
    split; [congruence |]. split; [congruence |].
    split; [unfold pending; rewrite C4, K4, Hpb; exact I |].
    split; [lia |]. rewrite C4, K4, Hpb. congruence.
  - step Hcol.
    apply collect_spec in Hcol as ((K1 & K2 & K3) & Hn & Hna & Hpend & Hfull);
      [| exact Hpb | cbn; lia | exact Hlim | reflexivity].
    cbn in K1, K2, Hn, Hfull.
    split; [congruence |]. split; [congruence |].
    split.
    { unfold pending in *. rewrite C4, C2, C5. exact Hpend. }
    split; [lia |]. rewrite C4, C1. exact Hfull.
Qed.

(** The loop of [exec] over the batches of the left source. *)
Lemma probeLoop_spec fuel src : forall t p src' t' p',
  0 < poutputBatchSize p ->
  Forall (fun b => 0 < Length b <= poutputBatchSize p) src ->
  prevBatch p = None ->
  Length (batch p) = 0 ->
  probeLoop fuel src t p = Ok (src', t', p') ->
  pspec p' = pspec p
  /\ poutputBatchSize p' = poutputBatchSize p
  /\ pending t' p'
  /\ 0 <= Length (batch p') <= poutputBatchSize p
  /\ Forall (fun b => 0 < Length b <= poutputBatchSize p) src'
  /\ (Length (batch p') = 0 -> src' = [] /\ prevBatch p' = None).
Proof.
  induction src as [| b rest IH]; intros t p src' t' p' Hlim Hsrc Hpb Hlen;
    cbn [probeLoop].
  - intros [= <- <- <-]. unfold pending. rewrite Hpb, Hlen.
    split; [reflexivity |]. split; [reflexivity |]. split; [exact I |].
    split; [lia |]. split; [constructor | auto].
  - apply Forall_cons_1 in Hsrc as [Hb Hrest].
    destruct (Z.eqb_spec (Length b) 0) as [Hz | _]; [lia |].
    intros Hp. step Hp.
    lazymatch goal with
    | E : probeBatch _ _ _ _ _ = Ok _ |- _ =>
        apply probeBatch_spec in E as (B1 & B2 & B3 & B4 & B5);
        [| exact Hpb | lia]
    end.
    destruct (Z.ltb_spec 0 (Length (batch h0))) as [Hpos | Hzero].
    + injection Hp as <- <- <-.
      split; [exact B1 |]. split; [exact B2 |]. split; [exact B3 |].
      split; [lia |]. split; [exact Hrest | lia].
    + assert (Hnone : prevBatch h0 = None).
      { destruct (prevBatch h0) eqn:Hprev; [| reflexivity].
        assert (Length (batch h0) = poutputBatchSize p) by (apply B5; discriminate).
        lia. }
      apply IH in Hp as (I1 & I2 & I3 & I4 & I5 & I6);
        [| lia | rewrite B2; exact Hrest | exact Hnone | lia].
      rewrite B2 in I2, I4, I5.
      split; [congruence |]. split; [exact I2 |]. split; [exact I3 |].
      split; [exact I4 |]. split; [exact I5 | exact I6].
Qed.

(** [exec]: one call of the prober. *)
Lemma exec_spec fuel src t p src' t' p' :
  0 < poutputBatchSize p ->
  Forall (fun b => 0 < Length b <= poutputBatchSize p) src ->
  pending t p ->
  exec fuel src t p = Ok (src', t', p') ->
  pspec p' = pspec p
  /\ poutputBatchSize p' = poutputBatchSize p
  /\ pending t' p'
  /\ 0 <= Length (batch p') <= poutputBatchSize p
  /\ Forall (fun b => 0 < Length b <= poutputBatchSize p) src'
  /\ (Length (batch p') = 0 -> src' = [] /\ prevBatch p' = None)
  /\ (src = [] -> prevBatch p = None -> Length (batch p') = 0).
Proof.
  intros Hlim Hsrc Hpend. unfold exec. cbn [prevBatch setBatch].
  destruct (prevBatch p) as [pb |] eqn:Hprev.
  - unfold pending in Hpend. rewrite Hprev in Hpend.
    destruct Hpend as (Hanti & Hresume & Hmatch).
    intros He. step He. step He. injection He as <- <- <-.
    lazymatch goal with
    | Ec : congregate _ _ _ _ _ = Ok _ |- _ =>
        apply congregate_frame in Ec as (C1 & C2 & C3 & C4 & C5)
    end.
    lazymatch goal with
    | Ecol : collect _ _ _ _ _ = Ok _ |- _ =>
        pose proof (collect_resume_positive t
                      (setPrevBatch (setBatch p (SetLength (batch p) 0)) None)
                      pb _ _ _ _ eq_refl Hanti Hresume Hlim Hmatch Ecol) as Hpos;
        apply collect_spec in Ecol as ((K1 & K2 & K3) & Hn & Hna & Hp' & Hfull);
        [| reflexivity | cbn; lia | cbn; lia | reflexivity]
    end.
    cbn in K1, K2, Hn, Hna, Hfull.
    split; [congruence |]. split; [congruence |].
    split.
    { unfold pending in *. rewrite C4, C2, C5. exact Hp'. }
    split; [rewrite C1; split; [lia | apply Hna; congruence] |].
    split; [exact Hsrc |].
    split; [lia | discriminate].
  - intros He.
    assert (Hnil : src = [] -> Length (batch p') = 0).
    { intros ->. cbn [probeLoop] in He. injection He as <- <- <-. reflexivity. }
    apply probeLoop_spec in He as (I1 & I2 & I3 & I4 & I5 & I6);
      [| exact Hlim | exact Hsrc | exact Hprev | reflexivity].
    cbn in I1, I2, I4, I5.
    repeat (split; [assumption |]).
    intros Hs _. exact (Hnil Hs).
Qed.

(** [emitUnmatched], as far as the loop over the table decides it. *)
Lemma emitUnmatched_loop hj hj' p t :
  prober hj = Some p ->
  ht hj = Some t ->
  emitUnmatched hj = Ok hj' ->
  exists bidx n b2,
    unmatchedLoop (Z.to_nat (vlength (vals t) - rowIdx hj)) (outputBatchSize hj)
      (vlength (vals t)) (buildRowMatched p) (buildIdx p, 0, rowIdx hj)
    = Ok (bidx, n, rowIdx hj')
    /\ prober hj' = Some (setBatch (setBuildIdx p bidx) (SetLength b2 n)).
Proof.
  intros Hp Ht. unfold emitUnmatched. rewrite Hp, Ht. cbn [deref mbind res_bind].
  intros He. step He. step He. step He. step He. injection He as <-.
  cbn [rowIdx setRowIdx prober setProber].
  eexists _, _, _. split; reflexivity.
Qed.

(** X8.  [emitUnmatched].  If it returns, the state, the
    specification, the left source, the table and the output batch size
    are as before; the batch has at most [outputBatchSize] rows; [rowIdx]
    has moved forward, not beyond the end of the table; the batch is full
    or the table has been walked to its end; the rows emitted, the first
    positions of [buildIdx], are the build rows not marked as matched
    between the old and the new [rowIdx], in their order;
    [buildRowMatched] is untouched; and every probe-side column of the
    batch has all its null bits set. *)
Theorem emitUnmatched_rows (hj hj' : hashJoinEqOp) (p : hashJoinProber)
    (t : hashTable) :
  prober hj = Some p ->
  ht hj = Some t ->
  pspec p = spec hj ->
  0 <= rowIdx hj ->
  0 <= outputBatchSize hj < 65536 ->
  vlength (vals t) < 2 ^ 64 ->
  emitUnmatched hj = Ok hj' ->
  runningState hj' = runningState hj /\ spec hj' = spec hj
  /\ inputOne hj' = inputOne hj /\ ht hj' = Some t
  /\ outputBatchSize hj' = outputBatchSize hj
  /\ exists p',
      prober hj' = Some p'
      /\ 0 <= Length (batch p') <= outputBatchSize hj
      /\ rowIdx hj <= rowIdx hj' <= Z.max (rowIdx hj) (vlength (vals t))
      /\ (Length (batch p') = outputBatchSize hj \/ vlength (vals t) <= rowIdx hj')
      /\ take (Z.to_nat (Length (batch p'))) (buildIdx p')
         = unmatchedRows (buildRowMatched p) (rowIdx hj) (rowIdx hj')
      /\ buildRowMatched p' = buildRowMatched p
      /\ length (colVecs (batch p')) = length (colVecs (batch p))
      /\ (forall k : nat,
            (k < length (outCols (left (spec hj))))%nat ->
            exists v, colVecs (batch p) !! k = Some v
                      /\ colVecs (batch p') !! k = Some (withNulls v (fun _ => true))).
Proof.
  intros Hp Ht Hps Hrow Hlim Hvlen Hem.
  destruct (emitUnmatched_state _ _ Hem) as (S1 & S2 & S3 & S4 & S5).
  repeat (split; [congruence |]).
  revert Hem. unfold emitUnmatched. rewrite Hp, Ht. cbn [deref mbind res_bind].
  intros He. step He. step He. step He. step He. injection He as <-.
  cbn [rowIdx setRowIdx prober setProber].
  lazymatch goal with
  | E : unmatchedLoop _ _ _ _ _ = Ok (?l, ?n, ?r) |- _ =>
      rename l into bidx, n into nResults, r into rowIdx', E into Hloop
  end.
  eexists. split; [reflexivity |].
  cbn [batch setBatch buildIdx setBuildIdx buildRowMatched Length SetLength length_ colVecs].
  pose proof Hloop as Hloop'.
  apply unmatchedLoop_bound in Hloop' as (L1 & L2 & _); [| lia | lia].
  apply unmatchedLoop_rows in Hloop as (R1 & _ & _ & _ & R5); [| lia ..].
  split; [exact L1 |]. split; [exact R1 |]. split; [exact L2 |].
  split; [rewrite <- R5; reflexivity |]. split; [reflexivity |].
  lazymatch goal with
  | E : forM _ (seq 0 _) (batch p) = Ok ?b1, E' : copyInto ?b1 _ _ _ = Ok ?b2 |- _ =>
      rename E into Hnull, E' into Hcopy
  end.
  rewrite (forM_ext _ (fun b outColIdx =>
             updCol b (Z.of_nat (outColIdx + 0))
               (fun outCol => Ok (withNulls outCol (SetNulls (nulls outCol))))))
    in Hnull by (intros; by rewrite Nat.add_0_r).
  apply nullLoop_spec in Hnull as (N1 & N2 & _).
  apply copyInto_outside in Hcopy as (C1 & C2); [| lia].
  split; [congruence |].
  intros k Hk. rewrite C2 by lia.
  destruct (N2 k) as (v & Hv1 & Hv2); [rewrite Hps; lia |].
  exists v. split; [exact Hv1 | exact Hv2].
Qed.

Lemma build_frame hj hj1 :
  build hj = Ok hj1 ->
  runningState hj1 = hjProbing /\ spec hj1 = spec hj
  /\ inputOne hj1 = inputOne hj /\ outputBatchSize hj1 = outputBatchSize hj
  /\ rowIdx hj1 = rowIdx hj
  /\ (exists t2, ht hj1 = Some t2)
  /\ (forall p, prober hj = Some p ->
        exists p1, prober hj1 = Some p1 /\ pspec p1 = pspec p
                   /\ poutputBatchSize p1 = poutputBatchSize p
                   /\ prevBatch p1 = prevBatch p).
Proof.
  unfold build. intros Hb. step Hb. step Hb. step Hb. injection Hb as <-.
  cbn. repeat (split; [reflexivity |]). split; [eauto |].
  intros p Hp.
  lazymatch goal with
  | E : (if outer (right (spec hj)) then _ else _) = Ok ?o |- _ =>
      destruct (outer (right (spec hj)));
      [ rewrite Hp in E; cbn [deref mbind res_bind] in E; injection E as <-;
        eexists; split; [reflexivity |]; cbn; auto
      | injection E as <-; exists p; auto ]
  end.
Qed.

Lemma nextPost_trans hj hj1 hj' b :
  outputBatchSize hj1 = outputBatchSize hj ->
  (exhausted hj -> exhausted hj1) ->
  nextPost hj1 hj' b -> nextPost hj hj' b.
Proof.
  intros Ho He (P1 & P2 & P3 & P4 & P5 & P6). unfold nextPost.
  rewrite <- Ho. auto 10.
Qed.

Lemma nextLoop_spec rounds : forall fuel hj hj' b,
  wfJoiner hj -> nextLoop rounds fuel hj = Ok (hj', b) -> nextPost hj hj' b.
Proof.
  induction rounds as [| rounds IH]; intros fuel hj hj' b Hwf; [discriminate |].
  destruct Hwf as ((p & t & Hp & Ht & Hps & Hpo & Hpend & Hnp) & Hlim & Hsrc & Hemit).
  cbn [nextLoop]. destruct (runningState hj) eqn:Hst.
  - (* building *)
    intros Hn. step Hn.
    lazymatch goal with
    | E : build hj = Ok ?h1 |- _ =>
        apply build_frame in E as (B1 & B2 & B3 & B4 & B5 & (t2 & B6) & B7);
        destruct (B7 p Hp) as (p1 & Q1 & Q2 & Q3 & Q4)
    end.
    assert (Hprev : prevBatch p = None) by (apply Hnp; discriminate).
    apply IH in Hn.
    + revert Hn. apply nextPost_trans; [exact B4 |].
      intros (X1 & p0 & t0 & X2 & X3 & X4 & X5).
      split; [congruence |]. exists p1, t2.
      split; [exact Q1 |]. split; [exact B6 |]. split; [congruence |].
      rewrite B2. intros Ho. destruct (X5 Ho) as [X6 _]. congruence.
    + split.
      { exists p1, t2. split; [exact Q1 |]. split; [exact B6 |].
        split; [congruence |]. split; [congruence |].
        split; [unfold pending; rewrite Q4, Hprev; exact I |].
        intros _. congruence. }
      rewrite B4, B3, B1, B2. split; [exact Hlim |]. split; [exact Hsrc |].
      discriminate.
  - (* probing *)
    rewrite Hp, Ht. cbn [deref mbind res_bind]. intros Hn. step Hn.
    lazymatch goal with
    | E : exec _ _ _ _ = Ok (?a, ?b, ?c) |- _ =>
        rename a into src1, b into t1, c into p1, E into Hex
    end.
    apply exec_spec in Hex as (E1 & E2 & E3 & E4 & E5 & E6 & E7);
      [| lia | rewrite Hpo; exact Hsrc | exact Hpend].
    rewrite Hpo in E4, E5.
    set (hj2 := setProber (setHt (setInputOne hj src1) (Some t1)) (Some p1)) in *.
    assert (Hwf2 : wfJoiner hj2).
    { split.
      - exists p1, t1. cbn. split; [reflexivity |]. split; [reflexivity |].
        split; [congruence |]. split; [congruence |]. split; [exact E3 |].
        intros Hne. congruence.
      - cbn. split; [exact Hlim |]. split; [exact E5 |].
        intros Hem. congruence. }
    assert (Hpost : (Length (batch p1) = 0 -> outer (right (spec hj)) = false) ->
                    nextPost hj hj2 (batch p1)).
    { intros Hno.
      split; [exact E4 |]. split; [reflexivity |].
      split; [exists p1; split; reflexivity |]. split; [exact Hwf2 |].
      split; [| intros (X1 & p0 & t0 & X2 & _ & X4 & _); apply E7; congruence].
      intros Hz. destruct (E6 Hz) as [-> Hnone].
      split; [reflexivity |]. exists p1, t1.
      split; [reflexivity |]. split; [reflexivity |]. split; [exact Hnone |].
      cbn. rewrite (Hno Hz). discriminate. }
    change (spec hj2) with (spec hj) in Hn.
    destruct (Z.eqb_spec (Length (batch p1)) 0) as [Hz | Hnz];
      [destruct (outer (right (spec hj))) eqn:Ho |]; cbn [andb] in Hn.
    + destruct (E6 Hz) as [Hnil Hnone].
      apply IH in Hn.
      * revert Hn. apply nextPost_trans; [reflexivity |].
        intros (_ & p0 & t0 & _ & _ & _ & X5).
        destruct (X5 Ho) as [X6 _]. congruence.
      * split.
        -- exists p1, t1. cbn. split; [reflexivity |]. split; [reflexivity |].
           split; [congruence |]. split; [congruence |]. split; [exact E3 |].
           intros _. exact Hnone.
        -- cbn. split; [exact Hlim |]. split; [exact E5 |].
           intros _. split; [exact Hnil | exact Ho].
    + injection Hn as <- <-. apply Hpost. reflexivity.
    + injection Hn as <- <-. apply Hpost. intros Hz. contradiction.
  - (* emitting unmatched rows *)
    intros Hn. step Hn. step Hn. injection Hn as <- <-.
    lazymatch goal with
    | E : emitUnmatched hj = Ok ?h1, E' : deref (prober ?h1) = Ok ?q |- _ =>
        rename h1 into hj1, q into p1, E into Hem, E' into Hd
    end.
    destruct (emitUnmatched_state _ _ Hem) as (S1 & S2 & S3 & S4 & S5).
    destruct (emitUnmatched_loop _ _ _ _ Hp Ht Hem) as (bidx & n & b2 & Hloop & Hprob).
    rewrite Hprob in Hd. injection Hd as <-.
    apply unmatchedLoop_bound in Hloop as (L1 & L2 & L3); [| lia | lia].
    destruct (Hemit eq_refl) as [Hin Hor].
    assert (Hprev : prevBatch p = None) by (apply Hnp; discriminate).
    cbn [batch setBatch Length SetLength length_].
    split; [exact L1 |]. split; [exact S5 |].
    split; [eexists; split; [exact Hprob | reflexivity] |].
    split.
    { split.
      - eexists _, t. split; [exact Hprob |]. split; [congruence |]. cbn.
        split; [congruence |]. split; [congruence |].
        split; [unfold pending; cbn; rewrite Hprev; exact I |].
        intros _. exact Hprev.
      - rewrite S5, S3, S1, S2. split; [exact Hlim |]. split; [exact Hsrc |].
        intros _. split; [exact Hin | exact Hor]. }
    split.
    + intros Hz. split; [congruence |].
      eexists _, t. split; [exact Hprob |]. split; [congruence |].
      split; [exact Hprev |]. intros _. split; [congruence |]. cbn in Hz. lia.
    + intros (_ & p0 & t0 & _ & X3 & _ & X5).
      destruct (X5 Hor) as [_ Hend].
      assert (t0 = t) by congruence. subst t0.
      destruct (L3 Hend) as [-> _]. reflexivity.
Qed.

(** X9.  The batches of [Next], for a joiner between two calls
    ([wfJoiner]: initialized, with an output batch size that is a positive
    [uint16] and no shorter than the batches of the left source).  If
    [Next] returns, the batch it returns is the output batch of the
    prober and has at most [outputBatchSize] rows, the joiner is again
    between two calls, an empty batch is returned only at the end of the
    stream ([exhausted]), and at the end of the stream every batch is
    empty.  The number of results of a probe is what [collect] and
    [distinctCollect] return, which are modelled from the
    specification. *)
Theorem Next_batch_bound (fuel : nat) (hj hj' : hashJoinEqOp) (b : Batch) :
  wfJoiner hj ->
  Next fuel hj = Ok (hj', b) ->
  0 <= Length b <= outputBatchSize hj
  /\ outputBatchSize hj' = outputBatchSize hj
  /\ (exists p', prober hj' = Some p' /\ batch p' = b)
  /\ wfJoiner hj'
  /\ (Length b = 0 -> exhausted hj')
  /\ (exhausted hj -> Length b = 0).
Proof.
  intros Hwf. unfold Next.
  pose proof Hwf as ((p & t & Hp & Ht & Hps & Hpo & Hpend & Hnp) & Hlim & Hsrc & Hemit).
  rewrite Hp. cbn [deref mbind res_bind]. intros Hn.
  apply nextLoop_spec in Hn.
  - revert Hn. apply nextPost_trans; [reflexivity |].
    intros (X1 & p0 & t0 & X2 & X3 & X4 & X5).
    split; [exact X1 |]. eexists _, t0. cbn.
    split; [reflexivity |]. split; [exact X3 |].
    split; [| exact X5]. assert (p0 = p) by congruence. subst p0. exact X4.
  - split.
    + eexists _, t. cbn. split; [reflexivity |]. split; [exact Ht |].
      split; [exact Hps |]. split; [exact Hpo |]. split; [exact Hpend | exact Hnp].
    + cbn. auto.
Qed.

(** *** The states of Next *)

Lemma emitUnmatched_inputTwo hj hj' :
  emitUnmatched hj = Ok hj' -> inputTwo hj' = inputTwo hj.
Proof.
  unfold emitUnmatched. intros He.
  step He. step He. step He. step He. step He. step He.
  injection He as <-. reflexivity.
Qed.

Lemma nextLoop_forward rounds : forall fuel hj hj' b,
  nextLoop rounds fuel hj = Ok (hj', b) -> forward hj hj'.
Proof.
  induction rounds as [| rounds IH]; intros fuel hj hj' b; [discriminate |].
  cbn [nextLoop]. destruct (runningState hj) eqn:Hst.
  - (* building *)
    intros Hn. step Hn.
    lazymatch goal with
    | E : build hj = Ok ?h1 |- _ =>
        apply build_frame in E as (B1 & B2 & B3 & B4 & _)
    end.
    apply IH in Hn as (F1 & F2 & F3 & F4 & F5 & _ & _).
    unfold forward. rewrite Hst. cbn [stateRank].
    split; [lia |]. split; [exact F2 |].
    split; [intros Hs; right; destruct (F3 Hs) as [Hc | Hc]; congruence |].
    split; [congruence |]. split; [congruence |].
    split; [intros Hc; contradiction | discriminate].
  - (* probing *)
    intros Hn. step Hn. step Hn. step Hn.
    cbn [spec setProber setHt setInputOne] in Hn.
    lazymatch goal with
    | E : exec _ _ _ _ = Ok (_, _, ?c) |- _ => rename c into p1
    end.
    destruct ((Length (batch p1) =? 0) && outer (right (spec hj))) eqn:Hcond.
    + apply IH in Hn as (F1 & F2 & F3 & F4 & F5 & F6 & _).
      cbn in F1, F3, F4, F5, F6.
      unfold forward. rewrite Hst. cbn [stateRank].
      split; [lia |]. split; [exact F2 |].
      split; [intros _; right; apply andb_true_iff in Hcond as [_ Ho]; exact Ho |].
      split; [exact F4 |]. split; [exact F5 |].
      split; [intros _; apply F6; discriminate | discriminate].
    + injection Hn as <- <-. unfold forward. cbn. rewrite Hst. cbn.
      split; [lia |]. split; [discriminate |]. split; [discriminate |].
      split; [reflexivity |]. split; [reflexivity |].
      split; [reflexivity | discriminate].
  - (* emitting unmatched rows *)
    intros Hn. step Hn. step Hn. injection Hn as <- <-.
    lazymatch goal with
    | E : emitUnmatched hj = Ok ?h1 |- _ =>
        pose proof (emitUnmatched_inputTwo _ _ E) as Htwo;
        apply emitUnmatched_state in E as (S1 & S2 & S3 & S4 & S5)
    end.
    unfold forward. rewrite S1, Hst. cbn [stateRank].
    split; [lia |]. split; [discriminate |]. split; [auto |].
    split; [exact S2 |]. split; [exact S5 |]. auto.
Qed.

(** X17.  The state machine of [Next] only moves forward.  If [Next]
    returns, the joiner is not in an earlier state than before and is not
    building; it is emitting unmatched rows only if it was before or the
    right side is outer; its specification and its output batch size are
    the same; the right source is read only by a call that starts in the
    building state, and a call that starts in the emitting state reads
    neither the left source nor changes the table. *)
Theorem Next_forward (fuel : nat) (hj hj' : hashJoinEqOp) (b : Batch) :
  Next fuel hj = Ok (hj', b) -> forward hj hj'.
Proof.
  unfold Next. intros Hn. step Hn.
  apply nextLoop_forward in Hn. exact Hn.
Qed.

End Facts.

(** *** The scenarios, and the properties at work *)

Import reference colexec_examples.

(** C8 as stated fails: after [build], [buildRowMatched] has
    [vals.length = 3] elements, so index [vals.length], which [same]
    covers, is out of its range. *)
Lemma build_buildRowMatched_short :
  match build joinerS3 with
  | Ok hj' =>
      (fun t => vlength (vals t)) <$> ht hj' = Some 3
      /\ (fun t => same t !! 3%nat) <$> ht hj' = Some (Some 0)
      /\ buildRowMatched <$> prober hj' = Some [false; false; false]
      /\ (fun p => buildRowMatched p !! 3%nat) <$> prober hj' = Some None
  | _ => False
  end.
Proof. vm_compute. auto. Qed.

Example scenario_S3 :
  (hj ← joiner leftS3 rightS3 false JoinType_RIGHT_OUTER; outputs 3 hj)
  = Ok [ [[Some 1; Some 1]; [Some 97; Some 97]; [Some 1; Some 1]; [Some 121; Some 120]];
         [[None]; [None]; [Some 2]; [Some 122]];
         [[]; []; []; []] ].
Proof. vm_compute. reflexivity. Qed.

Lemma Next_probing_step_witness :
  exists hj2 b,
    Next 100 probedS3 = Ok (hj2, b)
    /\ runningState hj2 = hjEmittingUnmatched
    /\ Length b = 1.
Proof.
  edestruct (Next_probing_step 100 probedS3) as (_ & _ & _ & _ & Hall).
  - vm_compute. reflexivity.
  - vm_compute. reflexivity.
  - vm_compute. reflexivity.
  - vm_compute. reflexivity.
  - assert (Hn : exists hj2 b, Next 100 probedS3 = Ok (hj2, b) /\ Length b = 1).
    { eexists _, _. split; [vm_compute; reflexivity | reflexivity]. }
    destruct Hn as (hj2 & b & Hn & Hl).
    exists hj2, b. split; [exact Hn |]. split; [| exact Hl].
    apply (Hall hj2 b Hn). split; reflexivity.
Defined.

Lemma build_allocates_witness :
  exists hj',
    build joinerS3 = Ok hj'
    /\ runningState hj' = hjProbing
    /\ buildRowMatched <$> prober hj' = Some [false; false; false].
Proof.
  edestruct (build_allocates joinerS3) as (hj' & t' & Hb & _ & Hs & _ & _ & _ & _ & Ho).
  - vm_compute. reflexivity.
  - vm_compute. reflexivity.
  - intros _. vm_compute. eauto.
  - vm_compute. split; [discriminate | reflexivity].
  - change (outer (right (spec joinerS3))) with true in Ho. cbv iota in Ho.
    destruct Ho as (p & p' & _ & Hp' & Hbrm & _).
    exists hj'. split; [exact Hb |]. split; [exact Hs |].
    rewrite Hp'. cbn [fmap option_fmap option_map]. rewrite Hbrm. reflexivity.
Defined.

Lemma congregate_empty_table_witness :
  exists t p n p' v',
    collectedS6 = Ok (t, p, n)
    /\ congregate t p n batchS6 (Length batchS6) = Ok p'
    /\ Length (batch p') = 1
    /\ colVecs (batch p') !! 2%nat = Some v'
    /\ NullAt (nulls v') 0 = true.
Proof.
  pose (facts := fun r : res (hashTable * hashJoinProber * Z) =>
          match r with
          | Ok (t, p, n) =>
              (vlength (vals t), length (probeRowUnmatched p), n,
               outer (left (pspec p)), length (outCols (left (pspec p))),
               length (htOutCols t), probeRowUnmatched p !! 0%nat,
               match congregate t p n batchS6 (Length batchS6) with
               | Ok _ => true | _ => false end)
          | _ => (1, 0%nat, 0, false, 0%nat, 0%nat, None, false)
          end).
  assert (Hf : facts collectedS6
               = (0, 1024%nat, 1, true, 2%nat, 2%nat, Some true, true))
    by (vm_compute; reflexivity).
  destruct collectedS6 as [[[t p] n] | |] eqn:E; [| discriminate Hf ..].
  cbn [facts] in Hf.
  destruct (congregate t p n batchS6 (Length batchS6)) as [p' | |] eqn:Ec;
    [| discriminate Hf ..].
  injection Hf as Hv Hlen Hn Hlo Hoff Hcols Hpru.
  destruct (congregate_empty_table t p n batchS6 (Length batchS6) p')
    as (HL & _ & Hright).
  - exact Hv.
  - rewrite Hlen. lia.
  - exact Ec.
  - specialize (Hright 2%nat). rewrite Hlo, Hoff, Hcols in Hright.
    destruct (Hright ltac:(lia)) as (v & v' & _ & Hv' & _ & Hnull & _).
    exists t, p, n, p', v'. split; [reflexivity |]. split; [exact Ec |].
    split; [congruence |]. split; [exact Hv' |]. apply Hnull. exact Hpru.
Defined.

Lemma Init_constructed_witness :
  exists op hj p,
    NewEqHashJoinerOp leftS2 rightS2 [0] [0] [1%N; 2%N] [1%N; 2%N] false
      JoinType_LEFT_OUTER = inl op
    /\ Init op = Ok hj
    /\ prober hj = Some p
    /\ runningState hj = hjBuilding
    /\ length (probeRowUnmatched p) = 1024%nat
    /\ wfJoiner hj.
Proof.
  eexists.
  edestruct (Init_constructed leftS2 rightS2 [0] [0] [1%N; 2%N] [1%N; 2%N] false
               JoinType_LEFT_OUTER)
    as (hj & p & Hinit & Hst & _ & _ & _ & _ & _ & Hp & _ & _ & _ & _ & _ & Hpru & _ & _
        & Hwf).
  - reflexivity.
  - simpl. lia.
  - simpl. lia.
  - exists hj, p. split; [reflexivity |]. split; [exact Hinit |].
    split; [exact Hp |]. split; [exact Hst |].
    split; [rewrite Hpru; reflexivity |].
    apply Hwf. repeat constructor; discriminate.
Defined.

Lemma congregate_marks_witness :
  exists t p n p',
    collected joinerS3 batchS3 = Ok (t, p, n)
    /\ congregate t p n batchS3 (Length batchS3) = Ok p'
    /\ buildRowMatched p' !! 0%nat = Some true
    /\ buildRowMatched p' !! 2%nat <> Some true.
Proof.
  pose (facts := fun r : res (hashTable * hashJoinProber * Z) =>
          match r with
          | Ok (t, p, n) =>
              (n, outer (right (pspec p)), outer (left (pspec p)),
               buildIdx p !! 0%nat, buildIdx p !! 1%nat, buildRowMatched p,
               match congregate t p n batchS3 (Length batchS3) with
               | Ok _ => true | _ => false end)
          | _ => (0, false, false, None, None, [], false)
          end).
  assert (Hf : facts (collected joinerS3 batchS3)
               = (2, true, false, Some 1, Some 0, [false; false; false], true))
    by (vm_compute; reflexivity).
  destruct (collected joinerS3 batchS3) as [[[t p] n] | |] eqn:E; [| discriminate Hf ..].
  cbn [facts] in Hf.
  destruct (congregate t p n batchS3 (Length batchS3)) as [p' | |] eqn:Ec;
    [| discriminate Hf ..].
  injection Hf as Hn Hro Hlo Hb0 Hb1 Hbrm.
  destruct (congregate_marks t p n batchS3 (Length batchS3) p' Ec)
    as (_ & _ & _ & _ & _ & Hmarks).
  specialize (Hmarks Hro).
  exists t, p, n, p'. split; [reflexivity |]. split; [exact Ec |]. split.
  - apply Hmarks. right. exists 1. split; [lia |]. split; [exact Hb1 |].
    rewrite Hlo. discriminate.
  - intros Hm. apply Hmarks in Hm as [Hm | (i & Hi & Hm & _)].
    + rewrite Hbrm in Hm. discriminate.
    + assert (i = 0 \/ i = 1) as [-> | ->] by lia.
      * change (Z.to_nat 0) with 0%nat in Hm. rewrite Hb0 in Hm. discriminate.
      * change (Z.to_nat 1) with 1%nat in Hm. rewrite Hb1 in Hm. discriminate.
Defined.

Lemma unmatchedLoop_emits_witness :
  exists bidx' r',
    unmatchedLoop 4 2 4 [true; false; false; false] ([7; 7; 7], 0, 0)
    = Ok (bidx', 2, r')
    /\ take 2 bidx' = [1; 2] /\ r' = 3.
Proof.
  destruct (unmatchedLoop_emits 2 4 [true; false; false; false] [7; 7; 7] 0)
    as (bidx' & n' & r' & Hloop & _ & _ & _ & _ & Hrows); [simpl; lia ..|].
  change (Z.to_nat (4 - 0)) with 4%nat in Hloop.
  assert (Hrun : unmatchedLoop 4 2 4 [true; false; false; false] ([7; 7; 7], 0, 0)
                 = Ok ([1; 2; 7], 2, 3)) by reflexivity.
  rewrite Hrun in Hloop. injection Hloop as <- <- <-.
  exists [1; 2; 7], 3. split; [exact Hrun |]. split; [exact Hrows | reflexivity].
Defined.

Lemma emitUnmatched_rows_witness :
  exists hj' p',
    emitUnmatched probedS3 = Ok hj'
    /\ prober hj' = Some p'
    /\ rowIdx hj' = 3
    /\ take 1 (buildIdx p') = [2].
Proof.
  destruct (prober probedS3) as [p |] eqn:Hp; [| vm_compute in Hp; discriminate].
  destruct (ht probedS3) as [t |] eqn:Ht; [| vm_compute in Ht; discriminate].
  assert (F1 : pspec <$> prober probedS3 = Some (spec probedS3))
    by (vm_compute; reflexivity).
  assert (F2 : buildRowMatched <$> prober probedS3 = Some [true; true; false])
    by (vm_compute; reflexivity).
  assert (F3 : (fun t => vlength (vals t)) <$> ht probedS3 = Some 3)
    by (vm_compute; reflexivity).
  rewrite Hp in F1, F2. rewrite Ht in F3.
  cbn [fmap option_fmap option_map] in F1, F2, F3.
  apply (inj Some) in F1. apply (inj Some) in F2. apply (inj Some) in F3.
  pose (facts := fun r : res hashJoinEqOp =>
          match r with
          | Ok hj' => Some (rowIdx hj', Length <$> (batch <$> prober hj'))
          | _ => None
          end).
  assert (Hf : facts (emitUnmatched probedS3) = Some (3, Some 1))
    by (vm_compute; reflexivity).
  destruct (emitUnmatched probedS3) as [hj' | |] eqn:E; [| discriminate Hf ..].
  cbn [facts] in Hf. injection Hf as Hrow Hlen.
  destruct (emitUnmatched_rows probedS3 hj' p t Hp Ht F1)
    as (_ & _ & _ & _ & _ & p' & Hp' & _ & _ & _ & Hrows & _).
  - vm_compute. discriminate.
  - vm_compute. split; [discriminate | reflexivity].
  - rewrite F3. reflexivity.
  - exact E.
  - exists hj', p'. split; [reflexivity |]. split; [exact Hp' |].
    split; [exact Hrow |].
    rewrite Hp' in Hlen. cbn in Hlen. injection Hlen as Hlen.
    rewrite Hlen, F2, Hrow in Hrows. exact Hrows.
Defined.

Lemma Next_batch_bound_witness :
  exists hj' b,
    Next 100 joinerS4 = Ok (hj', b)
    /\ Length b = 2
    /\ outputBatchSize hj' = 2
    /\ wfJoiner hj'.
Proof.
  assert (Hwf : wfJoiner joinerS4).
  { split.
    - destruct (prober joinerS4) as [p |] eqn:Hp; [| vm_compute in Hp; discriminate].
      destruct (ht joinerS4) as [t |] eqn:Ht; [| vm_compute in Ht; discriminate].
      assert (F1 : pspec <$> prober joinerS4 = Some (spec joinerS4))
        by (vm_compute; reflexivity).
      assert (F2 : poutputBatchSize <$> prober joinerS4 = Some (outputBatchSize joinerS4))
        by (vm_compute; reflexivity).
      assert (F3 : prevBatch <$> prober joinerS4 = Some None)
        by (vm_compute; reflexivity).
      rewrite Hp in F1, F2, F3. cbn in F1, F2, F3.
      injection F1 as F1. injection F2 as F2. injection F3 as F3.
      exists p, t. split; [reflexivity |]. split; [reflexivity |].
      split; [exact F1 |]. split; [exact F2 |].
      split; [unfold pending; rewrite F3; exact I | intros _; exact F3].
    - split; [vm_compute; split; reflexivity |].
      split; [| intros Hs; vm_compute in Hs; discriminate].
      vm_compute. repeat constructor; discriminate. }
  pose (facts := fun r : res (hashJoinEqOp * Batch) =>
          match r with
          | Ok (hj', b) => Some (Length b)
          | _ => None
          end).
  assert (Hf : facts (Next 100 joinerS4) = Some 2) by (vm_compute; reflexivity).
  destruct (Next 100 joinerS4) as [[hj' b] | |] eqn:E; [| discriminate Hf ..].
  cbn [facts] in Hf. injection Hf as Hlen.
  destruct (Next_batch_bound 100 joinerS4 hj' b Hwf E) as (_ & Hobs & _ & Hwf' & _).
  exists hj', b. split; [reflexivity |]. split; [exact Hlen |].
  split; [rewrite Hobs; reflexivity | exact Hwf'].
Defined.

Lemma Next_forward_witness :
  exists hj' b,
    Next 100 probedS3 = Ok (hj', b)
    /\ runningState hj' = hjEmittingUnmatched
    /\ spec hj' = spec probedS3
    /\ inputTwo hj' = inputTwo probedS3.
Proof.
  pose (facts := fun r : res (hashJoinEqOp * Batch) =>
          match r with
          | Ok (hj', b) => Some (runningState hj')
          | _ => None
          end).
  assert (Hf : facts (Next 100 probedS3) = Some hjEmittingUnmatched)
    by (vm_compute; reflexivity).
  assert (Hst : runningState probedS3 <> hjBuilding) by (vm_compute; discriminate).
  destruct (Next 100 probedS3) as [[hj' b] | |] eqn:E; [| discriminate Hf ..].
  cbn [facts] in Hf. apply (inj Some) in Hf.
  destruct (Next_forward 100 probedS3 hj' b E) as (_ & _ & _ & Hspec & _ & Htwo & _).
  exists hj', b. split; [reflexivity |]. split; [exact Hf |].
  split; [exact Hspec | exact (Htwo Hst)].
Defined.

End colexec_facts.
